(** * The struct codec of the BSON package (bson/struct_codec.go)

    A shallow embedding of the struct descriptor builder, of the encode and
    decode traversals built on it, of the emptiness test and of the recursive
    zero builder, together with the properties the specification states
    about them.

    Conventions of the embedding:
    - a Go function returning [(T, error)] returns a [result T]; a panic of
      the [reflect] package is the third outcome [Panic];
    - a pointer receiver or a destination mutated in place is passed in and
      returned (explicit state passing);
    - [reflect.Type] is a finite tree ([rtype]); [reflect.Value] is a tree
      of data ([rvalue]) together with the flags the code consults;
    - the collaborators that are interfaces in the source (registry, value
      reader, document writer, field encoders and decoders, tag parsers) are
      parameters of the sections that use them. *)

From stdpp Require Import gmap strings list.
From Stdlib Require Import ZArith OrdersEx Permutation Sorted Lia.

#[local] Set Warnings "-register-all".
#[local] Open Scope string_scope.
#[local] Open Scope list_scope.

(** ** The reflect package: kinds, types *)

Module reflect.
Inductive Kind :=
| Invalid | Bool | Int | Int8 | Int16 | Int32 | Int64
| Uint | Uint8 | Uint16 | Uint32 | Uint64 | Uintptr
| Float32 | Float64 | Complex64 | Complex128
| Array | Chan | Func | Interface | Map | Ptr | Slice | String | Struct
| UnsafePointer.

Definition Kind_eqb (a b : Kind) : bool :=
  match a, b with
  | Invalid, Invalid | Bool, Bool | Int, Int | Int8, Int8 | Int16, Int16
  | Int32, Int32 | Int64, Int64 | Uint, Uint | Uint8, Uint8
  | Uint16, Uint16 | Uint32, Uint32 | Uint64, Uint64 | Uintptr, Uintptr
  | Float32, Float32 | Float64, Float64 | Complex64, Complex64
  | Complex128, Complex128 | Array, Array | Chan, Chan | Func, Func
  | Interface, Interface | Map, Map | Ptr, Ptr | Slice, Slice
  | String, String | Struct, Struct | UnsafePointer, UnsafePointer => true
  | _, _ => false
  end.
End reflect.

(** [reflect.StructField]: the part of it the codec reads. *)
Record StructField (T : Type) := mkStructField {
  sfName : string;
  sfPkgPath : string;
  sfAnonymous : bool;
  sfType : T;
  sfTag : string
}.
Arguments mkStructField {T}.
Arguments sfName {T}.
Arguments sfPkgPath {T}.
Arguments sfAnonymous {T}.
Arguments sfType {T}.
Arguments sfTag {T}.

(** The kinds whose types have no inner structure the codec looks at. *)
Inductive basic :=
| bBool | bInt | bInt8 | bInt16 | bInt32 | bInt64
| bUint | bUint8 | bUint16 | bUint32 | bUint64 | bUintptr
| bFloat32 | bFloat64 | bComplex64 | bComplex128
| bChan | bFunc | bUnsafePointer.

Definition basicKind (b : basic) : reflect.Kind :=
  match b with
  | bBool => reflect.Bool | bInt => reflect.Int | bInt8 => reflect.Int8
  | bInt16 => reflect.Int16 | bInt32 => reflect.Int32
  | bInt64 => reflect.Int64 | bUint => reflect.Uint
  | bUint8 => reflect.Uint8 | bUint16 => reflect.Uint16
  | bUint32 => reflect.Uint32 | bUint64 => reflect.Uint64
  | bUintptr => reflect.Uintptr | bFloat32 => reflect.Float32
  | bFloat64 => reflect.Float64 | bComplex64 => reflect.Complex64
  | bComplex128 => reflect.Complex128 | bChan => reflect.Chan
  | bFunc => reflect.Func | bUnsafePointer => reflect.UnsafePointer
  end.

(** [reflect.Type].  A type is a finite tree: [TBasic] covers the kinds
    without inner structure (booleans, numbers, channels, functions), each
    with its type name; [TString] is a string type with its name. *)
Inductive rtype :=
| TBasic (k : basic) (name : string)
| TString (name : string)
| TInterface (name : string)
| TPtr (elem : rtype)
| TSlice (elem : rtype)
| TArray (len : nat) (elem : rtype)
| TMap (key elem : rtype)
| TStruct (name : string) (fields : list (StructField rtype)).

Definition Kind (t : rtype) : reflect.Kind :=
  match t with
  | TBasic k _ => basicKind k
  | TString _ => reflect.String
  | TInterface _ => reflect.Interface
  | TPtr _ => reflect.Ptr
  | TSlice _ => reflect.Slice
  | TArray _ _ => reflect.Array
  | TMap _ _ => reflect.Map
  | TStruct _ _ => reflect.Struct
  end.

(** [t.String()], used in error messages only. *)
Fixpoint typeString (t : rtype) : string :=
  match t with
  | TBasic _ n => n
  | TString n => n
  | TInterface n => n
  | TPtr e => "*" +:+ typeString e
  | TSlice e => "[]" +:+ typeString e
  | TArray _ e => "[...]" +:+ typeString e
  | TMap k e => "map[" +:+ typeString k +:+ "]" +:+ typeString e
  | TStruct n _ => n
  end.

(** Identity of types ([==] on [reflect.Type]). *)
Fixpoint rtype_eqb (a b : rtype) {struct a} : bool :=
  match a, b with
  | TBasic k n, TBasic k' n' =>
      reflect.Kind_eqb (basicKind k) (basicKind k') && String.eqb n n'
  | TString n, TString n' => String.eqb n n'
  | TInterface n, TInterface n' => String.eqb n n'
  | TPtr e, TPtr e' => rtype_eqb e e'
  | TSlice e, TSlice e' => rtype_eqb e e'
  | TArray l e, TArray l' e' => Nat.eqb l l' && rtype_eqb e e'
  | TMap k e, TMap k' e' => rtype_eqb k k' && rtype_eqb e e'
  | TStruct n fs, TStruct n' fs' =>
      String.eqb n n' &&
      (fix fields_eqb (l l' : list (StructField rtype)) {struct l} : bool :=
         match l, l' with
         | [], [] => true
         | f :: r, f' :: r' =>
             String.eqb (sfName f) (sfName f')
             && String.eqb (sfPkgPath f) (sfPkgPath f')
             && Bool.eqb (sfAnonymous f) (sfAnonymous f')
             && rtype_eqb (sfType f) (sfType f')
             && String.eqb (sfTag f) (sfTag f')
             && fields_eqb r r'
         | _, _ => false
         end) fs fs'
  | _, _ => false
  end.

Definition tString : rtype := TString "string".

(** ** Errors *)

(** The error values the codec creates or inspects.  [wrapError] is an error
    of a collaborator that wraps another one (it has an [Unwrap] method), so
    that [errors.As] and [errors.Is] have a chain to walk. *)
Inductive error :=
| errInvalidValue
| ErrEOD
| errNoEncoder (t : rtype)
| errNoDecoder (t : rtype)
| ValueEncoderError (name : string)
| ValueDecoderError (name : string)
| errorString (msg : string)
| wrapError (msg : string) (inner : error)
| DecodeError (keys : list string) (wrapped : error).

(** Outcome of a call: a value, an error, or a panic of the runtime. *)
Inductive result (A : Type) :=
| Ok (a : A)
| Err (e : error)
| Panic (msg : string).
Arguments Ok {A}.
Arguments Err {A}.
Arguments Panic {A}.

#[global] Instance result_bind : MBind result := fun A B k m =>
  match m with
  | Ok a => k a
  | Err e => Err e
  | Panic s => Panic s
  end.

#[global] Instance result_ret : MRet result := fun A a => Ok a.

(** [DecodeError.Unwrap]. *)
Definition Unwrap (de : error) : option error :=
  match de with
  | DecodeError _ wrapped => Some wrapped
  | wrapError _ inner => Some inner
  | _ => None
  end.

(** [DecodeError.Keys]: the loop runs from the last stored key to the first. *)
Fixpoint KeysFrom (keys : list string) (idx : nat) : list string :=
  match idx with
  | O => []
  | S idx' =>
      match keys !! idx' with
      | Some k => k :: KeysFrom keys idx'
      | None => KeysFrom keys idx'
      end
  end.

Definition Keys (de : error) : list string :=
  match de with
  | DecodeError keys _ => KeysFrom keys (length keys)
  | _ => []
  end.

(** [errors.As(original, &de)] for [de *DecodeError]: the first error of the
    chain that is a [DecodeError]. *)
Fixpoint errorsAsDecodeError (e : error) : option (list string * error) :=
  match e with
  | DecodeError keys wrapped => Some (keys, wrapped)
  | wrapError _ inner => errorsAsDecodeError inner
  | _ => None
  end.

(** [errors.Is(err, errInvalidValue)]. *)
Fixpoint isErrInvalidValue (e : error) : bool :=
  match e with
  | errInvalidValue => true
  | wrapError _ inner => isErrInvalidValue inner
  | DecodeError _ wrapped => isErrInvalidValue wrapped
  | _ => false
  end.

Definition newDecodeError (key : string) (original : error) : error :=
  match errorsAsDecodeError original with
  | None => DecodeError [key] original
  | Some (keys, wrapped) => DecodeError (keys ++ [key]) wrapped
  end.

(** ** Descriptors *)

(** Handles of the encoders and decoders a registry hands out. *)
Definition ValueEncoder := nat.
Definition ValueDecoder := nat.

Record Registry := mkRegistry {
  LookupEncoder : rtype -> result ValueEncoder;
  LookupDecoder : rtype -> result ValueDecoder
}.

(** The record a tag parser returns. *)
Record structTags := mkStructTags {
  Name : string;
  OmitEmpty : bool;
  MinSize : bool;
  Truncate : bool;
  Inline : bool;
  Skip : bool
}.

(** [inline] is a Go slice that is either nil or holds at least two
    offsets; nil is the empty list.  A nil [encoder] or [decoder] is
    [None]. *)
Record fieldDescription := mkFieldDescription {
  name : string;
  fieldName : string;
  idx : nat;
  omitEmpty : bool;
  minSize : bool;
  truncate : bool;
  inline : list nat;
  encoder : option ValueEncoder;
  decoder : option ValueDecoder
}.

Record structDescription := mkStructDescription {
  fm : gmap string fieldDescription;
  fl : list fieldDescription;
  inlineMap : Z;
  inlineFlag : bool
}.

(** [byIndex.Less] on two elements. *)
Fixpoint inlineLess (a b : list nat) : bool :=
  match a with
  | [] => Nat.ltb (length a) (length b)
  | x :: a' =>
      match b with
      | [] => false
      | y :: b' => if Nat.eqb x y then inlineLess a' b' else Nat.ltb x y
      end
  end.

Definition topIndex (f : fieldDescription) : nat :=
  match inline f with
  | [] => idx f
  | i0 :: _ => i0
  end.

Definition byIndexLess (fi fj : fieldDescription) : bool :=
  let iIdx := topIndex fi in
  let jIdx := topIndex fj in
  if negb (Nat.eqb iIdx jIdx) then Nat.ltb iIdx jIdx
  else inlineLess (inline fi) (inline fj).

(** Comparison of Go strings with [<]: bytewise lexicographic. *)
Definition stringLess (a b : string) : bool :=
  match String_as_OT.compare a b with
  | Lt => true
  | _ => false
  end.

(** The [less] closure given to [sort.Slice] in [describeStructSlow]. *)
Definition nameLess (x y : fieldDescription) : bool :=
  if negb (String.eqb (name x) (name y)) then stringLess (name x) (name y)
  else if negb (Nat.eqb (length (inline x)) (length (inline y)))
       then Nat.ltb (length (inline x)) (length (inline y))
       else byIndexLess x y.

(** [sort.Slice] and [sort.Sort] promise a permutation sorted by [less] and
    nothing about elements that compare equal; they are modelled by a
    straight insertion sort. *)
Section Sort.
Context {A : Type} (less : A -> A -> bool).

Fixpoint insertSorted (x : A) (l : list A) : list A :=
  match l with
  | [] => [x]
  | y :: l' => if less x y then x :: y :: l' else y :: insertSorted x l'
  end.

Fixpoint sortSlice (l : list A) : list A :=
  match l with
  | [] => []
  | x :: l' => insertSorted x (sortSlice l')
  end.
End Sort.

(** The zero value [fieldDescription{}]. *)
Definition zeroFieldDescription : fieldDescription :=
  mkFieldDescription "" "" 0 false false false [] None None.

(** [dominantField]: [fields[0]] is out of range on an empty slice. *)
Definition dominantField (fields : list fieldDescription)
  : result (fieldDescription * bool) :=
  match fields with
  | f0 :: f1 :: _ =>
      if Nat.eqb (length (inline f0)) (length (inline f1))
      then Ok (zeroFieldDescription, false)
      else Ok (f0, true)
  | f0 :: [] => Ok (f0, true)
  | [] => Panic "index out of range"
  end.

(** ** The codec and its descriptor cache *)

(** [structCodec].  [cache] is the [sync.Map] from types to descriptors, as
    an association list in order of publication; [inlineMapEncoder] is the
    handle of the collaborator that encodes the entries of an inline map. *)
Record structCodec := mkStructCodec {
  cache : list (rtype * structDescription);
  inlineMapEncoder : nat;
  decodeZeroStruct : bool;
  decodeDeepZeroInline : bool;
  encodeOmitDefaultStruct : bool;
  allowUnexportedFields : bool;
  overwriteDuplicatedInlinedFields : bool
}.

Definition newStructCodec (elemEncoder : nat) : structCodec :=
  {| cache := [];
     inlineMapEncoder := elemEncoder;
     decodeZeroStruct := false;
     decodeDeepZeroInline := false;
     encodeOmitDefaultStruct := false;
     allowUnexportedFields := false;
     overwriteDuplicatedInlinedFields := true |}.

Definition withCache (sc : structCodec) (c : list (rtype * structDescription))
  : structCodec :=
  {| cache := c;
     inlineMapEncoder := inlineMapEncoder sc;
     decodeZeroStruct := decodeZeroStruct sc;
     decodeDeepZeroInline := decodeDeepZeroInline sc;
     encodeOmitDefaultStruct := encodeOmitDefaultStruct sc;
     allowUnexportedFields := allowUnexportedFields sc;
     overwriteDuplicatedInlinedFields := overwriteDuplicatedInlinedFields sc |}.

(** [sync.Map.Load]. *)
Fixpoint cacheLoad (c : list (rtype * structDescription)) (t : rtype)
  : option structDescription :=
  match c with
  | [] => None
  | (t', v) :: c' => if rtype_eqb t' t then Some v else cacheLoad c' t
  end.

(** [sync.Map.LoadOrStore]: the stored value if there is one (and [true]),
    otherwise the given value, which is stored (and [false]). *)
Definition cacheLoadOrStore (c : list (rtype * structDescription)) (t : rtype)
  (ds : structDescription)
  : list (rtype * structDescription) * structDescription * bool :=
  match cacheLoad c t with
  | Some v => (c, v, true)
  | None => (c ++ [(t, ds)], ds, false)
  end.

(** The body of [describeStruct], given the slow path for its type. *)
Definition describeStructVia
  (slow : structCodec -> structCodec * result structDescription)
  (sc : structCodec) (t : rtype) : structCodec * result structDescription :=
  match cacheLoad (cache sc) t with
  | Some v => (sc, Ok v)
  | None =>
      let '(sc1, res) := slow sc in
      match res with
      | Ok ds =>
          let '(c, v, _) := cacheLoadOrStore (cache sc1) t ds in
          (withCache sc1 c, Ok v)
      | Err e => (sc1, Err e)
      | Panic m => (sc1, Panic m)
      end
  end.

Definition withInline (fd : fieldDescription) (p : list nat) : fieldDescription :=
  {| name := name fd; fieldName := fieldName fd; idx := idx fd;
     omitEmpty := omitEmpty fd; minSize := minSize fd; truncate := truncate fd;
     inline := p; encoder := encoder fd; decoder := decoder fd |}.

(** The path given to a field of an inlined struct that sits at offset [i]. *)
Definition prependInline (i : nat) (fd : fieldDescription) : fieldDescription :=
  match inline fd with
  | [] => withInline fd [i; idx fd]
  | _ :: _ => withInline fd (i :: inline fd)
  end.

Definition duplicatedKeyError (t : rtype) (key : string) : error :=
  errorString ("struct " +:+ typeString t +:+ " has duplicated key " +:+ key).

(** The inner loop of the dominance pass: how many of the fields that
    follow carry the name of the group. *)
Fixpoint sameNameRun (nm : string) (rest : list fieldDescription) : nat :=
  match rest with
  | fj :: rest' => if String.eqb (name fj) nm then S (sameNameRun nm rest') else 0
  | [] => 0
  end.

(** The dominance pass of [describeStructSlow]: [fields] is [fields[i:]],
    one iteration per name.  Every iteration consumes at least one field, so
    [length fields] iterations are enough. *)
Fixpoint dominanceLoop (fuel : nat) (overwrite errorOnDuplicates : bool)
  (t : rtype) (fields : list fieldDescription) (sd : structDescription)
  : result structDescription :=
  match fields with
  | [] => Ok sd
  | fi :: rest =>
      match fuel with
      | O => Panic "dominanceLoop: out of fuel"
      | S fuel' =>
          let advance := S (sameNameRun (name fi) rest) in
          if Nat.eqb advance 1 then
            dominanceLoop fuel' overwrite errorOnDuplicates t rest
              {| fm := <[name fi := fi]> (fm sd); fl := fl sd ++ [fi];
                 inlineMap := inlineMap sd; inlineFlag := inlineFlag sd |}
          else
            '(dominant, ok) ← dominantField (take advance fields);
            if negb ok || negb overwrite || errorOnDuplicates
            then Err (duplicatedKeyError t (name fi))
            else
              dominanceLoop fuel' overwrite errorOnDuplicates t
                (drop advance fields)
                {| fm := <[name fi := dominant]> (fm sd);
                   fl := fl sd ++ [dominant];
                   inlineMap := inlineMap sd; inlineFlag := inlineFlag sd |}
      end
  end.

(** Lines 566 to 606 of [describeStructSlow]: sort the flattened fields by
    name, keep one field per name, sort the kept fields by index. *)
Definition resolveFields (overwrite errorOnDuplicates : bool) (t : rtype)
  (fields : list fieldDescription) (sd : structDescription)
  : result structDescription :=
  let sorted := sortSlice nameLess fields in
  sd' ← dominanceLoop (length sorted) overwrite errorOnDuplicates t sorted sd;
  Ok {| fm := fm sd'; fl := sortSlice byIndexLess (fl sd');
        inlineMap := inlineMap sd'; inlineFlag := inlineFlag sd' |}.

Section Describe.
(** The two tag parsers, [parseStructTags] and [parseJSONStructTags]. *)
Variable parseStructTags parseJSONStructTags : StructField rtype -> result structTags.

Definition lookupOrNil {A} (r : result A) : option A :=
  match r with
  | Ok a => Some a
  | _ => None
  end.

Definition inlineKindError (t : rtype) : error :=
  errorString ("(struct " +:+ typeString t
               +:+ ") inline fields must be a struct, a struct pointer, or a map").

Definition emptyDescription : structDescription :=
  {| fm := ∅; fl := []; inlineMap := (-1)%Z; inlineFlag := false |}.

Section Collect.
(** [describeInlined] is the call of [describeStruct] on the struct type
    of an inline field. *)
Variable describeInlined :
  structCodec -> rtype -> structCodec * result structDescription.
Variable r : Registry.
Variable t : rtype.
Variable useJSONStructTags : bool.

(** The first loop of [describeStructSlow], over the fields [sfs] of [t]
    from offset [i] on: it fills the pending list [fields] and sets
    [inline] and [inlineMap] of the descriptor. *)
Fixpoint collectFields (sfs : list (StructField rtype)) (i : nat)
  (sc : structCodec) (sd : structDescription)
  (fields : list fieldDescription) {struct sfs}
  : structCodec * result (structDescription * list fieldDescription) :=
  match sfs with
  | [] => (sc, Ok (sd, fields))
  | sf :: rest =>
      if negb (String.eqb (sfPkgPath sf) "")
         && (negb (allowUnexportedFields sc) || negb (sfAnonymous sf))
      then collectFields rest (S i) sc sd fields
      else
        let encoder := lookupOrNil (LookupEncoder r (sfType sf)) in
        let decoder := lookupOrNil (LookupDecoder r (sfType sf)) in
        match (if useJSONStructTags then parseJSONStructTags sf
               else parseStructTags sf) with
        | Err e => (sc, Err e)
        | Panic m => (sc, Panic m)
        | Ok stags =>
            if Skip stags then collectFields rest (S i) sc sd fields
            else
              let description :=
                {| name := Name stags; fieldName := sfName sf;
                   idx := i; omitEmpty := OmitEmpty stags;
                   minSize := MinSize stags;
                   truncate := Truncate stags; inline := [];
                   encoder := encoder; decoder := decoder |} in
              if Inline stags then
                let sd1 :=
                  {| fm := fm sd; fl := fl sd; inlineMap := inlineMap sd;
                     inlineFlag := true |} in
                let flatten (res : structCodec * result structDescription) :=
                  match res with
                  | (sc1, Ok inlinesf) =>
                      collectFields rest (S i) sc1 sd1
                        (fields ++ map (prependInline i) (fl inlinesf))
                  | (sc1, Err e) => (sc1, Err e)
                  | (sc1, Panic m) => (sc1, Panic m)
                  end in
                match sfType sf with
                | TMap key _ =>
                    if (0 <=? inlineMap sd1)%Z then
                      (sc, Err (errorString
                                  ("(struct " +:+ typeString t
                                   +:+ ") multiple inline maps")))
                    else if negb (rtype_eqb key tString) then
                      (sc, Err (errorString
                                  ("(struct " +:+ typeString t
                                   +:+ ") inline map must have a string keys")))
                    else
                      collectFields rest (S i) sc
                        {| fm := fm sd1; fl := fl sd1;
                           inlineMap := Z.of_nat (idx description);
                           inlineFlag := inlineFlag sd1 |}
                        fields
                | TPtr elem =>
                    match elem with
                    | TStruct _ _ => flatten (describeInlined sc elem)
                    | _ => (sc, Err (inlineKindError t))
                    end
                | TStruct _ _ => flatten (describeInlined sc (sfType sf))
                | _ => (sc, Err (inlineKindError t))
                end
              else collectFields rest (S i) sc sd (fields ++ [description])
        end
  end.
End Collect.

(** [describeStructSlow]: the first loop, then the dominance pass. *)
Fixpoint describeStructSlow (sc : structCodec) (r : Registry) (t : rtype)
  (useJSONStructTags errorOnDuplicates : bool) {struct t}
  : structCodec * result structDescription :=
  match t with
  | TStruct _ tfields =>
      match collectFields
              (fun sc' ty =>
                 describeStructVia
                   (fun sc'' =>
                      describeStructSlow sc'' r ty
                        useJSONStructTags errorOnDuplicates)
                   sc' ty)
              r t useJSONStructTags tfields 0 sc emptyDescription [] with
      | (sc1, Ok (sd, fields)) =>
          (sc1, resolveFields (overwriteDuplicatedInlinedFields sc1)
                  errorOnDuplicates t fields sd)
      | (sc1, Err e) => (sc1, Err e)
      | (sc1, Panic m) => (sc1, Panic m)
      end
  | _ => (sc, Panic "reflect: NumField of non-struct type")
  end.

Definition describeStruct (sc : structCodec) (r : Registry) (t : rtype)
  (useJSONStructTags errorOnDuplicates : bool)
  : structCodec * result structDescription :=
  describeStructVia
    (fun sc' => describeStructSlow sc' r t useJSONStructTags errorOnDuplicates)
    sc t.

(** The flattened field list of a struct type: what the first loop of
    [describeStructSlow] hands to the dominance pass. *)
Definition flattenedFields (sc : structCodec) (r : Registry) (t : rtype)
  (useJSONStructTags errorOnDuplicates : bool)
  : structCodec * result (structDescription * list fieldDescription) :=
  match t with
  | TStruct _ tfields =>
      collectFields
        (fun sc' ty => describeStruct sc' r ty useJSONStructTags errorOnDuplicates)
        r t useJSONStructTags tfields 0 sc emptyDescription []
  | _ => (sc, Panic "reflect: NumField of non-struct type")
  end.
End Describe.

(** ** The reflect package: values *)

(** The data of a [reflect.Value].  Every value other than [VInvalid]
    determines its type ([typeOf]).  [VBasic] carries a number that is zero
    exactly for the zero value of the type (for channels, functions and
    unsafe pointers: for nil).  The entries of a map are kept as an
    association list whose order has no meaning; the keys are strings. *)
Inductive rvalue :=
| VInvalid
| VBasic (k : basic) (tname : string) (n : Z)
| VStr (tname : string) (s : string)
| VIface (tname : string) (dyn : option rvalue)
| VPtr (elem : rtype) (target : option rvalue)
| VSlice (elem : rtype) (elems : option (list rvalue))
| VArray (elem : rtype) (elems : list rvalue)
| VMap (key elem : rtype) (entries : option (list (string * rvalue)))
| VStruct (tname : string) (sfs : list (StructField rtype)) (fields : list rvalue).

Definition typeOf (d : rvalue) : option rtype :=
  match d with
  | VInvalid => None
  | VBasic k n _ => Some (TBasic k n)
  | VStr n _ => Some (TString n)
  | VIface n _ => Some (TInterface n)
  | VPtr e _ => Some (TPtr e)
  | VSlice e _ => Some (TSlice e)
  | VArray e l => Some (TArray (length l) e)
  | VMap k e _ => Some (TMap k e)
  | VStruct n sfs _ => Some (TStruct n sfs)
  end.

Definition kindOf (d : rvalue) : reflect.Kind :=
  match typeOf d with
  | Some t => Kind t
  | None => reflect.Invalid
  end.

(** [reflect.Zero(t)], the data of it. *)
Fixpoint Zero (t : rtype) : rvalue :=
  match t with
  | TBasic k n => VBasic k n 0
  | TString n => VStr n ""
  | TInterface n => VIface n None
  | TPtr e => VPtr e None
  | TSlice e => VSlice e None
  | TArray len e => VArray e (repeat (Zero e) len)
  | TMap k e => VMap k e None
  | TStruct n sfs => VStruct n sfs (map (fun sf => Zero (sfType sf)) sfs)
  end.

(** A [reflect.Value]: the data and the flags the codec depends on.
    [flagStickyRO] and [flagEmbedRO] record that the value was reached
    through an unexported field (not embedded, embedded); [flagAddr] that it
    is addressable. *)
Record Value := mkValue {
  data : rvalue;
  flagStickyRO : bool;
  flagEmbedRO : bool;
  flagAddr : bool
}.

Definition flagRO (v : Value) : bool := flagStickyRO v || flagEmbedRO v.

(** [reflect.Value{}]. *)
Definition emptyValue : Value := mkValue VInvalid false false false.

Definition IsValid (v : Value) : bool :=
  match data v with
  | VInvalid => false
  | _ => true
  end.

Definition ValueKind (v : Value) : reflect.Kind := kindOf (data v).

Definition CanSet (v : Value) : bool := flagAddr v && negb (flagRO v).

Definition CanInterface (v : Value) : result bool :=
  if IsValid v then Ok (negb (flagRO v))
  else Panic "reflect: call of reflect.Value.CanInterface on zero Value".

Definition ValueType (v : Value) : result rtype :=
  match typeOf (data v) with
  | Some t => Ok t
  | None => Panic "reflect: call of reflect.Value.Type on zero Value"
  end.

Definition IsNilData (d : rvalue) : result bool :=
  match d with
  | VBasic bChan _ n | VBasic bFunc _ n | VBasic bUnsafePointer _ n =>
      Ok (n =? 0)%Z
  | VIface _ None | VPtr _ None | VSlice _ None | VMap _ _ None => Ok true
  | VIface _ (Some _) | VPtr _ (Some _) | VSlice _ (Some _)
  | VMap _ _ (Some _) => Ok false
  | _ => Panic "reflect: call of reflect.Value.IsNil on a value that cannot be nil"
  end.

Definition IsNil (v : Value) : result bool := IsNilData (data v).

(** [v.Len()] for arrays, maps, slices and strings (the length of a
    channel is not modelled). *)
Definition Len (v : Value) : result nat :=
  match data v with
  | VStr _ s => Ok (String.length s)
  | VArray _ l => Ok (length l)
  | VSlice _ None => Ok 0
  | VSlice _ (Some l) => Ok (length l)
  | VMap _ _ None => Ok 0
  | VMap _ _ (Some m) => Ok (length m)
  | _ => Panic "reflect: call of reflect.Value.Len on a value without length"
  end.

(** [v.IsZero()]. *)
Fixpoint IsZeroData (d : rvalue) : result bool :=
  match d with
  | VInvalid => Panic "reflect: call of reflect.Value.IsZero on zero Value"
  | VBasic _ _ n => Ok (n =? 0)%Z
  | VStr _ s => Ok (Nat.eqb (String.length s) 0)
  | VIface _ None | VPtr _ None | VSlice _ None | VMap _ _ None => Ok true
  | VIface _ (Some _) | VPtr _ (Some _) | VSlice _ (Some _)
  | VMap _ _ (Some _) => Ok false
  | VArray _ l | VStruct _ _ l =>
      (fix all (l : list rvalue) : result bool :=
         match l with
         | [] => Ok true
         | x :: l' => z ← IsZeroData x; if negb z then Ok false else all l'
         end) l
  end.

Definition IsZero (v : Value) : result bool := IsZeroData (data v).

(** A struct field whose name is not exported ([PkgPath] is not empty). *)
Definition unexported (sf : StructField rtype) : bool :=
  negb (String.eqb (sfPkgPath sf) "").

(** [v.Field(i)]. *)
Definition Field (v : Value) (i : nat) : result Value :=
  match data v with
  | VStruct _ sfs fields =>
      match sfs !! i, fields !! i with
      | Some sf, Some d =>
          Ok {| data := d;
                flagStickyRO :=
                  flagStickyRO v || (unexported sf && negb (sfAnonymous sf));
                flagEmbedRO := unexported sf && sfAnonymous sf;
                flagAddr := flagAddr v |}
      | _, _ => Panic "reflect: Field index out of range"
      end
  | _ => Panic "reflect: call of reflect.Value.Field on a value that is not a struct"
  end.

(** [v.Elem()] of an interface or of a pointer; the zero [Value] if it is
    nil. *)
Definition Elem (v : Value) : result Value :=
  match data v with
  | VPtr _ (Some d) =>
      Ok {| data := d; flagStickyRO := flagStickyRO v;
            flagEmbedRO := flagEmbedRO v; flagAddr := true |}
  | VIface _ (Some d) =>
      Ok {| data := d; flagStickyRO := flagRO v; flagEmbedRO := false;
            flagAddr := false |}
  | VPtr _ None | VIface _ None => Ok emptyValue
  | _ => Panic "reflect: call of reflect.Value.Elem on a value that is neither interface nor pointer"
  end.

(** [t.Elem()] (the element type of a channel is not modelled). *)
Definition TypeElem (t : rtype) : result rtype :=
  match t with
  | TPtr e | TSlice e | TArray _ e | TMap _ e => Ok e
  | _ => Panic ("reflect: Elem of invalid type " +:+ typeString t)
  end.

(** [reflect.Indirect(reflect.New(t))]: an addressable zero value. *)
Definition newIndirect (t : rtype) : Value := mkValue (Zero t) false false true.

(** [reflect.New(t)]: a pointer to a new zero value. *)
Definition New (t : rtype) : Value := mkValue (VPtr t (Some (Zero t))) false false false.

(** [target.Set(x)] where [target] is field [i] of the struct [v]: the
    struct after the assignment. *)
Definition SetField (v : Value) (i : nat) (x : Value) : result Value :=
  target ← Field v i;
  if negb (flagAddr target) then
    Panic "reflect: reflect.Value.Set using unaddressable value"
  else if flagRO target then
    Panic "reflect: reflect.Value.Set using value obtained using unexported field"
  else
    match typeOf (data x), typeOf (data target) with
    | Some tx, Some ttgt =>
        if flagRO x then
          Panic "reflect: reflect.Value.Set using value obtained using unexported field"
        else if negb (rtype_eqb tx ttgt)
                && negb (reflect.Kind_eqb (Kind ttgt) reflect.Interface) then
          Panic "reflect.Set: value is not assignable to the type of the field"
        else
          match data v with
          | VStruct n sfs fields =>
              Ok {| data := VStruct n sfs
                              (<[i := if reflect.Kind_eqb (Kind ttgt) reflect.Interface
                                      then match ttgt with
                                           | TInterface nm => VIface nm (Some (data x))
                                           | _ => data x
                                           end
                                      else data x]> fields);
                    flagStickyRO := flagStickyRO v;
                    flagEmbedRO := flagEmbedRO v; flagAddr := flagAddr v |}
          | _ => Panic "reflect: call of reflect.Value.Field on a value that is not a struct"
          end
    | _, _ => Panic "reflect: call of reflect.Value.Set on zero Value"
    end.

(** ** The emptiness test *)

(** [time.Time]: a struct of three unexported fields. *)
Definition tTime : rtype :=
  TStruct "time.Time"
    [ mkStructField "wall" "time" false (TBasic bUint64 "uint64") "";
      mkStructField "ext" "time" false (TBasic bInt64 "int64") "";
      mkStructField "loc" "time" false (TPtr (TStruct "time.Location" [])) "" ].

Section Emptiness.
(** Whether a type implements [Zeroer], what [IsZero] of such a value
    answers, and what [time.Time.IsZero] answers. *)
Variable implementsZeroer : rtype -> bool.
Variable zeroerIsZero : rvalue -> bool.
Variable timeIsZero : rvalue -> bool.

Definition interfacePanic : string :=
  "reflect.Value.Interface: cannot return value obtained from unexported field or method".

(** The panic of the type assertion [v.Interface().(Zeroer)] on a nil
    interface. *)
Definition nilZeroerPanic : string :=
  "interface conversion: interface is nil, not bson.Zeroer".

(** [isEmpty] on the data of [v], the two read-only flags of [v] given
    apart.  In the loop over the fields of a struct, [v.Field(i)] has
    [flagEmbedRO] exactly when the field is unexported and embedded; the
    unexported fields that are not embedded are skipped. *)
Fixpoint isEmptyData (d : rvalue) (stickyRO embedRO omitZeroStruct : bool)
  {struct d} : result bool :=
  match typeOf d with
  | None => Panic "reflect: call of reflect.Value.Type on zero Value"
  | Some vt =>
      let nilPtr := match d with VPtr _ None => true | _ => false end in
      if negb nilPtr && implementsZeroer vt then
        if stickyRO || embedRO then Panic interfacePanic
        else
          match d with
          | VIface _ None => Panic nilZeroerPanic
          | _ => Ok (zeroerIsZero d)
          end
      else
        match d with
        | VArray _ l => Ok (Nat.eqb (length l) 0)
        | VMap _ _ None | VSlice _ None => Ok true
        | VMap _ _ (Some m) => Ok (Nat.eqb (length m) 0)
        | VSlice _ (Some l) => Ok (Nat.eqb (length l) 0)
        | VStr _ s => Ok (Nat.eqb (String.length s) 0)
        | VStruct _ sfs fields =>
            if negb omitZeroStruct then Ok false
            else if rtype_eqb vt tTime then
              if stickyRO || embedRO then Panic interfacePanic
              else Ok (timeIsZero d)
            else
              (fix fieldsEmpty (sfs : list (StructField rtype))
                   (fields : list rvalue) {struct fields} : result bool :=
                 match sfs, fields with
                 | [], _ => Ok true
                 | _ :: _, [] => Panic "reflect: Field index out of range"
                 | ff :: sfs', f :: fields' =>
                     if unexported ff && negb (sfAnonymous ff)
                     then fieldsEmpty sfs' fields'
                     else
                       e ← isEmptyData f stickyRO
                             (unexported ff && sfAnonymous ff) omitZeroStruct;
                       if negb e then Ok false else fieldsEmpty sfs' fields'
                 end) sfs fields
        | _ => IsZeroData d
        end
  end.

Definition isEmpty (v : Value) (omitZeroStruct : bool) : result bool :=
  isEmptyData (data v) (flagStickyRO v) (flagEmbedRO v) omitZeroStruct.
End Emptiness.

(** ** The recursive zero builder *)

(** [recursivePointerTo], on the data of [v]: the data of the pointer it
    returns.  [Set] on field [i] of the new struct panics when that field is
    unexported. *)
Fixpoint recursivePointerTo (d : rvalue) {struct d} : result rvalue :=
  let fill :=
    fix fill (sfs : list (StructField rtype)) (fs : list rvalue)
        (acc : list rvalue) (i : nat) {struct fs} : result (list rvalue) :=
      match fs with
      | [] => Ok acc
      | f :: fs' =>
          match f with
          | VPtr _ (Some (VStruct _ _ _)) =>
              p ← recursivePointerTo f;
              match sfs !! i with
              | Some sf =>
                  if unexported sf then
                    Panic "reflect: reflect.Value.Set using value obtained using unexported field"
                  else fill sfs fs' (<[i := p]> acc) (S i)
              | None => Panic "reflect: Field index out of range"
              end
          | _ => fill sfs fs' acc (S i)
          end
      end in
  match d with
  | VInvalid | VPtr _ None =>
      Panic "reflect: call of reflect.Value.Type on zero Value"
  | VStruct n sfs fields | VPtr _ (Some (VStruct n sfs fields)) =>
      filled ← fill sfs fields (map (fun sf => Zero (sfType sf)) sfs) 0;
      Ok (VPtr (TStruct n sfs) (Some (VStruct n sfs filled)))
  | VPtr _ (Some v) =>
      match typeOf v with
      | Some vt => Ok (VPtr vt (Some (Zero vt)))
      | None => Panic "reflect: call of reflect.Value.Type on zero Value"
      end
  | v =>
      match typeOf v with
      | Some vt => Ok (VPtr vt (Some (Zero vt)))
      | None => Panic "reflect: call of reflect.Value.Type on zero Value"
      end
  end.

(** [deepZero].  [f.Type()] is the declared type of field [i];
    [f.Type().Elem()] exists for pointer, slice, array and map types and
    panics for the others. *)
Fixpoint deepZero (st : rtype) {struct st} : result Value :=
  match st with
  | TStruct _ sfs =>
      (fix fieldsLoop (rest : list (StructField rtype)) (i : nat)
           (result0 : Value) {struct rest} : result Value :=
         match rest with
         | [] => Ok result0
         | sf :: rest' =>
             let result1 :=
               if negb (IsValid result0) then newIndirect st else result0 in
             f ← Field result1 i;
             ci ← CanInterface f;
             if ci && reflect.Kind_eqb (Kind (sfType sf)) reflect.Struct then
               _ ← Field result1 i;
               match sfType sf with
               | TPtr e | TSlice e | TArray _ e | TMap _ e =>
                   dz ← deepZero e;
                   p ← recursivePointerTo (data dz);
                   result2 ← SetField result1 i (mkValue p false false false);
                   fieldsLoop rest' (S i) result2
               | other =>
                   Panic ("reflect: Elem of invalid type " +:+ typeString other)
               end
             else fieldsLoop rest' (S i) result1
         end) sfs 0 emptyValue
  | _ => Ok emptyValue
  end.

(** Induction on values, with the hypothesis for the values nested in
    interfaces, pointers, arrays and structs. *)
Section ValueInduction.
Variable P : rvalue -> Prop.
Hypothesis HInvalid : P VInvalid.
Hypothesis HBasic : forall k n z, P (VBasic k n z).
Hypothesis HStr : forall n s, P (VStr n s).
Hypothesis HIface : forall n dyn,
  match dyn with Some x => P x | None => True end -> P (VIface n dyn).
Hypothesis HPtr : forall e target,
  match target with Some x => P x | None => True end -> P (VPtr e target).
Hypothesis HSlice : forall e elems, P (VSlice e elems).
Hypothesis HArray : forall e elems, Forall P elems -> P (VArray e elems).
Hypothesis HMap : forall k e entries, P (VMap k e entries).
Hypothesis HStruct : forall n sfs fields, Forall P fields -> P (VStruct n sfs fields).

Fixpoint rvalue_nested_ind (d : rvalue) : P d :=
  let all :=
    fix all (l : list rvalue) : Forall P l :=
      match l with
      | [] => @List.Forall_nil rvalue P
      | x :: l' => @List.Forall_cons rvalue P x l' (rvalue_nested_ind x) (all l')
      end in
  match d with
  | VInvalid => HInvalid
  | VBasic k n z => HBasic k n z
  | VStr n s => HStr n s
  | VIface n dyn =>
      HIface n dyn
        match dyn with Some x => rvalue_nested_ind x | None => I end
  | VPtr e target =>
      HPtr e target
        match target with Some x => rvalue_nested_ind x | None => I end
  | VSlice e elems => HSlice e elems
  | VArray e elems => HArray e elems (all elems)
  | VMap k e entries => HMap k e entries
  | VStruct n sfs fields => HStruct n sfs fields (all fields)
  end.
End ValueInduction.

(** ** Inline paths *)

Definition withData (v : Value) (d : rvalue) : Value :=
  {| data := d; flagStickyRO := flagStickyRO v; flagEmbedRO := flagEmbedRO v;
     flagAddr := flagAddr v |}.

(** The loop of [v.FieldByIndex(index)]: before every step but the first, a
    pointer to a struct is followed, and a nil one panics. *)
Fixpoint fieldByIndexFrom (v : Value) (index : list nat) (first : bool)
  : result Value :=
  match index with
  | [] => Ok v
  | x :: rest =>
      v1 ← match data v with
           | VPtr (TStruct _ _) target =>
               if first then Ok v
               else
                 match target with
                 | None =>
                     Panic "reflect: indirection through nil pointer to embedded struct"
                 | Some _ => Elem v
                 end
           | _ => Ok v
           end;
      v2 ← Field v1 x;
      fieldByIndexFrom v2 rest false
  end.

Definition FieldByIndex (v : Value) (index : list nat) : result Value :=
  match index with
  | [x] => Field v x
  | _ =>
      if reflect.Kind_eqb (ValueKind v) reflect.Struct
      then fieldByIndexFrom v index true
      else Panic "reflect: call of reflect.Value.FieldByIndex on a value that is not a struct"
  end.

(** [fieldByIndexErr]: the panic of [FieldByIndex] is recovered into an
    error. *)
Definition fieldByIndexErr (v : Value) (index : list nat) : result Value :=
  match FieldByIndex v index with
  | Panic m => Err (errorString m)
  | r => r
  end.

(** The data of a struct after the value at the end of the path [index] has
    been replaced by [new]; the path is followed as [FieldByIndex] does. *)
Fixpoint setByIndex (d : rvalue) (index : list nat) (first : bool)
  (new : rvalue) : rvalue :=
  match index with
  | [] => new
  | x :: rest =>
      let inStruct (s : rvalue) : rvalue :=
        match s with
        | VStruct n sfs fields =>
            match fields !! x with
            | Some fx => VStruct n sfs (<[x := setByIndex fx rest false new]> fields)
            | None => s
            end
        | _ => s
        end in
      match d with
      | VPtr (TStruct n sfs) (Some target) =>
          if first then inStruct d
          else VPtr (TStruct n sfs) (Some (inStruct target))
      | _ => inStruct d
      end
  end.

(** [getInlineField], by recursion on the reversed path: the parent of the
    path [rev (x :: rparent)] is [rev rparent].  It returns the destination,
    in which nil parents may have been allocated, and the field or the
    error. *)
Fixpoint getInlineFieldRev (val : Value) (rindex : list nat) {struct rindex}
  : Value * result Value :=
  match fieldByIndexErr val (rev rindex) with
  | Ok field => (val, Ok field)
  | Panic m => (val, Panic m)
  | Err _ =>
      match rindex with
      | [] => (val, Panic "runtime error: slice bounds out of range [:-1]")
      | _ :: rparent =>
          let inlineParent := rev rparent in
          let '(val1, parent) :=
            match fieldByIndexErr val inlineParent with
            | Err _ => getInlineFieldRev val rparent
            | r => (val, r)
            end in
          match parent with
          | Err e => (val1, Err e)
          | Panic m => (val1, Panic m)
          | Ok fParent =>
              match pt ← ValueType fParent; TypeElem pt with
              | Ok et =>
                  if negb (flagAddr fParent) then
                    (val1, Panic "reflect: reflect.Value.Set using unaddressable value")
                  else if flagRO fParent then
                    (val1, Panic "reflect: reflect.Value.Set using value obtained using unexported field")
                  else
                    let val2 :=
                      withData val1
                        (setByIndex (data val1) inlineParent true (data (New et))) in
                    (val2, fieldByIndexErr val2 (rev rindex))
              | Err e => (val1, Err e)
              | Panic m => (val1, Panic m)
              end
          end
      end
  end.

Definition getInlineField (val : Value) (index : list nat) : Value * result Value :=
  getInlineFieldRev val (rev index).

(** ** Documents, readers and writers *)

(** The type tag a value reader reports; [Type0] is [Type(0)], the tag of a
    reader positioned at the top level. *)
Inductive bsonType :=
| Type0 | TypeDouble | TypeString | TypeEmbeddedDocument | TypeArray
| TypeBoolean | TypeNull | TypeUndefined | TypeInt32 | TypeInt64.

(** The values of a document. *)
Inductive bvalue :=
| BDouble (bits : Z)
| BString (s : string)
| BDocument (elems : list (string * bvalue))
| BArray (elems : list bvalue)
| BBoolean (b : bool)
| BNull
| BUndefined
| BInt32 (n : Z)
| BInt64 (n : Z).

(** Modelled from the spec: the [ValueReader] and [DocumentReader]
    interfaces are declared outside the file.  Section 6 describes the
    document source as reporting the coarse type tag of the current value,
    yielding the next (name, value) pair or the end of the document, and
    skipping a value; the reader is a position in a well-formed document
    tree, either at the top level of a document or at one value. *)
Inductive ValueReader :=
| TopLevelReader (elems : list (string * bvalue))
| ElementReader (v : bvalue).

(** Modelled from the spec: [vr.Type()], the coarse type tag of the current
    value. *)
Definition vrType (vr : ValueReader) : bsonType :=
  match vr with
  | TopLevelReader _ => Type0
  | ElementReader v =>
      match v with
      | BDouble _ => TypeDouble
      | BString _ => TypeString
      | BDocument _ => TypeEmbeddedDocument
      | BArray _ => TypeArray
      | BBoolean _ => TypeBoolean
      | BNull => TypeNull
      | BUndefined => TypeUndefined
      | BInt32 _ => TypeInt32
      | BInt64 _ => TypeInt64
      end
  end.

Definition bsonTypeString (ty : bsonType) : string :=
  match ty with
  | Type0 => "invalid" | TypeDouble => "double" | TypeString => "string"
  | TypeEmbeddedDocument => "embedded document" | TypeArray => "array"
  | TypeBoolean => "boolean" | TypeNull => "null"
  | TypeUndefined => "undefined" | TypeInt32 => "32-bit integer"
  | TypeInt64 => "64-bit integer"
  end.

(** Modelled from the spec: [vr.ReadNull()] and [vr.ReadUndefined()]
    consume a value of that type; such a value has no content that could
    fail to be read. *)
Definition ReadNull (vr : ValueReader) : result unit :=
  match vr with
  | ElementReader BNull => Ok tt
  | _ => Err (errorString "positioned on a value that is not null")
  end.

Definition ReadUndefined (vr : ValueReader) : result unit :=
  match vr with
  | ElementReader BUndefined => Ok tt
  | _ => Err (errorString "positioned on a value that is not undefined")
  end.

(** Modelled from the spec: [vr.ReadDocument()], as the elements that
    [dr.ReadElement()] then yields one by one, before [ErrEOD]. *)
Definition ReadDocument (vr : ValueReader) : result (list (string * bvalue)) :=
  match vr with
  | TopLevelReader elems => Ok elems
  | ElementReader (BDocument elems) => Ok elems
  | _ => Err (errorString "positioned on a value that is not a document")
  end.

(** Modelled from the spec: [vr.Skip()] passes over the current value
    without decoding it. *)
Definition Skip_ (vr : ValueReader) : result unit := Ok tt.

Record EncodeContext := mkEncodeContext {
  ec_Registry : Registry;
  ec_minSize : bool;
  ec_errorOnInlineDuplicates : bool;
  ec_stringifyMapKeysWithFmt : bool;
  ec_nilMapAsEmpty : bool;
  ec_nilSliceAsEmpty : bool;
  ec_nilByteSliceAsEmpty : bool;
  ec_omitZeroStruct : bool;
  ec_omitEmpty : bool;
  ec_useJSONStructTags : bool
}.

Record DecodeContext := mkDecodeContext {
  dc_Registry : Registry;
  dc_truncate : bool;
  dc_defaultDocumentType : option rtype;
  dc_binaryAsSlice : bool;
  dc_objectIDAsHexString : bool;
  dc_useJSONStructTags : bool;
  dc_useLocalTimeZone : bool;
  dc_zeroMaps : bool;
  dc_zeroStructs : bool
}.

(** The lower-case form of an ASCII letter. *)
Definition lowerAscii (c : Ascii.ascii) : Ascii.ascii :=
  let n := Ascii.nat_of_ascii c in
  if Nat.leb 65 n && Nat.leb n 90 then Ascii.ascii_of_nat (n + 32) else c.

(** Modelled from the spec: the lower-cased form of a name (sections 3 and
    4.3), for the names of the examples, which are made of ASCII characters;
    on such a string it is what [strings.ToLower] returns.  The traversals
    take the lower-casing function as a parameter. *)
Fixpoint asciiToLower (s : string) : string :=
  match s with
  | EmptyString => EmptyString
  | String.String c s' => String.String (lowerAscii c) (asciiToLower s')
  end.

(** [m.SetMapIndex(key, elem)] on the entries of a map. *)
Fixpoint setMapIndex (entries : list (string * rvalue)) (key : string)
  (elem : rvalue) : list (string * rvalue) :=
  match entries with
  | [] => [(key, elem)]
  | (k, v) :: rest =>
      if String.eqb k key then (k, elem) :: rest
      else (k, v) :: setMapIndex rest key elem
  end.

(** Every descriptor published in [c] is published, unchanged, in [c']. *)
Definition cacheExtends (c c' : list (rtype * structDescription)) : Prop :=
  forall t sd, cacheLoad c t = Some sd -> cacheLoad c' t = Some sd.

(** ** The encode traversal *)

Section Encode.
Variable parseStructTags parseJSONStructTags : StructField rtype -> result structTags.
Variable implementsZeroer : rtype -> bool.
Variable zeroerIsZero : rvalue -> bool.
Variable timeIsZero : rvalue -> bool.

(** [lookupElementEncoder] is defined outside the file: given the context,
    the encoder of the descriptor and the field value, it returns an
    encoder, a value and an error. *)
Variable lookupElementEncoder :
  EncodeContext -> option ValueEncoder -> Value
  -> option ValueEncoder * Value * option error.

(** [encoder.EncodeValue(ectx, vw2, rv)] for the encoder behind a handle:
    the value it writes at the position of [vw2], or its error.  The
    encoder of a nested struct is this codec again, so the codec is passed
    along. *)
Variable runEncoder :
  ValueEncoder -> structCodec -> EncodeContext -> Value
  -> structCodec * result bvalue.

(** [encodeMapElements] of the inline map encoder behind a handle: the
    elements it appends to the document, or its error. *)
Variable encodeMapElements :
  nat -> EncodeContext -> Value -> (string -> bool)
  -> result (list (string * bvalue)).

(** The context handed to the encoder of a field. *)
Definition fieldEncodeContext (ec : EncodeContext) (desc : fieldDescription)
  : EncodeContext :=
  {| ec_Registry := ec_Registry ec;
     ec_minSize := minSize desc || ec_minSize ec;
     ec_errorOnInlineDuplicates := ec_errorOnInlineDuplicates ec;
     ec_stringifyMapKeysWithFmt := ec_stringifyMapKeysWithFmt ec;
     ec_nilMapAsEmpty := ec_nilMapAsEmpty ec;
     ec_nilSliceAsEmpty := ec_nilSliceAsEmpty ec;
     ec_nilByteSliceAsEmpty := ec_nilByteSliceAsEmpty ec;
     ec_omitZeroStruct := ec_omitZeroStruct ec;
     ec_omitEmpty := false;
     ec_useJSONStructTags := ec_useJSONStructTags ec |}.

(** What one iteration of the loop over [sd.fl] does to the document. *)
Inductive fieldOutcome :=
| Skipped
| Written (v : bvalue)
| Failed (e : error)
| Panicked (m : string).

(** The emptiness computed for a field (lines 152 to 159). *)
Definition fieldEmpty (sc : structCodec) (ec : EncodeContext) (rv : Value)
  : result bool :=
  if reflect.Kind_eqb (ValueKind rv) reflect.Interface then IsNil rv
  else isEmpty implementsZeroer zeroerIsZero timeIsZero rv
         (encodeOmitDefaultStruct sc || ec_omitZeroStruct ec).

(** The value of the field a description stands for (lines 112 to 119):
    an error is the nil ancestor of an inlined field. *)
Definition encodeFieldValue (val : Value) (desc : fieldDescription)
  : result Value :=
  match inline desc with
  | [] => Field val (idx desc)
  | _ :: _ => fieldByIndexErr val (inline desc)
  end.

(** The body of the loop over [sd.fl], for one field description. *)
Definition encodeField (sc : structCodec) (ec : EncodeContext) (val : Value)
  (desc : fieldDescription) : structCodec * fieldOutcome :=
  match encodeFieldValue val desc with
  | Err _ => (sc, Skipped)
  | Panic m => (sc, Panicked m)
  | Ok rv =>
      let omit := if ec_omitEmpty ec then true else omitEmpty desc in
      let '(enc, rv, err) := lookupElementEncoder ec (encoder desc) rv in
      match err with
      | Some e =>
          if negb (isErrInvalidValue e) then (sc, Failed e)
          else if omit then (sc, Skipped)
          else (sc, Written BNull)
      | None =>
          match enc with
          | None =>
              match ValueType rv with
              | Ok t => (sc, Failed (errNoEncoder t))
              | Err e => (sc, Failed e)
              | Panic m => (sc, Panicked m)
              end
          | Some encoder =>
              match fieldEmpty sc ec rv with
              | Panic m => (sc, Panicked m)
              | Err e => (sc, Failed e)
              | Ok empty =>
                  if omit && empty then (sc, Skipped)
                  else
                    match runEncoder encoder sc (fieldEncodeContext ec desc) rv with
                    | (sc', Ok v) => (sc', Written v)
                    | (sc', Err e) => (sc', Failed e)
                    | (sc', Panic m) => (sc', Panicked m)
                    end
              end
          end
      end
  end.

(** The loop over [sd.fl].  Modelled from the spec: the document writer is
    declared outside the file; by section 6 it opens a named element, takes
    one value for it and closes the document.  [dw] is the list of the
    elements written so far. *)
Fixpoint encodeFields (sc : structCodec) (ec : EncodeContext) (val : Value)
  (descs : list fieldDescription) (dw : list (string * bvalue))
  : structCodec * result (list (string * bvalue)) :=
  match descs with
  | [] => (sc, Ok dw)
  | desc :: rest =>
      match encodeField sc ec val desc with
      | (sc', Skipped) => encodeFields sc' ec val rest dw
      | (sc', Written v) => encodeFields sc' ec val rest (dw ++ [(name desc, v)])
      | (sc', Failed e) => (sc', Err e)
      | (sc', Panicked m) => (sc', Panic m)
      end
  end.

Definition EncodeValue (sc : structCodec) (ec : EncodeContext) (val : Value)
  : structCodec * result bvalue :=
  if negb (IsValid val) || negb (reflect.Kind_eqb (ValueKind val) reflect.Struct)
  then (sc, Err (ValueEncoderError "StructCodec.EncodeValue"))
  else
    match ValueType val with
    | Err e => (sc, Err e)
    | Panic m => (sc, Panic m)
    | Ok t =>
        match describeStruct parseStructTags parseJSONStructTags sc
                (ec_Registry ec) t (ec_useJSONStructTags ec)
                (ec_errorOnInlineDuplicates ec) with
        | (sc1, Err e) => (sc1, Err e)
        | (sc1, Panic m) => (sc1, Panic m)
        | (sc1, Ok sd) =>
            match encodeFields sc1 ec val (fl sd) [] with
            | (sc2, Err e) => (sc2, Err e)
            | (sc2, Panic m) => (sc2, Panic m)
            | (sc2, Ok dw) =>
                if (0 <=? inlineMap sd)%Z then
                  (sc2,
                   rv ← Field val (Z.to_nat (inlineMap sd));
                   more ← encodeMapElements (inlineMapEncoder sc2) ec rv
                            (fun key => bool_decide (is_Some (fm sd !! key)));
                   Ok (BDocument (dw ++ more)))
                else (sc2, Ok (BDocument dw))
            end
        end
    end.
End Encode.

(** A field description with its [omitEmpty] replaced. *)
Definition withOmitEmpty (fd : fieldDescription) (b : bool) : fieldDescription :=
  {| name := name fd; fieldName := fieldName fd; idx := idx fd;
     omitEmpty := b; minSize := minSize fd; truncate := truncate fd;
     inline := inline fd; encoder := encoder fd; decoder := decoder fd |}.

(** Modelled from the spec: [lookupElementEncoder] is a function of the
    package that is not part of the file.  Section 4.2, step 2: if the
    static type of the field is an interface that holds a concrete value,
    the encoder is resolved again for the type of that value; if it holds no
    value, the field has no concrete value. *)
Definition specLookupElementEncoder (ec : EncodeContext)
  (origEncoder : option ValueEncoder) (currVal : Value)
  : option ValueEncoder * Value * option error :=
  match data currVal with
  | VIface _ None => (None, emptyValue, Some errInvalidValue)
  | VIface _ (Some d) =>
      let concrete := mkValue d (flagRO currVal) false false in
      match typeOf d with
      | None => (None, emptyValue, Some errInvalidValue)
      | Some t =>
          match LookupEncoder (ec_Registry ec) t with
          | Ok enc => (Some enc, concrete, None)
          | Err e => (None, concrete, Some e)
          | Panic m => (None, concrete, Some (errorString m))
          end
      end
  | _ => (origEncoder, currVal, None)
  end.

(** ** The decode traversal *)

Section Decode.
Variable parseStructTags parseJSONStructTags : StructField rtype -> result structTags.

(** [decoder.DecodeValue(dc, vr, val)] for the decoder behind a handle: the
    data of the destination afterwards and the outcome.  The decoder of a
    nested struct is this codec again, so the codec is passed along. *)
Variable runDecoder :
  ValueDecoder -> structCodec -> DecodeContext -> ValueReader -> Value
  -> structCodec * rvalue * result unit.

(** [strings.ToLower], of the standard library of Go: it is defined
    outside the file and maps every Unicode letter to its lower case. *)
Variable ToLower : string -> string.

(** The context handed to the decoder of a field. *)
Definition fieldDecodeContext (dc : DecodeContext) (fd : fieldDescription)
  : DecodeContext :=
  {| dc_Registry := dc_Registry dc;
     dc_truncate := truncate fd || dc_truncate dc;
     dc_defaultDocumentType := dc_defaultDocumentType dc;
     dc_binaryAsSlice := dc_binaryAsSlice dc;
     dc_objectIDAsHexString := dc_objectIDAsHexString dc;
     dc_useJSONStructTags := dc_useJSONStructTags dc;
     dc_useLocalTimeZone := dc_useLocalTimeZone dc;
     dc_zeroMaps := dc_zeroMaps dc;
     dc_zeroStructs := dc_zeroStructs dc |}.

(** The state of the loop over the elements: the codec, the destination,
    and the variable [decoder] declared before the loop. *)
Record decodeState := mkDecodeState {
  ds_sc : structCodec;
  ds_val : Value;
  ds_decoder : option ValueDecoder
}.

(** What one iteration of the loop does: go on with a new state, return an
    error, or panic. *)
Inductive elementOutcome :=
| Continue (st : decodeState)
| ReturnErr (st : decodeState) (e : error)
| ReturnPanic (st : decodeState) (m : string).

(** The state an iteration of the decode loop leaves. *)
Definition outcomeState (o : elementOutcome) : decodeState :=
  match o with
  | Continue st | ReturnErr st _ | ReturnPanic st _ => st
  end.

(** The lookup of an element name in [sd.fm]: the exact name, then the
    name in lower case. *)
Definition lookupField (sd : structDescription) (nm : string)
  : option fieldDescription :=
  match fm sd !! nm with
  | Some fd => Some fd
  | None => fm sd !! ToLower nm
  end.

(** The path of a field from the destination. *)
Definition fieldPath (fd : fieldDescription) : list nat :=
  match inline fd with
  | [] => [idx fd]
  | _ :: _ => inline fd
  end.

(** An element whose name matches no field (lines 287 to 309). *)
Definition decodeUnmatched (dc : DecodeContext) (sd : structDescription)
  (st : decodeState) (nm : string) (vr : ValueReader) : elementOutcome :=
  if (inlineMap sd <? 0)%Z then
    match Skip_ vr with
    | Ok _ => Continue st
    | Err e => ReturnErr st e
    | Panic m => ReturnPanic st m
    end
  else
    let i := Z.to_nat (inlineMap sd) in
    match im ← Field (ds_val st) i;
          isnil ← IsNil im;
          mt ← ValueType im;
          et ← TypeElem mt;
          Ok (im, isnil, mt, et) with
    | Err e => ReturnErr st e
    | Panic m => ReturnPanic st m
    | Ok (im, isnil, mt, et) =>
        if isnil && negb (CanSet im) then
          ReturnPanic st "reflect: reflect.Value.Set using a value that cannot be set"
        else
          let entries :=
            match data im with
            | VMap _ _ (Some m) => m
            | _ => []
            end in
          let made (m : list (string * rvalue)) : Value :=
            withData (ds_val st)
              (setByIndex (data (ds_val st)) [i] true
                 (match mt with
                  | TMap k e => VMap k e (Some m)
                  | _ => data im
                  end)) in
          let st1 := mkDecodeState (ds_sc st) (made entries) (ds_decoder st) in
          match ds_decoder st with
          | None =>
              ReturnPanic st1 "runtime error: invalid memory address or nil pointer dereference"
          | Some decoder =>
              let '(sc', elem, r) :=
                runDecoder decoder (ds_sc st) dc vr (newIndirect et) in
              match r with
              | Err e => ReturnErr (mkDecodeState sc' (made entries) (ds_decoder st)) e
              | Panic m => ReturnPanic (mkDecodeState sc' (made entries) (ds_decoder st)) m
              | Ok _ =>
                  if flagRO im then
                    ReturnPanic (mkDecodeState sc' (made entries) (ds_decoder st))
                      "reflect: reflect.Value.SetMapIndex using value obtained using unexported field"
                  else
                    Continue (mkDecodeState sc'
                                (made (setMapIndex entries nm elem))
                                (ds_decoder st))
              end
          end
    end.

(** An element matched to the field description [fd] (lines 311 to 362). *)
Definition decodeMatched (dc : DecodeContext) (st : decodeState)
  (fd : fieldDescription) (vr : ValueReader) : elementOutcome :=
  let '(val, rfield) :=
    match inline fd with
    | [] => (ds_val st, Field (ds_val st) (idx fd))
    | _ :: _ => getInlineField (ds_val st) (inline fd)
    end in
  let st0 := mkDecodeState (ds_sc st) val (ds_decoder st) in
  let store (sc : structCodec) (dec : option ValueDecoder) (d : rvalue)
    : decodeState :=
    mkDecodeState sc
      (withData val (setByIndex (data val) (fieldPath fd) true d)) dec in
  match rfield with
  | Err e => ReturnErr st0 e
  | Panic m => ReturnPanic st0 m
  | Ok field =>
      match data field with
      | VIface iname (Some (VPtr pelem ptarget)) =>
          let v :=
            match ptarget with
            | Some d => mkValue d (flagRO field) false true
            | None => emptyValue
            end in
          match vt ← ValueType v; Ok vt with
          | Panic m => ReturnPanic st0 m
          | Err e => ReturnErr st0 e
          | Ok vt =>
              match LookupDecoder (dc_Registry dc) vt with
              | Panic m => ReturnPanic st0 m
              | Err e => ReturnErr st0 e
              | Ok decoder =>
                  let '(sc', d', r) := runDecoder decoder (ds_sc st) dc vr v in
                  let st1 :=
                    store sc' (Some decoder)
                      (VIface iname (Some (VPtr pelem (Some d')))) in
                  match r with
                  | Err e => ReturnErr st1 (newDecodeError (name fd) e)
                  | Panic m => ReturnPanic st1 m
                  | Ok _ => Continue st1
                  end
              end
          end
      | _ =>
          if negb (CanSet field) then
            ReturnErr st0
              (newDecodeError (name fd) (errorString "field is not settable"))
          else
            let field1 :=
              match data field with
              | VPtr e None => withData field (VPtr e (Some (Zero e)))
              | _ => field
              end in
            let st1 := store (ds_sc st) (ds_decoder st) (data field1) in
            match decoder fd with
            | None =>
                match ValueType field1 with
                | Ok ft => ReturnErr st1 (newDecodeError (name fd) (errNoDecoder ft))
                | Err e => ReturnErr st1 e
                | Panic m => ReturnPanic st1 m
                end
            | Some fdecoder =>
                let '(sc', d', r) :=
                  runDecoder fdecoder (ds_sc st) (fieldDecodeContext dc fd)
                    vr field1 in
                let st2 := store sc' (ds_decoder st) d' in
                match r with
                | Err e => ReturnErr st2 (newDecodeError (name fd) e)
                | Panic m => ReturnPanic st2 m
                | Ok _ => Continue st2
                end
            end
      end
  end.

(** The loop over the elements of the document, until [ErrEOD]. *)
Fixpoint decodeElements (dc : DecodeContext) (sd : structDescription)
  (elems : list (string * bvalue)) (st : decodeState)
  : decodeState * result unit :=
  match elems with
  | [] => (st, Ok tt)
  | (nm, v) :: rest =>
      let vr := ElementReader v in
      match (match lookupField sd nm with
             | None => decodeUnmatched dc sd st nm vr
             | Some fd => decodeMatched dc st fd vr
             end) with
      | Continue st' => decodeElements dc sd rest st'
      | ReturnErr st' e => (st', Err e)
      | ReturnPanic st' m => (st', Panic m)
      end
  end.

Definition cannotDecodeError (ty : bsonType) (t : rtype) : error :=
  errorString ("cannot decode " +:+ bsonTypeString ty +:+ " into a "
               +:+ typeString t).

(** Where [DecodeValue] stands when it reaches the loop, or what it has
    returned before. *)
Inductive prologueOutcome :=
| Proceed (sd : structDescription) (st : decodeState)
    (elems : list (string * bvalue))
| Done (sc : structCodec) (d : rvalue) (r : result unit).

(** [DecodeValue] up to the loop over the elements (lines 219 to 268). *)
Definition decodePrologue (sc : structCodec) (dc : DecodeContext)
  (vr : ValueReader) (val : Value) : prologueOutcome :=
  if negb (CanSet val) || negb (reflect.Kind_eqb (ValueKind val) reflect.Struct)
  then Done sc (data val) (Err (ValueDecoderError "StructCodec.DecodeValue"))
  else
    match ValueType val with
    | Err e => Done sc (data val) (Err e)
    | Panic m => Done sc (data val) (Panic m)
    | Ok t =>
        let decodeDocument :=
          match describeStruct parseStructTags parseJSONStructTags sc
                  (dc_Registry dc) t (dc_useJSONStructTags dc) false with
          | (sc1, Err e) => Done sc1 (data val) (Err e)
          | (sc1, Panic m) => Done sc1 (data val) (Panic m)
          | (sc1, Ok sd) =>
              let val1 :=
                if decodeZeroStruct sc1 || dc_zeroStructs dc
                then withData val (Zero t) else val in
              match (if decodeDeepZeroInline sc1 && inlineFlag sd then
                       dz ← deepZero t;
                       if negb (IsValid dz) then
                         Panic "reflect: call of reflect.Value.Set on zero Value"
                       else Ok (withData val1 (data dz))
                     else Ok val1) with
              | Err e => Done sc1 (data val1) (Err e)
              | Panic m => Done sc1 (data val1) (Panic m)
              | Ok val2 =>
                  match (if (0 <=? inlineMap sd)%Z then
                           im ← Field val2 (Z.to_nat (inlineMap sd));
                           mt ← ValueType im;
                           et ← TypeElem mt;
                           decoder ← LookupDecoder (dc_Registry dc) et;
                           Ok (Some decoder)
                         else Ok None) with
                  | Err e => Done sc1 (data val2) (Err e)
                  | Panic m => Done sc1 (data val2) (Panic m)
                  | Ok decoder =>
                      match ReadDocument vr with
                      | Err e => Done sc1 (data val2) (Err e)
                      | Panic m => Done sc1 (data val2) (Panic m)
                      | Ok elems =>
                          Proceed sd (mkDecodeState sc1 val2 decoder) elems
                      end
                  end
              end
          end in
        match vrType vr with
        | Type0 | TypeEmbeddedDocument => decodeDocument
        | TypeNull =>
            match ReadNull vr with
            | Ok _ => Done sc (Zero t) (Ok tt)
            | Err e => Done sc (data val) (Err e)
            | Panic m => Done sc (data val) (Panic m)
            end
        | TypeUndefined =>
            match ReadUndefined vr with
            | Ok _ => Done sc (Zero t) (Ok tt)
            | Err e => Done sc (data val) (Err e)
            | Panic m => Done sc (data val) (Panic m)
            end
        | ty => Done sc (data val) (Err (cannotDecodeError ty t))
        end
    end.

(** [DecodeValue]: the codec and the data of the destination afterwards,
    and the outcome. *)
Definition DecodeValue (sc : structCodec) (dc : DecodeContext)
  (vr : ValueReader) (val : Value) : structCodec * rvalue * result unit :=
  match decodePrologue sc dc vr val with
  | Done sc' d r => (sc', d, r)
  | Proceed sd st elems =>
      let '(st', r) := decodeElements dc sd elems st in
      (ds_sc st', data (ds_val st'), r)
  end.
End Decode.

(** ** A concrete instance: tag parser, registry, codecs

    The collaborators are parameters of the traversals.  The instance below
    fixes them so that the traversals run on concrete structs and
    documents. *)

(** The parts of [cur ++ s] between commas (character 44). *)
Fixpoint splitComma (s cur : string) : list string :=
  match s with
  | EmptyString => [cur]
  | String.String c s' =>
      if Ascii.eqb c (Ascii.ascii_of_nat 44) then cur :: splitComma s' ""
      else splitComma s' (cur +:+ String.String c "")
  end.

Definition hasOption (opt : string) (parts : list string) : bool :=
  existsb (String.eqb opt) parts.

(** Modelled from the spec: the tag parsers are declared outside the file.
    By sections 3 and 6, the tag interpreter turns the annotation of a
    field into the record of name, omitEmpty, minSize, truncate, inline and
    skip; the name comes from the tag or is the declaration name in lower
    case.  [sfTag] holds the annotation, a name followed by options
    separated by commas; the annotation [-] skips the field. *)
Definition exampleParseTags (sf : StructField rtype) : result structTags :=
  if String.eqb (sfTag sf) "-" then
    Ok (mkStructTags "" false false false false true)
  else
    let parts := splitComma (sfTag sf) "" in
    let key :=
      match parts with
      | first :: _ => if String.eqb first "" then asciiToLower (sfName sf) else first
      | [] => asciiToLower (sfName sf)
      end in
    Ok (mkStructTags key (hasOption "omitempty" parts) (hasOption "minsize" parts)
          (hasOption "truncate" parts) (hasOption "inline" parts) false).

(** Handles of the codecs of the instance. *)
Definition structCodecId : nat := 0.
Definition int32CodecId : nat := 1.
Definition stringCodecId : nat := 2.
Definition otherCodecId : nat := 3.

(** A registry with a codec for structs, 32-bit integers and strings, one
    for the remaining kinds, and none for channels and functions. *)
Definition exampleLookup (mk : rtype -> error) (t : rtype) : result nat :=
  match t with
  | TStruct _ _ => Ok structCodecId
  | TBasic bInt32 _ => Ok int32CodecId
  | TString _ => Ok stringCodecId
  | TBasic bChan _ | TBasic bFunc _ => Err (mk t)
  | _ => Ok otherCodecId
  end.

Definition exampleRegistry : Registry :=
  {| LookupEncoder := exampleLookup errNoEncoder;
     LookupDecoder := exampleLookup errNoDecoder |}.

Definition decodeInt32 (vr : ValueReader) (val : Value) : rvalue * result unit :=
  match data val, vr with
  | VBasic bInt32 tn _, ElementReader (BInt32 n) => (VBasic bInt32 tn n, Ok tt)
  | VBasic bInt32 _ _, _ =>
      (data val,
       Err (errorString ("cannot decode " +:+ bsonTypeString (vrType vr)
                         +:+ " into an integer type")))
  | _, _ => (data val, Err (ValueDecoderError "IntDecodeValue"))
  end.

Definition decodeString (vr : ValueReader) (val : Value) : rvalue * result unit :=
  match data val, vr with
  | VStr tn _, ElementReader (BString s) => (VStr tn s, Ok tt)
  | VStr _ _, _ =>
      (data val,
       Err (errorString ("cannot decode " +:+ bsonTypeString (vrType vr)
                         +:+ " into a string type")))
  | _, _ => (data val, Err (ValueDecoderError "StringDecodeValue"))
  end.

(** The decoders behind the handles; the decoder of structs is
    [DecodeValue] itself, [depth] bounds the nesting of structs. *)
Fixpoint exampleDecoders (depth : nat) (dec : ValueDecoder) (sc : structCodec)
  (dc : DecodeContext) (vr : ValueReader) (val : Value)
  : structCodec * rvalue * result unit :=
  match dec with
  | 0 =>
      match depth with
      | O => (sc, data val, Panic "exampleDecoders: nesting too deep")
      | S depth' =>
          DecodeValue exampleParseTags exampleParseTags
            (exampleDecoders depth') asciiToLower sc dc vr val
      end
  | 1 => let '(d, r) := decodeInt32 vr val in (sc, d, r)
  | 2 => let '(d, r) := decodeString vr val in (sc, d, r)
  | _ => (sc, data val, Ok tt)
  end.

(** The encoders behind the handles, for scalars. *)
Definition exampleEncoders (enc : ValueEncoder) (sc : structCodec)
  (ec : EncodeContext) (val : Value) : structCodec * result bvalue :=
  match data val with
  | VBasic bInt32 _ n => (sc, Ok (BInt32 n))
  | VStr _ s => (sc, Ok (BString s))
  | _ => (sc, Ok BNull)
  end.

Definition exampleMapElements (h : nat) (ec : EncodeContext) (val : Value)
  (collision : string -> bool) : result (list (string * bvalue)) :=
  Ok [].

Definition exampleDecodeContext : DecodeContext :=
  mkDecodeContext exampleRegistry false None false false false false false false.

Definition exampleEncodeContext (omit : bool) : EncodeContext :=
  mkEncodeContext exampleRegistry false false false false false false false
    omit false.

Definition exampleCodec : structCodec := newStructCodec 0.

Definition settable (d : rvalue) : Value := mkValue d false false true.

Definition exported (nm : string) (t : rtype) (tag : string) : StructField rtype :=
  mkStructField nm "" false t tag.

Definition tInt32 : rtype := TBasic bInt32 "int32".
Definition tChanInt : rtype := TBasic bChan "chan int".
Definition tEmptyInterface : rtype := TInterface "interface {}".

(** [type Inner struct { B int32 `bson:"x"`; C int32 }] and
    [type Outer struct { A int32 `bson:"x"`; Inner `bson:",inline"` }]:
    the name [x] at depth 0 and, through the inlined struct, at depth 2. *)
Definition tInner : rtype :=
  TStruct "Inner" [exported "B" tInt32 "x"; exported "C" tInt32 ""].

Definition tOuter : rtype :=
  TStruct "Outer"
    [exported "A" tInt32 "x"; mkStructField "Inner" "" true tInner ",inline"].

(** [type Tie struct { A int32 `bson:"x"`; B int32 `bson:"x"` }]. *)
Definition tTie : rtype :=
  TStruct "Tie" [exported "A" tInt32 "x"; exported "B" tInt32 "x"].

(** [type WithPointer struct { P *Inner; N int32 }] and
    [type WithStruct struct { N int32; S Inner }]. *)
Definition tWithPointer : rtype :=
  TStruct "WithPointer" [exported "P" (TPtr tInner) ""; exported "N" tInt32 ""].

Definition tWithStruct : rtype :=
  TStruct "WithStruct" [exported "N" tInt32 ""; exported "S" tInner ""].

(** [type Catch struct { I interface{} `bson:"i"`;
    M map[string]int32 `bson:",inline"` }]. *)
Definition catchFields : list (StructField rtype) :=
  [exported "I" tEmptyInterface "i";
   exported "M" (TMap tString tInt32) ",inline"].

Definition tCatch : rtype := TStruct "Catch" catchFields.

(** A [Catch] whose [I] holds a pointer to the string [old] and whose [M]
    is nil. *)
Definition catchValue : Value :=
  settable
    (VStruct "Catch" catchFields
       [VIface "interface {}" (Some (VPtr tString (Some (VStr "string" "old"))));
        VMap tString tInt32 None]).

(** [type Leaf struct { C interface{} `bson:"c"` }] inside
    [type Mid struct { B Leaf `bson:"b"` }] inside
    [type Top struct { A Mid `bson:"a"` }]. *)
Definition leafFields : list (StructField rtype) :=
  [exported "C" tEmptyInterface "c"].
Definition tLeaf : rtype := TStruct "Leaf" leafFields.
Definition midFields : list (StructField rtype) := [exported "B" tLeaf "b"].
Definition tMid : rtype := TStruct "Mid" midFields.
Definition topFields : list (StructField rtype) := [exported "A" tMid "a"].
Definition tTop : rtype := TStruct "Top" topFields.

(** A [Top] whose innermost [C] holds a pointer to a channel. *)
Definition topValue : Value :=
  settable
    (VStruct "Top" topFields
       [VStruct "Mid" midFields
          [VStruct "Leaf" leafFields
             [VIface "interface {}"
                (Some (VPtr tChanInt (Some (VBasic bChan "chan int" 1))))]]]).

(** The same nesting with [C int32] as the innermost field. *)
Definition leaf32Fields : list (StructField rtype) := [exported "C" tInt32 "c"].
Definition tLeaf32 : rtype := TStruct "Leaf32" leaf32Fields.
Definition mid32Fields : list (StructField rtype) := [exported "B" tLeaf32 "b"].
Definition tMid32 : rtype := TStruct "Mid32" mid32Fields.
Definition top32Fields : list (StructField rtype) := [exported "A" tMid32 "a"].
Definition tTop32 : rtype := TStruct "Top32" top32Fields.

(** The document [{a: {b: {c: v}}}]. *)
Definition nestedDocument (v : bvalue) : ValueReader :=
  TopLevelReader [("a", BDocument [("b", BDocument [("c", v)])])].

(** [type Z struct{}] with [func (z *Z) IsZero() bool { return false }]: the
    pointer type implements [Zeroer]. *)
Definition tZ : rtype := TStruct "Z" [].
Definition exampleImplementsZeroer (t : rtype) : bool := rtype_eqb t (TPtr tZ).
Definition exampleZeroerIsZero (d : rvalue) : bool := false.
Definition exampleTimeIsZero (d : rvalue) : bool := false.

(** [type Chan struct { C chan int `bson:"c"` }] and
    [type Holder struct { I interface{} `bson:"i"` }]. *)
Definition chanFields : list (StructField rtype) := [exported "C" tChanInt "c"].
Definition holderFields : list (StructField rtype) :=
  [exported "I" tEmptyInterface "i"].

(** The flattened fields of [Outer]. *)
Definition outerA : fieldDescription :=
  mkFieldDescription "x" "A" 0 false false false [] (Some 1) (Some 1).
Definition outerB : fieldDescription :=
  mkFieldDescription "x" "B" 0 false false false [1; 0] (Some 1) (Some 1).
Definition outerC : fieldDescription :=
  mkFieldDescription "c" "C" 1 false false false [1; 1] (Some 1) (Some 1).
Definition outerFields : list fieldDescription := [outerA; outerB; outerC].

Definition outerPending : structDescription :=
  {| fm := ∅; fl := []; inlineMap := (-1)%Z; inlineFlag := true |}.

(** [type InlinePointer struct { *Inner `bson:",inline"` }], a value of it
    whose pointer is set, and a codec in deep-zero-inline mode. *)
Definition inlinePointerFields : list (StructField rtype) :=
  [mkStructField "Inner" "" true (TPtr tInner) ",inline"].
Definition tInlinePointer : rtype := TStruct "InlinePointer" inlinePointerFields.

Definition inlinePointerValue : Value :=
  settable
    (VStruct "InlinePointer" inlinePointerFields
       [VPtr tInner (Some (Zero tInner))]).

Definition deepZeroCodec : structCodec :=
  {| cache := [];
     inlineMapEncoder := 0;
     decodeZeroStruct := false;
     decodeDeepZeroInline := true;
     encodeOmitDefaultStruct := false;
     allowUnexportedFields := false;
     overwriteDuplicatedInlinedFields := true |}.

(** [type embedded struct { X int32 }] embedded, under its unexported name,
    in [type Wrapper struct { embedded; Y int32 }], with [X] set to 1. *)
Definition embeddedFields : list (StructField rtype) := [exported "X" tInt32 ""].
Definition wrapperFields : list (StructField rtype) :=
  [mkStructField "embedded" "main" true (TStruct "embedded" embeddedFields) "";
   exported "Y" tInt32 ""].
Definition wrapperValue : Value :=
  settable
    (VStruct "Wrapper" wrapperFields
       [VStruct "embedded" embeddedFields [VBasic bInt32 "int32" 1];
        VBasic bInt32 "int32" 0]).

(** A [Chan] whose channel is nil, a [Holder] whose interface is nil, and
    the descriptions of their fields. *)
Definition chanValue : Value :=
  settable (VStruct "Chan" chanFields [VBasic bChan "chan int" 0]).
Definition chanDescription : fieldDescription :=
  mkFieldDescription "c" "C" 0 false false false [] None None.

Definition holderValue : Value :=
  settable (VStruct "Holder" holderFields [VIface "interface {}" None]).
Definition holderDescription : fieldDescription :=
  mkFieldDescription "i" "I" 0 false false false [] (Some 3) (Some 3).

(** A [Leaf] whose [C] holds a pointer to a channel. *)
Definition leafValue : Value :=
  settable
    (VStruct "Leaf" leafFields
       [VIface "interface {}"
          (Some (VPtr tChanInt (Some (VBasic bChan "chan int" 1))))]).

(** The codec after the descriptor of [Inner] has been published. *)
Definition publishedCodec : structCodec :=
  (describeStruct exampleParseTags exampleParseTags exampleCodec
     exampleRegistry tInner false false).1.

(** ** The emptiness test in the words of the specification *)

Section EmptinessSpec.
Variable implementsZeroer : rtype -> bool.
Variable zeroerIsZero : rvalue -> bool.
Variable timeIsZero : rvalue -> bool.

(** A value reports its own zero state: its type implements [Zeroer] and
    it is not a nil pointer. *)
Definition reportsOwnZero (d : rvalue) : bool :=
  match d, typeOf d with
  | VPtr _ None, _ => false
  | _, Some vt => implementsZeroer vt
  | _, None => false
  end.

(** A value of a kind that is neither container, string nor struct equals
    the zero value of its type. *)
Definition isZeroValue (d : rvalue) : bool :=
  match d with
  | VBasic _ _ n => (n =? 0)%Z
  | VIface _ None | VPtr _ None => true
  | _ => false
  end.

(** A field the struct case looks at: exported, or embedded. *)
Definition visible (ff : StructField rtype) : bool :=
  negb (unexported ff) || sfAnonymous ff.

(** The emptiness test, case by case in the order of the specification:
    the own report of the value; the length of arrays, maps, slices and
    strings; for structs, aggressive-zero mode and then the zero check of
    [time.Time] or the emptiness of every visible field; the zero value for
    the other kinds. *)
Fixpoint emptinessSpec (d : rvalue) (omitZeroStruct : bool) {struct d} : bool :=
  if reportsOwnZero d then zeroerIsZero d
  else
    match d with
    | VArray _ l => Nat.eqb (length l) 0
    | VMap _ _ None | VSlice _ None => true
    | VMap _ _ (Some m) => Nat.eqb (length m) 0
    | VSlice _ (Some l) => Nat.eqb (length l) 0
    | VStr _ s => Nat.eqb (String.length s) 0
    | VStruct n sfs fields =>
        omitZeroStruct
        && (if rtype_eqb (TStruct n sfs) tTime then timeIsZero d
            else
              (fix everyField (sfs : list (StructField rtype))
                   (fields : list rvalue) {struct fields} : bool :=
                 match sfs, fields with
                 | ff :: sfs', f :: fields' =>
                     (if visible ff then emptinessSpec f omitZeroStruct else true)
                     && everyField sfs' fields'
                 | _, _ => true
                 end) sfs fields)
    | _ => isZeroValue d
    end.

(** The values on which the emptiness test cannot panic: valid values in
    which every struct has one value per declared field, in which no value
    that reports its own zero state, and no [time.Time], is read-only
    ([stickyRO] and [embedRO] are the flags of the value; an embedded field
    of an unexported type is read-only), and in which no nil interface has
    a type that implements [Zeroer]. *)
Fixpoint plain (d : rvalue) (stickyRO embedRO : bool) {struct d} : bool :=
  match d with
  | VInvalid => false
  | VStruct n sfs fields =>
      if reportsOwnZero d then negb (stickyRO || embedRO)
      else if rtype_eqb (TStruct n sfs) tTime then negb (stickyRO || embedRO)
      else
        Nat.eqb (length sfs) (length fields)
        && (fix plainFields (sfs : list (StructField rtype))
                (fields : list rvalue) {struct fields} : bool :=
              match sfs, fields with
              | ff :: sfs', f :: fields' =>
                  (if visible ff
                   then plain f stickyRO (unexported ff && sfAnonymous ff)
                   else true)
                  && plainFields sfs' fields'
              | _, _ => true
              end) sfs fields
  | VIface _ None => negb (reportsOwnZero d)
  | _ => if reportsOwnZero d then negb (stickyRO || embedRO) else true
  end.
End EmptinessSpec.

(** A field for which [deepZero] enters its inner branch: exported, of
    struct kind. *)
Definition exportedStruct (sf : StructField rtype) : bool :=
  negb (unexported sf) && reflect.Kind_eqb (Kind (sfType sf)) reflect.Struct.

(** ** The cache under concurrent use *)

(** The two operations [describeStruct] performs on the cache, each of them
    atomic: [Load] of a type, and [LoadOrStore] of a type with the descriptor
    the caller has computed. *)
Inductive cacheOp :=
| opLoad (t : rtype)
| opLoadOrStore (t : rtype) (ds : structDescription).

Definition cacheStep (c : list (rtype * structDescription)) (op : cacheOp)
  : list (rtype * structDescription) :=
  match op with
  | opLoad _ => c
  | opLoadOrStore t ds => (cacheLoadOrStore c t ds).1.1
  end.

(** The cache after the operations of any number of callers, in the order
    in which they took effect. *)
Definition runCacheOps (c : list (rtype * structDescription))
  (ops : list cacheOp) : list (rtype * structDescription) :=
  fold_left cacheStep ops c.

(** Induction on types, with the hypothesis for the element type of a
    pointer and for the types of the fields of a struct. *)
Section TypeInduction.
Variable P : rtype -> Prop.
Hypothesis HBasic : forall k n, P (TBasic k n).
Hypothesis HString : forall n, P (TString n).
Hypothesis HInterface : forall n, P (TInterface n).
Hypothesis HPtr : forall e, P e -> P (TPtr e).
Hypothesis HSlice : forall e, P e -> P (TSlice e).
Hypothesis HArray : forall len e, P e -> P (TArray len e).
Hypothesis HMap : forall k e, P k -> P e -> P (TMap k e).
Hypothesis HStruct : forall n fields,
  Forall (fun sf => P (sfType sf)) fields -> P (TStruct n fields).

Fixpoint rtype_nested_ind (t : rtype) : P t :=
  match t with
  | TBasic k n => HBasic k n
  | TString n => HString n
  | TInterface n => HInterface n
  | TPtr e => HPtr e (rtype_nested_ind e)
  | TSlice e => HSlice e (rtype_nested_ind e)
  | TArray len e => HArray len e (rtype_nested_ind e)
  | TMap k e => HMap k e (rtype_nested_ind k) (rtype_nested_ind e)
  | TStruct n fields =>
      HStruct n fields
        ((fix all (l : list (StructField rtype))
            : Forall (fun sf => P (sfType sf)) l :=
            match l with
            | [] => @List.Forall_nil _ (fun sf => P (sfType sf))
            | sf :: l' =>
                @List.Forall_cons _ (fun sf => P (sfType sf)) sf l'
                  (rtype_nested_ind (sfType sf)) (all l')
            end) fields)
  end.
End TypeInduction.

(** ** Vocabulary of the dominance pass *)

(** The inline depth of a flattened field. *)
Definition depth (f : fieldDescription) : nat := length (inline f).

(** The part of the sort order the dominance pass relies on: by name, then
    by depth. *)
Definition coarseLe (x y : fieldDescription) : Prop :=
  String_as_OT.lt (name x) (name y) \/ (name x = name y /\ depth x <= depth y).

(** The entries of a list that carry a given name. *)
Definition sameName (nm : string) (l : list fieldDescription)
  : list fieldDescription :=
  filter (fun g => name g = nm) l.

(** [f] is an entry of [l] and every other entry with its name is strictly
    deeper. *)
Definition dominates (f : fieldDescription) (l : list fieldDescription) : Prop :=
  exists l1 l2, l = l1 ++ f :: l2 /\
    forall g, In g (l1 ++ l2) -> name g = name f -> depth f < depth g.

(** The same, on the entries that carry the name of [f]. *)
Definition dominatesF (f : fieldDescription) (l : list fieldDescription) : Prop :=
  exists others, sameName (name f) l ≡ₚ f :: others /\
    Forall (fun g => depth f < depth g) others.

(** Two or more entries of [l] carry the name [nm]. *)
Definition collidesOn (nm : string) (l : list fieldDescription) : Prop :=
  2 <= length (sameName nm l).

(** Two entries of [l] carry the name [nm], sit at the same depth, and no
    entry with that name is shallower. *)
Definition tiedAtShortest (nm : string) (l : list fieldDescription) : Prop :=
  exists l1 f l2 g l3,
    l = l1 ++ f :: l2 ++ g :: l3
    /\ name f = nm /\ name g = nm /\ depth f = depth g
    /\ forall h, In h l -> name h = nm -> depth f <= depth h.

(** The descriptor after one more kept field. *)
Definition keepField (sd : structDescription) (f : fieldDescription)
  : structDescription :=
  {| fm := <[name f := f]> (fm sd); fl := fl sd ++ [f];
     inlineMap := inlineMap sd; inlineFlag := inlineFlag sd |}.

(** ** Predicates on descriptors *)

(** The order of the names of a list of fields. *)
Definition nameLt (x y : fieldDescription) : Prop :=
  String_as_OT.lt (name x) (name y).

Section DescribesField.
Variable parseStructTags parseJSONStructTags : StructField rtype -> result structTags.
Variable r : Registry.
Variable useJSONStructTags : bool.

(** The entry [fd] of a descriptor stands for the struct field [sf] of the
    described type, or for a field inlined through [sf]: [sf] was visited
    by the first loop and its tag does not skip it; an entry without inline
    path carries the name and the options of the tag, the Go name of the
    field and the codecs looked up for its type; an entry with an inline
    path comes from a field tagged inline that is a struct or a pointer to
    a struct, and its path has a second step. *)
Definition describesField (sf : StructField rtype) (fd : fieldDescription)
  : Prop :=
  (sfPkgPath sf = "" \/ sfAnonymous sf = true)
  /\ exists stags,
       (if useJSONStructTags then parseJSONStructTags sf
        else parseStructTags sf) = Ok stags
       /\ Skip stags = false
       /\ match inline fd with
          | [] =>
              Inline stags = false
              /\ name fd = Name stags /\ fieldName fd = sfName sf
              /\ omitEmpty fd = OmitEmpty stags /\ minSize fd = MinSize stags
              /\ truncate fd = Truncate stags
              /\ encoder fd = lookupOrNil (LookupEncoder r (sfType sf))
              /\ decoder fd = lookupOrNil (LookupDecoder r (sfType sf))
          | _ :: rest =>
              Inline stags = true /\ rest <> []
              /\ exists n sfs,
                   sfType sf = TStruct n sfs \/ sfType sf = TPtr (TStruct n sfs)
          end.
End DescribesField.

(** A second field inlined under the name [x], as deep as [outerB]. *)
Definition outerB2 : fieldDescription :=
  mkFieldDescription "x" "B" 0 false false false [2; 0] (Some 1) (Some 1).

(** An [Outer] with [A = 7], [B = 5] and [C = 6]. *)
Definition outerValue : Value :=
  settable
    (VStruct "Outer"
       [exported "A" tInt32 "x"; mkStructField "Inner" "" true tInner ",inline"]
       [VBasic bInt32 "int32" 7;
        VStruct "Inner" [exported "B" tInt32 "x"; exported "C" tInt32 ""]
          [VBasic bInt32 "int32" 5; VBasic bInt32 "int32" 6]]).

(** An [InlinePointer] whose embedded pointer is nil, and the description
    of the field [B] inlined through it. *)
Definition nilInlinePointerValue : Value :=
  settable (VStruct "InlinePointer" inlinePointerFields [VPtr tInner None]).

Definition inlinedB : fieldDescription :=
  mkFieldDescription "x" "B" 0 false false false [0; 0] (Some 1) (Some 1).

(** The document [{zzz: 1}], none of whose names is a field of [Inner]. *)
Definition strangerDocument : ValueReader :=
  TopLevelReader [("zzz", BInt32 1)].

(** A settable [Inner] with [B = 5] and [C = 6]. *)
Definition innerValue : Value :=
  settable
    (VStruct "Inner" [exported "B" tInt32 "x"; exported "C" tInt32 ""]
       [VBasic bInt32 "int32" 5; VBasic bInt32 "int32" 6]).

Section Trailer.
Variable encodeMapElements :
  nat -> EncodeContext -> Value -> (string -> bool)
  -> result (list (string * bvalue)).

(** What [EncodeValue] does with the outcome of its loop over [sd.fl]
    (lines 186 to 199): an error of the loop is returned; otherwise the
    elements of the inline map, if there is one, are appended and the
    document is closed. *)
Definition finishDocument (sd : structDescription) (ec : EncodeContext)
  (val : Value) (loop : structCodec * result (list (string * bvalue)))
  : structCodec * result bvalue :=
  match loop with
  | (sc2, Err e) => (sc2, Err e)
  | (sc2, Panic m) => (sc2, Panic m)
  | (sc2, Ok dw) =>
      if (0 <=? inlineMap sd)%Z then
        (sc2,
         rv ← Field val (Z.to_nat (inlineMap sd));
         more ← encodeMapElements (inlineMapEncoder sc2) ec rv
                  (fun key => bool_decide (is_Some (fm sd !! key)));
         Ok (BDocument (dw ++ more)))
      else (sc2, Ok (BDocument dw))
  end.
End Trailer.

(** * Properties *)

(** ** The dominance pass on a sorted list *)


Lemma stringLess_lt a b : stringLess a b = true <-> String_as_OT.lt a b.
Proof.
  unfold stringLess, String_as_OT.lt.
  destruct (String_as_OT.compare a b); split; congruence.
Qed.

Lemma stringLess_total a b :
  a <> b -> stringLess a b = false -> String_as_OT.lt b a.
Proof.
  intros Hne Hf. destruct (String_as_OT.compare_spec a b) as [Heq|Hlt|Hgt].
  - contradiction.
  - apply stringLess_lt in Hlt. congruence.
  - exact Hgt.
Qed.

Lemma string_lt_irrefl a : ~ String_as_OT.lt a a.
Proof. apply (StrictOrder_Irreflexive (R := String_as_OT.lt)). Qed.

Lemma string_lt_trans a b c :
  String_as_OT.lt a b -> String_as_OT.lt b c -> String_as_OT.lt a c.
Proof. apply (StrictOrder_Transitive (R := String_as_OT.lt)). Qed.

Lemma nameLess_true x y : nameLess x y = true -> coarseLe x y.
Proof.
  unfold nameLess, coarseLe, depth.
  destruct (String.eqb_spec (name x) (name y)) as [Heq|Hne]; simpl.
  - destruct (Nat.eqb_spec (length (inline x)) (length (inline y))) as [Hl|Hl]; simpl.
    + intros _. right. split; [exact Heq | lia].
    + intros H. apply Nat.ltb_lt in H. right. split; [exact Heq | lia].
  - intros H. left. by apply stringLess_lt.
Qed.

Lemma nameLess_false x y : nameLess x y = false -> coarseLe y x.
Proof.
  unfold nameLess, coarseLe, depth.
  destruct (String.eqb_spec (name x) (name y)) as [Heq|Hne]; simpl.
  - destruct (Nat.eqb_spec (length (inline x)) (length (inline y))) as [Hl|Hl]; simpl.
    + intros _. right. split; [by symmetry | lia].
    + intros H. apply Nat.ltb_ge in H. right. split; [by symmetry | lia].
  - intros H. left. by apply stringLess_total.
Qed.

Lemma coarseLe_trans x y z : coarseLe x y -> coarseLe y z -> coarseLe x z.
Proof.
  unfold coarseLe. intros [Hxy|[Hxy Hd]] [Hyz|[Hyz Hd']].
  - left. by eapply string_lt_trans.
  - left. by rewrite <- Hyz.
  - left. by rewrite Hxy.
  - right. split; [congruence | lia].
Qed.

Section SortFacts.
Context {A : Type} (less : A -> A -> bool).

Lemma insertSorted_perm x l : insertSorted less x l ≡ₚ x :: l.
Proof.
  induction l as [|y l IH]; simpl; [done|].
  destruct (less x y); [done|].
  rewrite IH. apply Permutation_swap.
Qed.

Lemma sortSlice_perm l : sortSlice less l ≡ₚ l.
Proof.
  induction l as [|x l IH]; simpl; [done|].
  by rewrite insertSorted_perm, IH.
Qed.

Context (le : A -> A -> Prop).
Hypothesis less_true : forall x y, less x y = true -> le x y.
Hypothesis less_false : forall x y, less x y = false -> le y x.

Lemma insertSorted_Sorted x l : Sorted le l -> Sorted le (insertSorted less x l).
Proof.
  induction l as [|y l IH]; simpl; intros Hs.
  - by repeat constructor.
  - destruct (less x y) eqn:Hxy.
    + constructor; [done|]. constructor. by apply less_true.
    + inversion Hs as [|? ? Hs' Hhd]; subst.
      constructor; [by apply IH|].
      destruct l as [|z l]; simpl.
      * constructor. by apply less_false.
      * destruct (less x z); constructor.
        -- by apply less_false.
        -- by inversion Hhd.
Qed.

Lemma sortSlice_Sorted l : Sorted le (sortSlice less l).
Proof.
  induction l as [|x l IH]; simpl; [constructor|].
  by apply insertSorted_Sorted.
Qed.
End SortFacts.

Lemma sortSlice_nameLess_sorted l :
  StronglySorted coarseLe (sortSlice nameLess l).
Proof.
  apply Sorted_StronglySorted.
  - intros x y z. apply coarseLe_trans.
  - apply sortSlice_Sorted; [apply nameLess_true | apply nameLess_false].
Qed.




Lemma dominates_dominatesF f l : dominates f l <-> dominatesF f l.
Proof.
  unfold dominates, dominatesF, sameName. split.
  - intros (l1 & l2 & -> & Hd).
    exists (filter (fun g => name g = name f) (l1 ++ l2)). split.
    + rewrite !filter_app, filter_cons_True by done.
      by rewrite <- Permutation_middle.
    + apply Forall_forall. intros g Hg.
      apply list_elem_of_filter in Hg as [Hn Hin].
      apply Hd; [by apply list_elem_of_In | done].
  - intros (others & Hp & Hd).
    assert (Hin : f ∈ l).
    { eapply (list_elem_of_filter (fun g => name g = name f)).
      rewrite Hp. left. }
    apply list_elem_of_split in Hin as (l1 & l2 & ->).
    exists l1, l2. split; [done|]. intros g Hg Hn.
    rewrite filter_app, filter_cons_True in Hp by done.
    rewrite <- Permutation_middle in Hp.
    apply Permutation_cons_inv in Hp.
    rewrite <- filter_app in Hp.
    rewrite Forall_forall in Hd. apply Hd. rewrite <- Hp.
    apply list_elem_of_filter. split; [done | by apply list_elem_of_In].
Qed.

Lemma dominatesF_perm f l l' : l ≡ₚ l' -> dominatesF f l -> dominatesF f l'.
Proof.
  intros Hp (others & Hf & Hd). exists others. split; [|done].
  unfold sameName in *. by rewrite <- Hp.
Qed.

Lemma dominatesF_unique f f' l :
  name f = name f' -> dominatesF f l -> dominatesF f' l -> f = f'.
Proof.
  intros Hn (o & Hp & Hd) (o' & Hp' & Hd').
  rewrite Hn in Hp.
  assert (H1 : f ∈ f' :: o') by (rewrite <- Hp', Hp; left).
  assert (H2 : f' ∈ f :: o) by (rewrite <- Hp, Hp'; left).
  apply elem_of_cons in H1 as [H1|H1]; [done|].
  apply elem_of_cons in H2 as [H2|H2]; [done|].
  rewrite Forall_forall in Hd, Hd'.
  specialize (Hd _ H2). specialize (Hd' _ H1). lia.
Qed.

Lemma sameNameRun_take nm rest :
  Forall (fun g => name g = nm) (take (sameNameRun nm rest) rest).
Proof.
  induction rest as [|g rest IH]; simpl; [constructor|].
  destruct (String.eqb_spec (name g) nm); simpl; by constructor.
Qed.

Lemma sameNameRun_le nm rest : sameNameRun nm rest <= length rest.
Proof.
  induction rest as [|g rest IH]; simpl; [lia|].
  destruct (String.eqb (name g) nm); simpl; lia.
Qed.

Lemma sameNameRun_drop_sorted fi rest :
  StronglySorted coarseLe (fi :: rest) ->
  Forall (fun g => String_as_OT.lt (name fi) (name g))
         (drop (sameNameRun (name fi) rest) rest).
Proof.
  intros Hs. apply StronglySorted_inv in Hs as [Hs Hall].
  induction rest as [|g rest IH]; simpl; [constructor|].
  apply StronglySorted_inv in Hs as [Hs Hg].
  apply Forall_cons in Hall as [Hfg Hall].
  destruct (String.eqb_spec (name g) (name fi)) as [Heq|Hne]; simpl.
  - by apply IH.
  - assert (Hlt : String_as_OT.lt (name fi) (name g)).
    { destruct Hfg as [Hlt|[Heq _]]; [done | congruence]. }
    constructor; [done|].
    eapply Forall_impl; [exact Hg|]. simpl. intros x [Hx|[Hx _]].
    + by eapply string_lt_trans.
    + by rewrite <- Hx.
Qed.

Lemma sameName_all nm l : Forall (fun g => name g = nm) l -> sameName nm l = l.
Proof.
  unfold sameName. induction 1 as [|g l Hg _ IH]; [done|].
  by rewrite filter_cons_True, IH.
Qed.

Lemma sameName_none nm l : Forall (fun g => name g <> nm) l -> sameName nm l = [].
Proof.
  unfold sameName. induction 1 as [|g l Hg _ IH]; [done|].
  by rewrite filter_cons_False.
Qed.

Lemma StronglySorted_drop {A} (R : A -> A -> Prop) n (l : list A) :
  StronglySorted R l -> StronglySorted R (drop n l).
Proof.
  revert l. induction n as [|n IH]; intros [|g l] Hs; simpl; try done.
  apply IH. by apply StronglySorted_inv in Hs as [? _].
Qed.

Section Group.
Variables (fi : fieldDescription) (rest : list fieldDescription).
Hypothesis Hsorted : StronglySorted coarseLe (fi :: rest).

Local Abbreviation k := (sameNameRun (name fi) rest).

Lemma group_others_ne : Forall (fun g => name g <> name fi) (drop k rest).
Proof.
  eapply Forall_impl; [by apply sameNameRun_drop_sorted|].
  simpl. intros g Hlt Heq. rewrite Heq in Hlt. by apply string_lt_irrefl in Hlt.
Qed.

Lemma group_sameName : sameName (name fi) (fi :: rest) = fi :: take k rest.
Proof.
  unfold sameName. rewrite filter_cons_True by done. f_equal.
  rewrite <- (take_drop k rest) at 1. rewrite filter_app.
  fold (sameName (name fi) (take k rest)).
  fold (sameName (name fi) (drop k rest)).
  rewrite sameName_all by apply sameNameRun_take.
  rewrite sameName_none by apply group_others_ne.
  by rewrite app_nil_r.
Qed.

Lemma group_sameName_other nm :
  nm <> name fi -> sameName nm (fi :: rest) = sameName nm (drop k rest).
Proof.
  intros Hne. unfold sameName. rewrite filter_cons_False by congruence.
  rewrite <- (take_drop k rest) at 1. rewrite filter_app.
  fold (sameName nm (take k rest)).
  rewrite sameName_none; [done|].
  eapply Forall_impl; [apply sameNameRun_take|]. simpl. congruence.
Qed.

Lemma group_depth_le : Forall (fun g => depth fi <= depth g) (take k rest).
Proof.
  apply StronglySorted_inv in Hsorted as [_ Hall].
  apply Forall_forall. intros g Hg.
  assert (Hn : name g = name fi).
  { pose proof (sameNameRun_take (name fi) rest) as Ht.
    rewrite Forall_forall in Ht. by apply Ht. }
  rewrite Forall_forall in Hall.
  destruct (Hall g) as [Hlt|[_ Hd]]; [| |done].
  - eapply elem_of_take in Hg as (? & Hg & _). by eapply list_elem_of_lookup_2.
  - rewrite Hn in Hlt. by apply string_lt_irrefl in Hlt.
Qed.

Lemma group_sorted_rest : StronglySorted coarseLe (drop k rest).
Proof.
  apply StronglySorted_inv in Hsorted as [Hs _].
  by apply StronglySorted_drop.
Qed.

Lemma group_dominates_head :
  (exists f, name f = name fi /\ dominatesF f (fi :: rest)) ->
  dominatesF fi (fi :: rest).
Proof.
  intros (f & Hn & Hd).
  destruct Hd as (others & Hp & Hdeep).
  rewrite Hn, group_sameName in Hp.
  assert (Hin : f ∈ fi :: take k rest) by (rewrite Hp; left).
  apply elem_of_cons in Hin as [Heq|Hin].
  { subst f. exists others. by rewrite group_sameName. }
  assert (Hfi : fi ∈ f :: others) by (rewrite <- Hp; left).
  apply elem_of_cons in Hfi as [Heq|Hfi].
  { subst f. exists others. by rewrite group_sameName. }
  pose proof group_depth_le as Hle. rewrite Forall_forall in Hle, Hdeep.
  specialize (Hle _ Hin). specialize (Hdeep _ Hfi). lia.
Qed.

Lemma group_head_deeper :
  dominatesF fi (fi :: rest) -> Forall (fun g => depth fi < depth g) (take k rest).
Proof.
  intros (others & Hp & Hdeep). rewrite group_sameName in Hp.
  apply Permutation_cons_inv in Hp. by rewrite Hp.
Qed.

Lemma group_dominatesF_other f :
  name f <> name fi ->
  dominatesF f (fi :: rest) <-> dominatesF f (drop k rest).
Proof.
  intros Hne. unfold dominatesF. by rewrite group_sameName_other.
Qed.

Lemma group_dominatesF_split f :
  dominatesF fi (fi :: rest) ->
  dominatesF f (fi :: rest) <-> f = fi \/ dominatesF f (drop k rest).
Proof.
  intros Hfi. split.
  - intros Hf. destruct (decide (name f = name fi)) as [Heq|Hne].
    + left. by eapply dominatesF_unique.
    + right. by apply group_dominatesF_other.
  - intros [Heq|Hf]; [by subst f|].
    apply group_dominatesF_other; [|done].
    destruct Hf as (others & Hp & _).
    assert (Hin : f ∈ sameName (name f) (drop k rest)) by (rewrite Hp; left).
    apply list_elem_of_filter in Hin as [_ Hin].
    pose proof group_others_ne as Hne. rewrite Forall_forall in Hne.
    by apply Hne.
Qed.
End Group.



Lemma dominanceLoop_step_dominated fuel t fi rest sd :
  dominatesF fi (fi :: rest) ->
  StronglySorted coarseLe (fi :: rest) ->
  dominanceLoop (S fuel) true false t (fi :: rest) sd
  = dominanceLoop fuel true false t
      (drop (sameNameRun (name fi) rest) rest) (keepField sd fi).
Proof.
  intros Hdom Hs. pose proof (group_head_deeper fi rest Hs Hdom) as Hdeep.
  cbn [dominanceLoop].
  destruct (sameNameRun (name fi) rest) as [|k'] eqn:Hk; [done|].
  destruct rest as [|g rest']; [done|].
  cbn. cbn in Hdeep. apply Forall_cons in Hdeep as [Hg _].
  destruct (Nat.eqb_spec (length (inline fi)) (length (inline g))) as [Heq|Hne].
  - unfold depth in Hg. lia.
  - done.
Qed.

Lemma dominanceLoop_ok t fuel : forall s sd,
  length s <= fuel ->
  StronglySorted coarseLe s ->
  (forall g, g ∈ s -> exists f, name f = name g /\ dominatesF f s) ->
  exists sd',
    dominanceLoop fuel true false t s sd = Ok sd'
    /\ inlineMap sd' = inlineMap sd /\ inlineFlag sd' = inlineFlag sd
    /\ (forall f, f ∈ fl sd' <-> f ∈ fl sd \/ dominatesF f s)
    /\ (forall f, dominatesF f s -> fm sd' !! name f = Some f)
    /\ (forall nm, Forall (fun g => name g <> nm) s -> fm sd' !! nm = fm sd !! nm).
Proof.
  induction fuel as [|fuel IH]; intros s sd Hlen Hs Hdom.
  - destruct s; [|simpl in Hlen; lia].
    exists sd. simpl. repeat split; try done.
    + intros Hf. by left.
    + intros [Hf|(o & Hp & _)]; [done|].
      unfold sameName in Hp. simpl in Hp. by apply Permutation_nil_cons in Hp.
    + intros f (o & Hp & _).
      unfold sameName in Hp. simpl in Hp. by apply Permutation_nil_cons in Hp.
  - destruct s as [|fi rest].
    { exists sd. simpl. repeat split; try done.
      + intros Hf. by left.
      + intros [Hf|(o & Hp & _)]; [done|].
        unfold sameName in Hp. simpl in Hp. by apply Permutation_nil_cons in Hp.
      + intros f (o & Hp & _).
        unfold sameName in Hp. simpl in Hp. by apply Permutation_nil_cons in Hp. }
    assert (Hfi : dominatesF fi (fi :: rest)).
    { apply group_dominates_head; [done|]. apply Hdom. left. }
    rewrite dominanceLoop_step_dominated by done.
    set (k := sameNameRun (name fi) rest).
    pose proof (group_others_ne fi rest Hs) as Hne. fold k in Hne.
    destruct (IH (drop k rest) (keepField sd fi)) as (sd' & Hrun & Him & Hif & Hfl & Hfm & Hfm').
    { rewrite length_drop. simpl in Hlen. lia. }
    { by apply group_sorted_rest. }
    { intros g Hg. destruct (Hdom g) as (f & Hn & Hf).
      { right. by eapply subseteq_drop. }
      exists f. split; [done|]. apply group_dominatesF_other; [|done].
      rewrite Hn. rewrite Forall_forall in Hne. by apply Hne. }
    exists sd'. split; [done|]. split; [done|]. split; [done|]. split; [|split].
    + intros f. rewrite Hfl. simpl. rewrite elem_of_app, list_elem_of_singleton.
      rewrite (group_dominatesF_split fi rest Hs f Hfi). fold k. tauto.
    + intros f Hf. apply (group_dominatesF_split fi rest Hs f Hfi) in Hf as [->|Hf].
      * rewrite Hfm'; [simpl; by rewrite lookup_insert_eq|done].
      * by apply Hfm.
    + intros nm Hnm. apply Forall_cons in Hnm as [Hnfi Hnm].
      rewrite Hfm'.
      * simpl. by rewrite lookup_insert_ne.
      * apply Forall_forall. intros g Hg. rewrite Forall_forall in Hnm.
        apply Hnm. by eapply subseteq_drop.
Qed.

Lemma dominanceLoop_outcome t ov eod fuel : forall s sd,
  length s <= fuel ->
  (exists sd', dominanceLoop fuel ov eod t s sd = Ok sd')
  \/ (exists key, dominanceLoop fuel ov eod t s sd = Err (duplicatedKeyError t key)).
Proof.
  induction fuel as [|fuel IH]; intros s sd Hlen.
  - destruct s; [|simpl in Hlen; lia]. left. by exists sd.
  - destruct s as [|fi rest]; [left; by exists sd|].
    cbn [dominanceLoop].
    destruct (sameNameRun (name fi) rest) as [|k'] eqn:Hk.
    + simpl. apply IH. simpl in Hlen. lia.
    + destruct rest as [|g rest']; [done|].
      cbn.
      destruct (length (inline fi) =? length (inline g))%nat; cbn.
      * right. by eexists.
      * destruct (negb ov || eod); [right; by eexists|].
        apply IH. rewrite length_drop. simpl in Hlen. lia.
Qed.

Lemma sameName_nil nm : sameName nm [] = [].
Proof. done. Qed.

Lemma dominanceLoop_ok_inv t ov eod fuel : forall s sd sd',
  StronglySorted coarseLe s ->
  dominanceLoop fuel ov eod t s sd = Ok sd' ->
  (forall g, g ∈ s -> exists f, name f = name g /\ dominatesF f s)
  /\ (forall nm, collidesOn nm s -> ov = true /\ eod = false).
Proof.
  induction fuel as [|fuel IH]; intros s sd sd' Hs Hrun.
  - destruct s; [|done]. split.
    + intros g Hg. by apply elem_of_nil in Hg.
    + intros nm Hc. unfold collidesOn in Hc. simpl in Hc. lia.
  - destruct s as [|fi rest].
    { split.
      + intros g Hg. by apply elem_of_nil in Hg.
      + intros nm Hc. unfold collidesOn in Hc. simpl in Hc. lia. }
    cbn [dominanceLoop] in Hrun.
    pose proof (group_sameName fi rest Hs) as Hgrp.
    pose proof (group_sorted_rest fi rest Hs) as Hsr.
    pose proof (group_others_ne fi rest Hs) as Hne.
    pose proof (group_depth_le fi rest Hs) as Hle.
    assert (Hstep : exists sd1,
               dominanceLoop fuel ov eod t
                 (drop (sameNameRun (name fi) rest) rest) sd1 = Ok sd'
               /\ Forall (fun g => depth fi < depth g)
                    (take (sameNameRun (name fi) rest) rest)
               /\ (sameNameRun (name fi) rest <> 0 -> ov = true /\ eod = false)).
    { destruct (sameNameRun (name fi) rest) as [|k'] eqn:Hk.
      - simpl in Hrun. eexists. split; [exact Hrun|]. split; [by rewrite take_0|done].
      - destruct rest as [|g rest']; [done|].
        cbn in Hrun.
        destruct (Nat.eqb_spec (length (inline fi)) (length (inline g))) as [Heq|Hneq];
          cbn in Hrun; [done|].
        destruct ov, eod; cbn in Hrun; try done.
        eexists. split; [exact Hrun|]. split; [|done].
        cbn in Hle. apply Forall_cons in Hle as [Hg Hle].
        assert (Hng : name g = name fi).
        { simpl in Hk. by destruct (String.eqb_spec (name g) (name fi)). }
        assert (Hk' : sameNameRun (name g) rest' = k').
        { rewrite Hng. simpl in Hk.
          destruct (String.eqb (name g) (name fi)); [by injection Hk|done]. }
        apply StronglySorted_inv in Hs as [Hs' _].
        pose proof (group_depth_le g rest' Hs') as Hle'. rewrite Hk' in Hle'.
        cbn. constructor; [unfold depth in *; lia|].
        eapply Forall_impl; [exact Hle'|]. simpl. unfold depth in *. lia. }
    destruct Hstep as (sd1 & Hrest & Hdeep & Hflags).
    destruct (IH _ _ _ Hsr Hrest) as [Hdom Hcol].
    assert (Hfi : dominatesF fi (fi :: rest)).
    { exists (take (sameNameRun (name fi) rest) rest). by rewrite Hgrp. }
    split.
    + intros g Hg. apply elem_of_cons in Hg as [->|Hg]; [by exists fi|].
      destruct (decide (name g = name fi)) as [Heq|Hneq]; [by exists fi|].
      assert (Hg' : g ∈ drop (sameNameRun (name fi) rest) rest).
      { rewrite <- (take_drop (sameNameRun (name fi) rest) rest) in Hg.
        apply elem_of_app in Hg as [Hg|Hg]; [|done].
        pose proof (sameNameRun_take (name fi) rest) as Ht.
        rewrite Forall_forall in Ht. by apply Ht in Hg. }
      destruct (Hdom g Hg') as (f & Hn & Hf). exists f. split; [done|].
      apply group_dominatesF_other; [congruence|done].
    + intros nm Hc. unfold collidesOn in Hc.
      destruct (decide (nm = name fi)) as [->|Hneq].
      * rewrite Hgrp in Hc. apply Hflags.
        destruct (sameNameRun (name fi) rest); [|done].
        rewrite take_0 in Hc. simpl in Hc. lia.
      * rewrite group_sameName_other in Hc by done. by apply (Hcol nm).
Qed.


Lemma tiedAtShortest_not_dominated nm l f :
  tiedAtShortest nm l -> name f = nm -> ~ dominatesF f l.
Proof.
  intros (l1 & a & l2 & b & l3 & -> & Ha & Hb & Hab & Hmin) Hn (o & Hp & Hd).
  unfold sameName in Hp. rewrite Hn in Hp.
  rewrite filter_app, filter_cons_True, filter_app, filter_cons_True in Hp by done.
  assert (Hfin : f ∈ l1 ++ a :: l2 ++ b :: l3).
  { eapply (list_elem_of_filter (fun g => name g = nm)).
    rewrite filter_app, filter_cons_True, filter_app, filter_cons_True by done.
    rewrite Hp. left. }
  assert (Hfa : depth a <= depth f).
  { apply Hmin; [by apply list_elem_of_In | done]. }
  rewrite Forall_forall in Hd.
  rewrite <- Permutation_middle in Hp.
  assert (Ha' : a ∈ f :: o) by (rewrite <- Hp; left).
  apply elem_of_cons in Ha' as [->|Ha'].
  - apply Permutation_cons_inv in Hp.
    assert (Hb' : b ∈ o).
    { rewrite <- Hp. apply elem_of_app. right. apply elem_of_app. right. left. }
    specialize (Hd _ Hb'). lia.
  - specialize (Hd _ Ha'). lia.
Qed.

Lemma collidesOn_perm nm l l' : l ≡ₚ l' -> collidesOn nm l -> collidesOn nm l'.
Proof. unfold collidesOn, sameName. by intros ->. Qed.

Section Resolve.
Variables (ov eod : bool) (t : rtype) (fields : list fieldDescription)
          (sd0 : structDescription).

Lemma resolveFields_outcome :
  (exists sd', dominanceLoop (length (sortSlice nameLess fields)) ov eod t
                 (sortSlice nameLess fields) sd0 = Ok sd'
               /\ resolveFields ov eod t fields sd0
                  = Ok {| fm := fm sd'; fl := sortSlice byIndexLess (fl sd');
                          inlineMap := inlineMap sd';
                          inlineFlag := inlineFlag sd' |})
  \/ (exists key, resolveFields ov eod t fields sd0
                  = Err (duplicatedKeyError t key)).
Proof.
  unfold resolveFields.
  destruct (dominanceLoop_outcome t ov eod
              (length (sortSlice nameLess fields))
              (sortSlice nameLess fields) sd0) as [(sd' & ->)|(key & ->)];
    [done| |].
  - left. by exists sd'.
  - right. by exists key.
Qed.

Lemma resolveFields_tied nm :
  tiedAtShortest nm fields ->
  exists key, resolveFields ov eod t fields sd0 = Err (duplicatedKeyError t key).
Proof.
  intros Htie.
  destruct resolveFields_outcome as [(sd' & Hrun & _)|Herr]; [|done].
  exfalso.
  apply dominanceLoop_ok_inv in Hrun as [Hdom _];
    [|apply sortSlice_nameLess_sorted].
  destruct Htie as (l1 & a & l2 & b & l3 & Hl & Ha & Hb & Hab & Hmin).
  destruct (Hdom a) as (f & Hn & Hf).
  { rewrite sortSlice_perm, Hl. set_solver. }
  eapply (tiedAtShortest_not_dominated nm fields f).
  - by exists l1, a, l2, b, l3.
  - congruence.
  - eapply dominatesF_perm; [|exact Hf]. apply sortSlice_perm.
Qed.

Lemma resolveFields_strict nm :
  collidesOn nm fields -> ov = false \/ eod = true ->
  exists key, resolveFields ov eod t fields sd0 = Err (duplicatedKeyError t key).
Proof.
  intros Hc Hflags.
  destruct resolveFields_outcome as [(sd' & Hrun & _)|Herr]; [|done].
  exfalso.
  apply dominanceLoop_ok_inv in Hrun as [_ Hcol];
    [|apply sortSlice_nameLess_sorted].
  destruct (Hcol nm) as [-> ->].
  - eapply collidesOn_perm; [|exact Hc]. symmetry. apply sortSlice_perm.
  - by destruct Hflags.
Qed.

Lemma resolveFields_dominated :
  ov = true -> eod = false ->
  (forall g, In g fields -> exists f, name f = name g /\ dominates f fields) ->
  exists sd,
    resolveFields ov eod t fields sd0 = Ok sd
    /\ inlineMap sd = inlineMap sd0 /\ inlineFlag sd = inlineFlag sd0
    /\ (forall f, In f (fl sd) <-> In f (fl sd0) \/ dominates f fields)
    /\ (forall f, dominates f fields -> fm sd !! name f = Some f).
Proof.
  intros -> -> Hdom. unfold resolveFields.
  destruct (dominanceLoop_ok t (length (sortSlice nameLess fields))
              (sortSlice nameLess fields) sd0)
    as (sd' & -> & Him & Hif & Hfl & Hfm & _).
  { done. }
  { apply sortSlice_nameLess_sorted. }
  { intros g Hg. rewrite sortSlice_perm in Hg.
    destruct (Hdom g) as (f & Hn & Hf); [by apply list_elem_of_In|].
    exists f. split; [done|].
    eapply dominatesF_perm; [symmetry; apply sortSlice_perm|].
    by apply dominates_dominatesF. }
  eexists. split; [done|]. cbn. split; [done|]. split; [done|]. split.
  - intros f. rewrite <- !list_elem_of_In, sortSlice_perm, Hfl.
    rewrite dominates_dominatesF.
    split; (intros [?|Hf]; [by left|right]);
      (eapply dominatesF_perm; [|exact Hf]);
      [apply sortSlice_perm | symmetry; apply sortSlice_perm].
  - intros f Hf. apply Hfm.
    eapply dominatesF_perm; [symmetry; apply sortSlice_perm|].
    by apply dominates_dominatesF.
Qed.
End Resolve.

Lemma dominates_In f l : dominates f l -> In f l.
Proof. intros (l1 & l2 & -> & _). apply in_elt. Qed.

Lemma dominates_unique f f' l :
  name f = name f' -> dominates f l -> dominates f' l -> f = f'.
Proof.
  rewrite !dominates_dominatesF. apply dominatesF_unique.
Qed.

(** ** Descriptor construction *)

Section DescribeFacts.
Variable parseStructTags parseJSONStructTags : StructField rtype -> result structTags.

Lemma collectFields_keeps_fm_fl inl r t useJSON : forall sfs i sc sd fields sc1 sd1 fields1,
  collectFields parseStructTags parseJSONStructTags inl r t useJSON
    sfs i sc sd fields = (sc1, Ok (sd1, fields1)) ->
  fm sd1 = fm sd /\ fl sd1 = fl sd.
Proof.
  induction sfs as [|sf rest IH]; intros i sc sd fields sc1 sd1 fields1 H.
  - simpl in H. by injection H as _ <- _.
  - simpl in H.
    destruct (negb (String.eqb (sfPkgPath sf) "")
              && (negb (allowUnexportedFields sc) || negb (sfAnonymous sf))).
    { by eapply IH. }
    destruct (if useJSON then parseJSONStructTags sf else parseStructTags sf)
      as [stags|e|m]; try done.
    destruct (Skip stags); [by eapply IH|].
    destruct (Inline stags).
    + destruct (sfType sf) as [| | |elem| | | |] eqn:Hty; try done.
      * destruct elem; try done.
        destruct (inl sc _) as [sc' [inlinesf|e|m]]; try done.
        apply IH in H. by simpl in H.
      * destruct (0 <=? inlineMap sd)%Z; [done|].
        destruct (negb (rtype_eqb _ tString)); [done|].
        apply IH in H. by simpl in H.
      * destruct (inl sc _) as [sc' [inlinesf|e|m]]; try done.
        apply IH in H. by simpl in H.
    + by eapply IH.
Qed.

Lemma describeStructSlow_flattened sc r t useJSON eod :
  describeStructSlow parseStructTags parseJSONStructTags sc r t useJSON eod
  = match flattenedFields parseStructTags parseJSONStructTags sc r t useJSON eod with
    | (sc1, Ok (sd, fields)) =>
        (sc1, resolveFields (overwriteDuplicatedInlinedFields sc1) eod t fields sd)
    | (sc1, Err e) => (sc1, Err e)
    | (sc1, Panic m) => (sc1, Panic m)
    end.
Proof. by destruct t. Qed.

Lemma flattenedFields_empty sc r t useJSON eod sc1 sd0 fields :
  flattenedFields parseStructTags parseJSONStructTags sc r t useJSON eod
  = (sc1, Ok (sd0, fields)) ->
  fm sd0 = ∅ /\ fl sd0 = [].
Proof.
  destruct t; try done. simpl. intros H.
  by apply collectFields_keeps_fm_fl in H.
Qed.

(** C1 (as amended).  Let [fields] be the flattened field list of the struct
    type [t].  If two entries of one document name tie at the shortest depth,
    [describeStructSlow] fails with a duplicate-key error.  If every entry
    has, among the entries of its name, one that is strictly shallower than
    all the others, then construction succeeds when
    [overwriteDuplicatedInlinedFields] is set and [errorOnDuplicates] is
    not: the shallower field is the one in [fm] and in [fl], and no other
    entry of its name is in [fm] or in [fl].  When two entries share a name
    and the codec does not overwrite duplicates, or errors on them,
    construction fails with a duplicate-key error. *)
Theorem describeStructSlow_dominance sc r t useJSON eod sc1 sd0 fields :
  flattenedFields parseStructTags parseJSONStructTags sc r t useJSON eod
  = (sc1, Ok (sd0, fields)) ->
  ((exists nm, tiedAtShortest nm fields) ->
   exists key,
     describeStructSlow parseStructTags parseJSONStructTags sc r t useJSON eod
     = (sc1, Err (duplicatedKeyError t key)))
  /\ ((forall g, In g fields -> exists f, name f = name g /\ dominates f fields) ->
      overwriteDuplicatedInlinedFields sc1 = true -> eod = false ->
      exists sd,
        describeStructSlow parseStructTags parseJSONStructTags sc r t useJSON eod
        = (sc1, Ok sd)
        /\ forall f, dominates f fields ->
             fm sd !! name f = Some f /\ In f (fl sd)
             /\ forall g, In g fields -> name g = name f -> g <> f ->
                  ~ In g (fl sd) /\ fm sd !! name g <> Some g)
  /\ ((exists nm, collidesOn nm fields) ->
      overwriteDuplicatedInlinedFields sc1 = false \/ eod = true ->
      exists key,
        describeStructSlow parseStructTags parseJSONStructTags sc r t useJSON eod
        = (sc1, Err (duplicatedKeyError t key))).
Proof.
  intros Hflat. rewrite describeStructSlow_flattened, Hflat.
  destruct (flattenedFields_empty _ _ _ _ _ _ _ _ Hflat) as [Hfm Hfl].
  split; [|split].
  - intros [nm Htie].
    destruct (resolveFields_tied (overwriteDuplicatedInlinedFields sc1) eod t
                fields sd0 nm Htie) as [key ->].
    by exists key.
  - intros Hdom Hov Heod.
    destruct (resolveFields_dominated (overwriteDuplicatedInlinedFields sc1) eod t
                fields sd0 Hov Heod Hdom) as (sd & -> & _ & _ & Hin & Hlook).
    exists sd. split; [done|]. intros f Hf.
    split; [by apply Hlook|]. split; [apply Hin; by right|].
    intros g Hg Hn Hne. split.
    + intros Hgl. apply Hin in Hgl as [Hgl|Hgd]; [by rewrite Hfl in Hgl|].
      apply Hne. by eapply dominates_unique.
    + rewrite Hn, (Hlook f Hf). congruence.
  - intros [nm Hc] Hflags.
    destruct (resolveFields_strict (overwriteDuplicatedInlinedFields sc1) eod t
                fields sd0 nm Hc Hflags) as [key ->].
    by exists key.
Qed.
End DescribeFacts.

Lemma outerFields_flattened eod :
  flattenedFields exampleParseTags exampleParseTags exampleCodec exampleRegistry
    tOuter false eod
  = (fst (flattenedFields exampleParseTags exampleParseTags exampleCodec
            exampleRegistry tOuter false eod),
     Ok (outerPending, outerFields)).
Proof.
  apply injective_projections; [reflexivity|].
  by destruct eod; vm_compute.
Qed.

Lemma outerFields_dominated g :
  In g outerFields -> exists f, name f = name g /\ dominates f outerFields.
Proof.
  intros [<-|[<-|[<-|[]]]].
  - exists outerA. split; [done|]. exists [], [outerB; outerC]. split; [done|].
    intros g [<-|[<-|[]]]; cbn; [lia | done].
  - exists outerA. split; [done|]. exists [], [outerB; outerC]. split; [done|].
    intros g [<-|[<-|[]]]; cbn; [lia | done].
  - exists outerC. split; [done|]. exists [outerA; outerB], []. split; [done|].
    intros g [<-|[<-|[]]]; cbn; done.
Qed.

Lemma outerA_dominates : dominates outerA outerFields.
Proof.
  exists [], [outerB; outerC]. split; [done|].
  intros g [<-|[<-|[]]]; cbn; [lia | done].
Qed.

(** The claim C1 as stated fails on [Outer] when the caller asks for an
    error on duplicates: the name [x] occurs at depth 0 and at depth 2, one
    field is strictly shallower, and construction fails. *)
Lemma describeStructSlow_dominance_counterexample :
  snd (flattenedFields exampleParseTags exampleParseTags exampleCodec
         exampleRegistry tOuter false true)
  = Ok (outerPending, outerFields)
  /\ dominates outerA outerFields
  /\ depth outerA < depth outerB
  /\ snd (describeStructSlow exampleParseTags exampleParseTags exampleCodec
            exampleRegistry tOuter false true)
     = Err (duplicatedKeyError tOuter "x").
Proof.
  split; [by rewrite outerFields_flattened|].
  split; [apply outerA_dominates|].
  split; [cbn; lia|].
  by vm_compute.
Qed.

(** On [Outer], under the permissive policy: the field at depth 0 is kept
    for the name [x], the inlined one is dropped. *)
Lemma describeStructSlow_dominance_witness :
  exists sd,
    snd (describeStructSlow exampleParseTags exampleParseTags exampleCodec
           exampleRegistry tOuter false false) = Ok sd
    /\ fm sd !! "x" = Some outerA
    /\ In outerA (fl sd) /\ ~ In outerB (fl sd).
Proof.
  destruct (describeStructSlow_dominance exampleParseTags exampleParseTags
              exampleCodec exampleRegistry tOuter false false _ _ _
              (outerFields_flattened false)) as (_ & Hok & _).
  destruct Hok as (sd & Hrun & Hkept).
  - apply outerFields_dominated.
  - by vm_compute.
  - reflexivity.
  - exists sd. rewrite Hrun. split; [done|].
    destruct (Hkept outerA outerA_dominates) as (Hfm & Hfl & Hothers).
    split; [exact Hfm|]. split; [exact Hfl|].
    apply (Hothers outerB); [right; by left | done | discriminate].
Defined.

(** ** The emptiness test *)

Section EmptinessFacts.
Variable implementsZeroer : rtype -> bool.
Variable zeroerIsZero : rvalue -> bool.
Variable timeIsZero : rvalue -> bool.

Local Abbreviation isEmptyData' :=
  (isEmptyData implementsZeroer zeroerIsZero timeIsZero).
Local Abbreviation emptinessSpec' :=
  (emptinessSpec implementsZeroer zeroerIsZero timeIsZero).

Lemma isZeroValue_zero d t :
  typeOf d = Some t ->
  match d with
  | VBasic _ _ _ | VIface _ _ | VPtr _ _ => isZeroValue d = true <-> d = Zero t
  | _ => True
  end.
Proof.
  destruct d as [|k n z|n s|n [x|]|e [x|]|e o|e l|k e o|n sfs fs]; try done;
    intros [= <-]; simpl; try (split; congruence).
  rewrite Z.eqb_eq. split; congruence.
Qed.

Lemma isEmptyData_spec ozs : forall d sticky embed,
  plain implementsZeroer d sticky embed = true ->
  isEmptyData' d sticky embed ozs = Ok (emptinessSpec' d ozs).
Proof.
  induction d as [|k n z|n s|n dyn _|e tgt _|e o|e l _|k e o|n sfs fs IH]
    using rvalue_nested_ind; intros sticky embed Hplain; try done;
    cbn -[rtype_eqb tTime] in Hplain |- *; unfold reportsOwnZero in *;
    cbn -[rtype_eqb tTime] in Hplain |- *.
  - destruct (implementsZeroer _); [|done].
    by apply negb_true_iff in Hplain as ->.
  - destruct (implementsZeroer _); [|done].
    by apply negb_true_iff in Hplain as ->.
  - destruct dyn as [x|].
    + destruct (implementsZeroer _); [|done].
      by apply negb_true_iff in Hplain as ->.
    + by destruct (implementsZeroer _).
  - destruct tgt; [|done].
    destruct (implementsZeroer _); [|done].
    by apply negb_true_iff in Hplain as ->.
  - destruct (implementsZeroer _); [|by destruct o].
    by apply negb_true_iff in Hplain as ->.
  - destruct (implementsZeroer _); [|done].
    by apply negb_true_iff in Hplain as ->.
  - destruct (implementsZeroer _); [|by destruct o].
    by apply negb_true_iff in Hplain as ->.
  - destruct (implementsZeroer _).
    { by apply negb_true_iff in Hplain as ->. }
    destruct ozs; [|done]. cbn -[rtype_eqb tTime].
    destruct (rtype_eqb _ tTime).
    { by apply negb_true_iff in Hplain as ->. }
    apply andb_prop in Hplain as [Hlen Hplain].
    apply Nat.eqb_eq in Hlen.
    clear n. revert sfs Hlen Hplain.
    induction IH as [|f fs Hf _ IHfs]; intros [|ff sfs] Hlen Hplain; try done.
    apply andb_prop in Hplain as [Hpf Hrest].
    injection Hlen as Hlen.
    unfold visible in *.
    destruct (unexported ff) eqn:Hun, (sfAnonymous ff) eqn:Han;
      cbn -[rtype_eqb tTime] in Hpf |- *.
    + rewrite (Hf _ _ Hpf). cbn.
      destruct (emptinessSpec' f true); cbn; [by apply IHfs|done].
    + by apply IHfs.
    + rewrite (Hf _ _ Hpf). cbn.
      destruct (emptinessSpec' f true); cbn; [by apply IHfs|done].
    + rewrite (Hf _ _ Hpf). cbn.
      destruct (emptinessSpec' f true); cbn; [by apply IHfs|done].
Qed.

End EmptinessFacts.



(** An embedded field of an unexported type is looked at: the struct below
    has its only exported field at zero and is not empty. *)
Example isEmpty_embedded_unexported :
  isEmpty exampleImplementsZeroer exampleZeroerIsZero exampleTimeIsZero
    wrapperValue true = Ok false.
Proof. reflexivity. Qed.

(** ** The recursive zero builder *)

Lemma Field_newIndirect n sfs pre sf rest :
  sfs = pre ++ sf :: rest ->
  Field (newIndirect (TStruct n sfs)) (length pre)
  = Ok {| data := Zero (sfType sf);
          flagStickyRO := unexported sf && negb (sfAnonymous sf);
          flagEmbedRO := unexported sf && sfAnonymous sf;
          flagAddr := true |}.
Proof.
  intros ->. unfold Field, newIndirect. cbn [data Zero].
  rewrite list_lookup_middle by done.
  rewrite map_app. cbn [map].
  rewrite list_lookup_middle by (by rewrite length_map).
  done.
Qed.

(** [deepZero] on a struct type: it panics at the first exported field of
    struct kind; without such a field it returns the plain zero value of the
    type, or the zero [Value] when the type has no field.  No pointer is
    ever allocated. *)
Lemma deepZero_struct n sfs :
  deepZero (TStruct n sfs)
  = match filter (fun sf => exportedStruct sf = true) sfs with
    | sf :: _ => Panic ("reflect: Elem of invalid type " +:+ typeString (sfType sf))
    | [] =>
        match sfs with
        | [] => Ok emptyValue
        | _ :: _ => Ok (newIndirect (TStruct n sfs))
        end
    end.
Proof.
  cbn [deepZero].
  set (loop := fix fieldsLoop (rest : list (StructField rtype)) (i : nat)
                   (result0 : Value) {struct rest} : result Value := _).
  assert (Hloop : forall rest pre result0,
             sfs = pre ++ rest ->
             (result0 = newIndirect (TStruct n sfs)
              \/ (pre = [] /\ result0 = emptyValue)) ->
             loop rest (length pre) result0
             = match filter (fun sf => exportedStruct sf = true) rest with
               | sf :: _ =>
                   Panic ("reflect: Elem of invalid type " +:+ typeString (sfType sf))
               | [] =>
                   match rest with
                   | [] => Ok result0
                   | _ :: _ => Ok (newIndirect (TStruct n sfs))
                   end
               end).
  { induction rest as [|sf rest IH]; intros pre result0 Hsfs Hres; [done|].
    cbn [loop].
    assert (Hr1 : (if negb (IsValid result0) then newIndirect (TStruct n sfs)
                   else result0) = newIndirect (TStruct n sfs)).
    { destruct Hres as [->|[_ ->]]; [|done].
      unfold IsValid, newIndirect. by cbn [data Zero]. }
    rewrite Hr1, (Field_newIndirect n sfs pre sf rest Hsfs).
    cbn [mbind result_bind]. unfold CanInterface, IsValid. cbn [data].
    assert (Hv : match Zero (sfType sf) with VInvalid => false | _ => true end = true)
      by (by destruct (sfType sf)).
    rewrite Hv. unfold flagRO. cbn [mbind result_bind flagStickyRO flagEmbedRO].
    replace (negb (unexported sf && negb (sfAnonymous sf)
                   || unexported sf && sfAnonymous sf))
      with (negb (unexported sf))
      by (by destruct (unexported sf), (sfAnonymous sf)).
    fold (exportedStruct sf).
    destruct (exportedStruct sf) eqn:Hes.
    - rewrite filter_cons_True by done.
      apply andb_prop in Hes as [_ Hk].
      destruct (sfType sf) as [k0 ?| | | | | | |]; try done.
    - rewrite filter_cons_False by (by rewrite not_true_iff_false).
      specialize (IH (pre ++ [sf]) (newIndirect (TStruct n sfs))).
      rewrite length_app, Nat.add_1_r in IH.
      rewrite IH; [|by rewrite <- app_assoc|by left].
      destruct (filter _ rest); [|done]. by destruct rest. }
  pose proof (Hloop sfs [] emptyValue eq_refl
                (or_intror (conj eq_refl eq_refl))) as Hrun.
  cbn [length] in Hrun. rewrite Hrun.
  destruct (filter _ sfs); [|done]. by destruct sfs.
Qed.

(** C3, on the code.  [WithPointer] has a field that is a pointer to a
    struct: [deepZero] returns the plain zero value, in which that pointer
    is nil.  [WithStruct] has an exported field of struct kind: [deepZero]
    panics, because [Elem] is asked of a struct type.  In deep-zero-inline
    mode the pre-pass of [DecodeValue] on a struct with an inlined pointer
    therefore leaves that pointer nil. *)
Theorem deepZero_allocates_nothing :
  deepZero tWithPointer = Ok (newIndirect tWithPointer)
  /\ (f ← Field (newIndirect tWithPointer) 0; IsNil f) = Ok true
  /\ deepZero tWithStruct = Panic "reflect: Elem of invalid type Inner"
  /\ (DecodeValue exampleParseTags exampleParseTags (exampleDecoders 2)
        asciiToLower deepZeroCodec exampleDecodeContext (TopLevelReader []) inlinePointerValue).1.2
     = VStruct "InlinePointer" inlinePointerFields [VPtr tInner None].
Proof. repeat split; by vm_compute. Qed.

(** ** The decode traversal *)

Section DecodeFacts.
Variable parseStructTags parseJSONStructTags : StructField rtype -> result structTags.
Variable runDecoder :
  ValueDecoder -> structCodec -> DecodeContext -> ValueReader -> Value
  -> structCodec * rvalue * result unit.
Variable ToLower : string -> string.

Local Abbreviation DecodeValue' :=
  (DecodeValue parseStructTags parseJSONStructTags runDecoder ToLower).
Local Abbreviation decodePrologue' :=
  (decodePrologue parseStructTags parseJSONStructTags).

(** C4.  On a settable struct destination, whatever it holds, and a source
    whose value is null or undefined, [DecodeValue] returns before the
    descriptor is looked up and before any element is read: the destination
    is the zero value of its type, the outcome is success, and the codec is
    unchanged. *)
Theorem DecodeValue_null sc dc vr val :
  CanSet val = true ->
  ValueKind val = reflect.Struct ->
  vrType vr = TypeNull \/ vrType vr = TypeUndefined ->
  exists t,
    typeOf (data val) = Some t
    /\ decodePrologue' sc dc vr val = Done sc (Zero t) (Ok tt)
    /\ DecodeValue' sc dc vr val = (sc, Zero t, Ok tt).
Proof.
  intros Hset Hkind Hty.
  unfold DecodeValue, decodePrologue. rewrite Hset, Hkind. cbn [negb orb].
  unfold ValueKind, kindOf, ValueType in *.
  destruct (typeOf (data val)) as [t|]; [|done].
  exists t. split; [done|].
  destruct vr as [elems|[]]; destruct Hty as [Hty|Hty]; try done.
Qed.
End DecodeFacts.

(** A populated [Catch] and a null value. *)
Lemma DecodeValue_null_witness :
  DecodeValue exampleParseTags exampleParseTags (exampleDecoders 2)
    asciiToLower exampleCodec exampleDecodeContext (ElementReader BNull) catchValue
  = (exampleCodec, Zero tCatch, Ok tt).
Proof.
  destruct (DecodeValue_null exampleParseTags exampleParseTags
              (exampleDecoders 2) asciiToLower exampleCodec exampleDecodeContext
              (ElementReader BNull) catchValue eq_refl eq_refl
              (or_introl eq_refl)) as (t & Ht & _ & Hrun).
  injection Ht as <-. exact Hrun.
Defined.

(** ** The encode traversal *)

Section EncodeFacts.
Variable parseStructTags parseJSONStructTags : StructField rtype -> result structTags.
Variable implementsZeroer : rtype -> bool.
Variable zeroerIsZero : rvalue -> bool.
Variable timeIsZero : rvalue -> bool.
Variable lookupElementEncoder :
  EncodeContext -> option ValueEncoder -> Value
  -> option ValueEncoder * Value * option error.
Variable runEncoder :
  ValueEncoder -> structCodec -> EncodeContext -> Value
  -> structCodec * result bvalue.
Variable encodeMapElements :
  nat -> EncodeContext -> Value -> (string -> bool)
  -> result (list (string * bvalue)).

Local Abbreviation encodeField' :=
  (encodeField implementsZeroer zeroerIsZero timeIsZero lookupElementEncoder
     runEncoder).
Local Abbreviation encodeFields' :=
  (encodeFields implementsZeroer zeroerIsZero timeIsZero lookupElementEncoder
     runEncoder).
Local Abbreviation fieldEmpty' :=
  (fieldEmpty implementsZeroer zeroerIsZero timeIsZero).

Lemma encodeFields_app ec val : forall pre post sc dw,
  encodeFields' sc ec val (pre ++ post) dw
  = match encodeFields' sc ec val pre dw with
    | (sc', Ok dw') => encodeFields' sc' ec val post dw'
    | (sc', Err e) => (sc', Err e)
    | (sc', Panic m) => (sc', Panic m)
    end.
Proof.
  induction pre as [|desc pre IH]; intros post sc dw; [done|].
  cbn [app encodeFields].
  destruct (encodeField' sc ec val desc) as [sc' [|v|e|m]]; by try apply IH.
Qed.

Lemma encodeFields_appends ec val : forall descs sc dw sc' dw',
  encodeFields' sc ec val descs dw = (sc', Ok dw') ->
  exists out, dw' = dw ++ out.
Proof.
  induction descs as [|desc rest IH]; intros sc dw sc' dw' H.
  - cbn in H. injection H as _ <-. exists []. by rewrite app_nil_r.
  - cbn [encodeFields] in H.
    destruct (encodeField' sc ec val desc) as [sc1 [|v|e|m]]; try done.
    + by apply IH in H.
    + apply IH in H as (out & ->). exists ((name desc, v) :: out).
      by rewrite <- app_assoc.
Qed.

Local Abbreviation EncodeValue' :=
  (EncodeValue parseStructTags parseJSONStructTags implementsZeroer zeroerIsZero
     timeIsZero lookupElementEncoder runEncoder encodeMapElements).

(** [EncodeValue] on a struct, once its descriptor is there: the loop over
    [sd.fl], then the inline map. *)
Lemma EncodeValue_described sc ec val t sc0 sd :
  IsValid val = true ->
  reflect.Kind_eqb (ValueKind val) reflect.Struct = true ->
  ValueType val = Ok t ->
  describeStruct parseStructTags parseJSONStructTags sc (ec_Registry ec) t
    (ec_useJSONStructTags ec) (ec_errorOnInlineDuplicates ec) = (sc0, Ok sd) ->
  EncodeValue' sc ec val
  = finishDocument encodeMapElements sd ec val
      (encodeFields' sc0 ec val (fl sd) []).
Proof.
  intros Hvalid Hkind Ht Hsd. unfold EncodeValue, finishDocument.
  rewrite Hvalid, Hkind, Ht, Hsd. cbn [negb orb].
  by destruct (encodeFields' sc0 ec val (fl sd) []) as [sc2 [dw|e|m]].
Qed.

(** [EncodeValue] when its loop has reached the description [desc]: the
    iteration for [desc], then the fields that follow, then the inline
    map. *)
Lemma EncodeValue_at_field sc ec val t sc0 sd pre desc post sc1 dw1 :
  IsValid val = true ->
  reflect.Kind_eqb (ValueKind val) reflect.Struct = true ->
  ValueType val = Ok t ->
  describeStruct parseStructTags parseJSONStructTags sc (ec_Registry ec) t
    (ec_useJSONStructTags ec) (ec_errorOnInlineDuplicates ec) = (sc0, Ok sd) ->
  fl sd = pre ++ desc :: post ->
  encodeFields' sc0 ec val pre [] = (sc1, Ok dw1) ->
  EncodeValue' sc ec val
  = match encodeField' sc1 ec val desc with
    | (sc', Skipped) =>
        finishDocument encodeMapElements sd ec val
          (encodeFields' sc' ec val post dw1)
    | (sc', Written v) =>
        finishDocument encodeMapElements sd ec val
          (encodeFields' sc' ec val post (dw1 ++ [(name desc, v)]))
    | (sc', Failed e) => (sc', Err e)
    | (sc', Panicked m) => (sc', Panic m)
    end.
Proof.
  intros Hvalid Hkind Ht Hsd Hfl Hpre.
  rewrite (EncodeValue_described _ _ _ _ _ _ Hvalid Hkind Ht Hsd), Hfl.
  rewrite encodeFields_app, Hpre. cbn [encodeFields].
  by destruct (encodeField' sc1 ec val desc) as [sc' [|v|e|m]].
Qed.

(** C8.  Let the loop of [EncodeValue] over the fields of the descriptor
    reach a field for whose value the encoder lookup reports that there is
    no concrete value.  If the field is treated as omitEmpty (its own tag,
    or the option of the context) nothing is written for it; otherwise a
    null element is written under the document name of the field.  In both
    cases [EncodeValue] goes on with the fields that follow and with the
    inline map: the condition is not an error of [EncodeValue], and when
    the fields that follow succeed and there is no inline map,
    [EncodeValue] returns the document of the elements written before the
    field, the null element if the field is not omitted, and the elements
    of the fields that follow. *)
Theorem EncodeValue_no_concrete_value
  sc ec val t sc0 sd pre desc post sc1 dw1 rv enc rv' e :
  IsValid val = true ->
  reflect.Kind_eqb (ValueKind val) reflect.Struct = true ->
  ValueType val = Ok t ->
  describeStruct parseStructTags parseJSONStructTags sc (ec_Registry ec) t
    (ec_useJSONStructTags ec) (ec_errorOnInlineDuplicates ec) = (sc0, Ok sd) ->
  fl sd = pre ++ desc :: post ->
  encodeFields implementsZeroer zeroerIsZero timeIsZero lookupElementEncoder
    runEncoder sc0 ec val pre [] = (sc1, Ok dw1) ->
  encodeFieldValue val desc = Ok rv ->
  lookupElementEncoder ec (encoder desc) rv = (enc, rv', Some e) ->
  isErrInvalidValue e = true ->
  let dw := if ec_omitEmpty ec || omitEmpty desc then dw1
            else dw1 ++ [(name desc, BNull)] in
  EncodeValue parseStructTags parseJSONStructTags implementsZeroer zeroerIsZero
    timeIsZero lookupElementEncoder runEncoder encodeMapElements sc ec val
  = finishDocument encodeMapElements sd ec val
      (encodeFields implementsZeroer zeroerIsZero timeIsZero
         lookupElementEncoder runEncoder sc1 ec val post dw)
  /\ forall sc2 dw2,
       encodeFields implementsZeroer zeroerIsZero timeIsZero
         lookupElementEncoder runEncoder sc1 ec val post dw = (sc2, Ok dw2) ->
       (inlineMap sd < 0)%Z ->
       EncodeValue parseStructTags parseJSONStructTags implementsZeroer
         zeroerIsZero timeIsZero lookupElementEncoder runEncoder
         encodeMapElements sc ec val
       = (sc2, Ok (BDocument dw2))
       /\ exists out, dw2 = dw ++ out.
Proof.
  intros Hvalid Hkind Ht Hsd Hfl Hpre Hrv Hlook Hinv dw.
  assert (Hstep : encodeField' sc1 ec val desc
                  = (sc1, if ec_omitEmpty ec || omitEmpty desc
                          then Skipped else Written BNull)).
  { unfold encodeField. rewrite Hrv, Hlook, Hinv. cbn [negb].
    by destruct (ec_omitEmpty ec), (omitEmpty desc). }
  assert (Hrun : EncodeValue' sc ec val
                 = finishDocument encodeMapElements sd ec val
                     (encodeFields' sc1 ec val post dw)).
  { rewrite (EncodeValue_at_field _ _ _ _ _ _ _ _ _ _ _
               Hvalid Hkind Ht Hsd Hfl Hpre), Hstep.
    unfold dw. by destruct (ec_omitEmpty ec || omitEmpty desc). }
  split; [exact Hrun|].
  intros sc2 dw2 Hpost Hno. split.
  - rewrite Hrun, Hpost. cbn [finishDocument].
    by replace (0 <=? inlineMap sd)%Z with false
      by (symmetry; apply Z.leb_gt; lia).
  - by eapply encodeFields_appends.
Qed.

(** C9 (as amended).  Let the omit-empty option of the context be set, and
    let the loop of [EncodeValue] reach a field.  The field is handled as if
    its description were tagged omitEmpty, whatever its own tag says: if it
    holds no concrete value, or if an encoder is resolved for it and its
    value is empty, nothing is written for it and [EncodeValue] goes on with
    the fields that follow.  If no encoder is resolved for it,
    [EncodeValue] fails with the no-encoder error, whether the value is
    empty or not. *)
Theorem EncodeValue_omitEmpty_option
  sc ec val t sc0 sd pre desc post sc1 dw1 rv enc rv' err :
  ec_omitEmpty ec = true ->
  IsValid val = true ->
  reflect.Kind_eqb (ValueKind val) reflect.Struct = true ->
  ValueType val = Ok t ->
  describeStruct parseStructTags parseJSONStructTags sc (ec_Registry ec) t
    (ec_useJSONStructTags ec) (ec_errorOnInlineDuplicates ec) = (sc0, Ok sd) ->
  fl sd = pre ++ desc :: post ->
  encodeFields implementsZeroer zeroerIsZero timeIsZero lookupElementEncoder
    runEncoder sc0 ec val pre [] = (sc1, Ok dw1) ->
  encodeFieldValue val desc = Ok rv ->
  lookupElementEncoder ec (encoder desc) rv = (enc, rv', err) ->
  encodeField implementsZeroer zeroerIsZero timeIsZero lookupElementEncoder
    runEncoder sc1 ec val desc
  = encodeField implementsZeroer zeroerIsZero timeIsZero lookupElementEncoder
      runEncoder sc1 ec val (withOmitEmpty desc true)
  /\ (forall e, err = Some e -> isErrInvalidValue e = true ->
      EncodeValue parseStructTags parseJSONStructTags implementsZeroer
        zeroerIsZero timeIsZero lookupElementEncoder runEncoder
        encodeMapElements sc ec val
      = finishDocument encodeMapElements sd ec val
          (encodeFields implementsZeroer zeroerIsZero timeIsZero
             lookupElementEncoder runEncoder sc1 ec val post dw1))
  /\ (forall encoder, err = None -> enc = Some encoder ->
      fieldEmpty implementsZeroer zeroerIsZero timeIsZero sc1 ec rv' = Ok true ->
      EncodeValue parseStructTags parseJSONStructTags implementsZeroer
        zeroerIsZero timeIsZero lookupElementEncoder runEncoder
        encodeMapElements sc ec val
      = finishDocument encodeMapElements sd ec val
          (encodeFields implementsZeroer zeroerIsZero timeIsZero
             lookupElementEncoder runEncoder sc1 ec val post dw1))
  /\ (forall ft, err = None -> enc = None -> ValueType rv' = Ok ft ->
      EncodeValue parseStructTags parseJSONStructTags implementsZeroer
        zeroerIsZero timeIsZero lookupElementEncoder runEncoder
        encodeMapElements sc ec val
      = (sc1, Err (errNoEncoder ft))).
Proof.
  intros Homit Hvalid Hkind Ht Hsd Hfl Hpre Hrv Hlook.
  pose proof (EncodeValue_at_field _ _ _ _ _ _ _ _ _ _ _
                Hvalid Hkind Ht Hsd Hfl Hpre) as Hrun.
  split; [|split; [|split]].
  - unfold encodeField, encodeFieldValue.
    cbn [inline idx encoder withOmitEmpty omitEmpty]. by rewrite Homit.
  - intros e -> Hinv. rewrite Hrun. unfold encodeField.
    by rewrite Hrv, Hlook, Hinv, Homit.
  - intros encoder -> -> Hempty. rewrite Hrun. unfold encodeField.
    by rewrite Hrv, Hlook, Hempty, Homit.
  - intros ft -> -> Hft. rewrite Hrun. unfold encodeField.
    by rewrite Hrv, Hlook, Hft.
Qed.
End EncodeFacts.

(** A [Holder] whose interface is nil and is not omitEmpty: [EncodeValue]
    returns the document with the null element. *)
Lemma EncodeValue_no_concrete_value_witness :
  snd (EncodeValue exampleParseTags exampleParseTags exampleImplementsZeroer
         exampleZeroerIsZero exampleTimeIsZero specLookupElementEncoder
         exampleEncoders exampleMapElements exampleCodec
         (exampleEncodeContext false) holderValue)
  = Ok (BDocument [("i", BNull)]).
Proof.
  destruct (describeStruct exampleParseTags exampleParseTags exampleCodec
              exampleRegistry (TStruct "Holder" holderFields) false false)
    as [sc0 [sd|e|m]] eqn:Hsd; [|by vm_compute in Hsd..].
  destruct (EncodeValue_no_concrete_value exampleParseTags exampleParseTags
              exampleImplementsZeroer exampleZeroerIsZero exampleTimeIsZero
              specLookupElementEncoder exampleEncoders exampleMapElements
              exampleCodec (exampleEncodeContext false) holderValue
              (TStruct "Holder" holderFields) sc0 sd [] holderDescription []
              sc0 [] (mkValue (VIface "interface {}" None) false false true)
              None emptyValue errInvalidValue
              eq_refl eq_refl eq_refl Hsd) as [_ Hdoc].
  - vm_compute in Hsd. by injection Hsd as _ <-.
  - reflexivity.
  - reflexivity.
  - reflexivity.
  - reflexivity.
  - destruct (Hdoc sc0 [("i", BNull)]) as [-> _]; [reflexivity| |reflexivity].
    vm_compute in Hsd. by injection Hsd as _ <-.
Defined.

(** The claim C9 as stated fails on a struct with a nil channel: the option
    of the context is set, the value of the field is empty under the
    emptiness test, and [EncodeValue] fails with the no-encoder error instead
    of skipping the field. *)
Lemma EncodeValue_omitEmpty_option_counterexample :
  ec_omitEmpty (exampleEncodeContext true) = true
  /\ (rv ← encodeFieldValue chanValue chanDescription;
      fieldEmpty exampleImplementsZeroer exampleZeroerIsZero exampleTimeIsZero
        exampleCodec (exampleEncodeContext true) rv) = Ok true
  /\ snd (EncodeValue exampleParseTags exampleParseTags exampleImplementsZeroer
            exampleZeroerIsZero exampleTimeIsZero specLookupElementEncoder
            exampleEncoders exampleMapElements exampleCodec
            (exampleEncodeContext true) chanValue)
     = Err (errNoEncoder tChanInt).
Proof. repeat split; by vm_compute. Qed.

(** The same [Holder] under the omit-empty option of the context:
    [EncodeValue] returns the empty document. *)
Lemma EncodeValue_omitEmpty_option_witness :
  snd (EncodeValue exampleParseTags exampleParseTags exampleImplementsZeroer
         exampleZeroerIsZero exampleTimeIsZero specLookupElementEncoder
         exampleEncoders exampleMapElements exampleCodec
         (exampleEncodeContext true) holderValue)
  = Ok (BDocument []).
Proof.
  destruct (describeStruct exampleParseTags exampleParseTags exampleCodec
              exampleRegistry (TStruct "Holder" holderFields) false false)
    as [sc0 [sd|e|m]] eqn:Hsd; [|by vm_compute in Hsd..].
  destruct (EncodeValue_omitEmpty_option exampleParseTags exampleParseTags
              exampleImplementsZeroer exampleZeroerIsZero exampleTimeIsZero
              specLookupElementEncoder exampleEncoders exampleMapElements
              exampleCodec (exampleEncodeContext true) holderValue
              (TStruct "Holder" holderFields) sc0 sd [] holderDescription []
              sc0 [] (mkValue (VIface "interface {}" None) false false true)
              None emptyValue (Some errInvalidValue)
              eq_refl eq_refl eq_refl eq_refl Hsd) as (_ & Hskip & _).
  - vm_compute in Hsd. by injection Hsd as _ <-.
  - reflexivity.
  - reflexivity.
  - reflexivity.
  - rewrite (Hskip errInvalidValue eq_refl eq_refl).
    vm_compute in Hsd. by injection Hsd as _ <-.
Defined.

Section DecodeLoopFacts.
Variable parseStructTags parseJSONStructTags : StructField rtype -> result structTags.
Variable runDecoder :
  ValueDecoder -> structCodec -> DecodeContext -> ValueReader -> Value
  -> structCodec * rvalue * result unit.
Variable ToLower : string -> string.

Local Abbreviation DecodeValue' :=
  (DecodeValue parseStructTags parseJSONStructTags runDecoder ToLower).
Local Abbreviation decodePrologue' :=
  (decodePrologue parseStructTags parseJSONStructTags).
Local Abbreviation decodeElements' := (decodeElements runDecoder ToLower).
Local Abbreviation decodeUnmatched' := (decodeUnmatched runDecoder).
Local Abbreviation decodeMatched' := (decodeMatched runDecoder).

Lemma decodeElements_app dc sd : forall pre post st,
  decodeElements' dc sd (pre ++ post) st
  = match decodeElements' dc sd pre st with
    | (st', Ok _) => decodeElements' dc sd post st'
    | (st', Err e) => (st', Err e)
    | (st', Panic m) => (st', Panic m)
    end.
Proof.
  induction pre as [|[nm v] pre IH]; intros post st; [done|].
  cbn [app decodeElements].
  destruct (match lookupField ToLower sd nm with
            | Some fd => decodeMatched' dc st fd (ElementReader v)
            | None => decodeUnmatched' dc sd st nm (ElementReader v)
            end) as [st'|st' e|st' m]; by try apply IH.
Qed.

(** The operations of [reflect] panic; they return no error. *)
Lemma Field_no_error v i e : Field v i <> Err e.
Proof.
  unfold Field. destruct (data v) as [| | | | | | | |n sfs fields]; try done.
  by destruct (sfs !! i), (fields !! i).
Qed.

Lemma IsNil_no_error v e : IsNil v <> Err e.
Proof.
  unfold IsNil, IsNilData.
  by destruct (data v) as [|[]| |? []|? []|? []| |? ? []|].
Qed.

Lemma ValueType_no_error v e : ValueType v <> Err e.
Proof. unfold ValueType. by destruct (typeOf _). Qed.

Lemma TypeElem_no_error t e : TypeElem t <> Err e.
Proof. by destruct t. Qed.

(** An error returned for an element that matches no field is an error the
    decoder in force returned, as it is. *)
Lemma decodeUnmatched_error dc sd st nm vr st' e :
  decodeUnmatched' dc sd st nm vr = ReturnErr st' e ->
  exists decoder elem sc' d,
    ds_decoder st = Some decoder
    /\ runDecoder decoder (ds_sc st) dc vr elem = (sc', d, Err e).
Proof.
  unfold decodeUnmatched, Skip_.
  destruct (inlineMap sd <? 0)%Z; [done|].
  destruct (Field (ds_val st) _) as [im|e0|] eqn:Hf; try done;
    [|by apply Field_no_error in Hf].
  cbn [mbind result_bind].
  destruct (IsNil im) as [isnil|e0|] eqn:Hn; try done;
    [|by apply IsNil_no_error in Hn].
  cbn [mbind result_bind].
  destruct (ValueType im) as [mt|e0|] eqn:Ht; try done;
    [|by apply ValueType_no_error in Ht].
  cbn [mbind result_bind].
  destruct (TypeElem mt) as [et|e0|] eqn:He; try done;
    [|by apply TypeElem_no_error in He].
  cbn [mbind result_bind].
  destruct (isnil && negb (CanSet im)); [done|].
  destruct (ds_decoder st) as [decoder|]; [|done].
  destruct (runDecoder decoder (ds_sc st) dc vr (newIndirect et))
    as [[sc' d] [u|e'|m]] eqn:Hrun; try done.
  - by destruct (flagRO im).
  - intros [= _ <-]. by exists decoder, (newIndirect et), sc', d.
Qed.

(** C10.  Let the loop of [DecodeValue] reach an element that matches no
    field of a descriptor with an inline map, neither by its name nor by
    the lower case [strings.ToLower] gives, and let the decoder in force
    fail on the value of that element.  Then [DecodeValue] returns the error
    of that decoder as it is.  In general, an error returned for an element
    that matches no field is an error a decoder returned, never one built by
    [newDecodeError]. *)
Theorem DecodeValue_unmatched_error_unwrapped
  sc dc vr val sd st0 elems pre nm v post st im isnil k et decoder sc' d e :
  decodePrologue' sc dc vr val = Proceed sd st0 elems ->
  elems = pre ++ (nm, v) :: post ->
  decodeElements' dc sd pre st0 = (st, Ok tt) ->
  lookupField ToLower sd nm = None ->
  (0 <= inlineMap sd)%Z ->
  Field (ds_val st) (Z.to_nat (inlineMap sd)) = Ok im ->
  typeOf (data im) = Some (TMap k et) ->
  IsNil im = Ok isnil ->
  (isnil = true -> CanSet im = true) ->
  ds_decoder st = Some decoder ->
  runDecoder decoder (ds_sc st) dc (ElementReader v) (newIndirect et)
  = (sc', d, Err e) ->
  (DecodeValue' sc dc vr val).2 = Err e
  /\ forall st1 nm1 vr1 st2 e1,
       decodeUnmatched' dc sd st1 nm1 vr1 = ReturnErr st2 e1 ->
       exists decoder1 elem sc1 d1,
         ds_decoder st1 = Some decoder1
         /\ runDecoder decoder1 (ds_sc st1) dc vr1 elem = (sc1, d1, Err e1).
Proof.
  intros Hpro -> Hpre Hlook Him Hfield Hty Hnil Hset Hdec Hrun.
  split; [|intros; by eapply decodeUnmatched_error].
  unfold DecodeValue. rewrite Hpro, decodeElements_app, Hpre.
  cbn [decodeElements]. rewrite Hlook.
  unfold decodeUnmatched.
  replace (inlineMap sd <? 0)%Z with false by (symmetry; apply Z.ltb_ge; lia).
  rewrite Hfield. cbn [mbind result_bind]. rewrite Hnil. cbn [mbind result_bind].
  unfold ValueType. rewrite Hty. cbn [mbind result_bind TypeElem].
  destruct isnil.
  - rewrite (Hset eq_refl). cbn [negb andb]. by rewrite Hdec, Hrun.
  - cbn [andb]. by rewrite Hdec, Hrun.
Qed.

(** A failure of the decoder of a field comes back with the document name
    of the field in front of its key path. *)
Lemma decodeMatched_wraps dc st fd vr field fdecoder sc' d e :
  inline fd = [] ->
  Field (ds_val st) (idx fd) = Ok field ->
  match data field with
  | VIface _ (Some (VPtr _ _)) | VPtr _ None => False
  | _ => True
  end ->
  CanSet field = true ->
  decoder fd = Some fdecoder ->
  runDecoder fdecoder (ds_sc st) (fieldDecodeContext dc fd) vr field
  = (sc', d, Err e) ->
  exists st',
    decodeMatched' dc st fd vr = ReturnErr st' (newDecodeError (name fd) e).
Proof.
  intros Hin Hfield Hshape Hset Hdec Hrun. unfold decodeMatched.
  rewrite Hin, Hfield, Hset, Hdec. cbn [negb].
  destruct (data field) as [| | |? [[| | | |? ?| | | |]|]|? [?|]| | | |] eqn:Hd;
    try done;
    (replace (withData field (data field)) with field in * by (by destruct field));
    rewrite ?Hrun; try (by eexists);
    replace {| data := _; flagStickyRO := _; flagEmbedRO := _; flagAddr := _ |}
      with field by (by destruct field; cbn in *; subst);
    rewrite ?Hrun; by eexists.
Qed.

(** In the branch for an interface that holds a pointer, the decoder that is
    looked up for the pointee is stored in the variable the inline map
    relies on. *)
Lemma decodeMatched_overwrites_decoder dc st fd vr field iname pelem d vt decoder :
  inline fd = [] ->
  Field (ds_val st) (idx fd) = Ok field ->
  data field = VIface iname (Some (VPtr pelem (Some d))) ->
  typeOf d = Some vt ->
  LookupDecoder (dc_Registry dc) vt = Ok decoder ->
  match decodeMatched' dc st fd vr with
  | Continue st' | ReturnErr st' _ | ReturnPanic st' _ =>
      ds_decoder st' = Some decoder
  end.
Proof.
  intros Hin Hfield Hdata Hty Hlook. unfold decodeMatched.
  rewrite Hin, Hfield, Hdata. unfold ValueType. cbn [data mbind result_bind].
  rewrite Hty. cbn [mbind result_bind]. rewrite Hlook.
  by destruct (runDecoder decoder _ dc vr _) as [[sc' d'] [u|e|m]].
Qed.
End DecodeLoopFacts.

(** *** Key paths *)

Lemma KeysFrom_app keys k : forall n,
  n <= length keys -> KeysFrom (keys ++ [k]) n = KeysFrom keys n.
Proof.
  induction n as [|n IH]; intros Hn; [done|].
  cbn [KeysFrom]. rewrite lookup_app_l by lia.
  destruct (keys !! n); rewrite IH by lia; done.
Qed.

Lemma Keys_rev keys wrapped : Keys (DecodeError keys wrapped) = rev keys.
Proof.
  cbn [Keys]. induction keys as [|k keys IH] using rev_ind; [done|].
  rewrite length_app, Nat.add_1_r. cbn [KeysFrom].
  rewrite lookup_app_r by lia. rewrite Nat.sub_diag. cbn.
  rewrite KeysFrom_app by lia. by rewrite IH, rev_app_distr.
Qed.

(** One more level of [newDecodeError] puts the key of that level in front
    of the path and keeps the cause. *)
Lemma Keys_newDecodeError key e :
  match errorsAsDecodeError e with
  | None =>
      Keys (newDecodeError key e) = [key]
      /\ Unwrap (newDecodeError key e) = Some e
  | Some (keys, wrapped) =>
      Keys (newDecodeError key e) = key :: Keys (DecodeError keys wrapped)
      /\ Unwrap (newDecodeError key e) = Some wrapped
  end.
Proof.
  unfold newDecodeError. destruct (errorsAsDecodeError e) as [[keys wrapped]|].
  - by rewrite !Keys_rev, rev_app_distr.
  - done.
Qed.

(** C5, on the code.  Decoding [{a: {b: {c: 1}}}] into nested structs whose
    innermost field [c] is an interface holding a pointer to a channel: the
    decoder lookup for the pointee fails and that error is returned without
    the key [c], so the path of the final error is [a.b].  At nesting depth
    zero the error is not a [DecodeError] at all.  When the failure comes
    from the decoder of the field, the path is complete: [a.b.c]. *)
Theorem DecodeValue_lookup_failure_loses_key :
  (DecodeValue exampleParseTags exampleParseTags (exampleDecoders 3)
     asciiToLower exampleCodec exampleDecodeContext (nestedDocument (BInt32 1)) topValue).2
  = Err (DecodeError ["b"; "a"] (errNoDecoder tChanInt))
  /\ Keys (DecodeError ["b"; "a"] (errNoDecoder tChanInt)) = ["a"; "b"]
  /\ (DecodeValue exampleParseTags exampleParseTags (exampleDecoders 3)
        asciiToLower exampleCodec exampleDecodeContext (TopLevelReader [("c", BInt32 1)])
        leafValue).2
     = Err (errNoDecoder tChanInt)
  /\ exists cause,
       (DecodeValue exampleParseTags exampleParseTags (exampleDecoders 3)
          asciiToLower exampleCodec exampleDecodeContext (nestedDocument (BString "oops"))
          (settable (Zero tTop32))).2
       = Err (DecodeError ["c"; "b"; "a"] cause)
       /\ Keys (DecodeError ["c"; "b"; "a"] cause) = ["a"; "b"; "c"].
Proof.
  split; [by vm_compute|]. split; [by vm_compute|]. split; [by vm_compute|].
  eexists. split; by vm_compute.
Qed.

(** C2, on the code.  [Catch] has an interface field [i] and an inline map
    of 32-bit integers.  With [i] holding a pointer to a string, the element
    [i] makes the loop store the decoder of strings in the variable that
    held the decoder of the map elements; the unmatched element [extra] that
    follows is handed to the decoder of strings and fails.  With the two
    elements in the other order, [extra] is decoded by the decoder resolved
    before the loop and lands in the map. *)
Theorem DecodeValue_inline_decoder_overwritten :
  (DecodeValue exampleParseTags exampleParseTags (exampleDecoders 3)
     asciiToLower exampleCodec exampleDecodeContext
     (TopLevelReader [("i", BString "new"); ("extra", BInt32 7)]) catchValue).2
  = Err (ValueDecoderError "StringDecodeValue")
  /\ (let '(_, d, r) :=
        DecodeValue exampleParseTags exampleParseTags (exampleDecoders 3)
          asciiToLower exampleCodec exampleDecodeContext
          (TopLevelReader [("extra", BInt32 7); ("i", BString "new")])
          catchValue in (d, r))
     = (VStruct "Catch" catchFields
          [VIface "interface {}"
             (Some (VPtr tString (Some (VStr "string" "new"))));
           VMap tString tInt32 (Some [("extra", VBasic bInt32 "int32" 7)])],
        Ok tt).
Proof. split; by vm_compute. Qed.

(** The unmatched element [extra] holds a string, the map holds 32-bit
    integers: the error of the integer decoder comes back as it is. *)
Lemma DecodeValue_unmatched_error_unwrapped_witness :
  (DecodeValue exampleParseTags exampleParseTags (exampleDecoders 3)
     asciiToLower exampleCodec exampleDecodeContext
     (TopLevelReader [("extra", BString "seven")]) catchValue).2
  = Err (errorString "cannot decode string into an integer type").
Proof.
  pose (pro := decodePrologue exampleParseTags exampleParseTags exampleCodec
                 exampleDecodeContext
                 (TopLevelReader [("extra", BString "seven")]) catchValue).
  destruct pro as [sd st0 elems|sc0 d0 r0] eqn:Hpro; [|by vm_compute in Hpro].
  assert (Hsd : inlineMap sd = 1%Z /\ fm sd !! "extra" = None
                /\ ds_val st0 = catchValue /\ ds_decoder st0 = Some 1
                /\ elems = [("extra", BString "seven")]).
  { vm_compute in Hpro. injection Hpro as <- <- <-. repeat split; by vm_compute. }
  destruct Hsd as (Him & Hfm & Hval & Hdec & ->).
  refine (proj1 (DecodeValue_unmatched_error_unwrapped exampleParseTags
                   exampleParseTags (exampleDecoders 3) asciiToLower exampleCodec
                   exampleDecodeContext _ catchValue sd st0 _ []
                   "extra" (BString "seven") [] st0
                   (mkValue (VMap tString tInt32 None) false false true)
                   true tString tInt32 1 (ds_sc st0)
                   (VBasic bInt32 "int32" 0) _
                   Hpro eq_refl eq_refl _ _ _ eq_refl eq_refl _ Hdec eq_refl)).
  - unfold lookupField. by rewrite Hfm.
  - by rewrite Him.
  - by rewrite Him, Hval.
  - done.
Defined.

(** ** The descriptor cache *)

Lemma Kind_eqb_basic k k' :
  reflect.Kind_eqb (basicKind k) (basicKind k') = true <-> k = k'.
Proof. destruct k, k'; cbn; split; congruence. Qed.

(** [rtype_eqb] decides the identity of types. *)
Lemma rtype_eqb_eq : forall a b, rtype_eqb a b = true <-> a = b.
Proof.
  induction a as [k n|n|n|e IHe|e IHe|len e IHe|k e IHk IHe|n fields IH]
    using rtype_nested_ind; intros [k' n'|n'|n'|e'|e'|len' e'|k' e'|n' fields'];
    cbn [rtype_eqb]; try (split; congruence).
  - rewrite andb_true_iff, Kind_eqb_basic, String.eqb_eq. split.
    + by intros [-> ->].
    + by intros [= -> ->].
  - rewrite String.eqb_eq. split; congruence.
  - rewrite String.eqb_eq. split; congruence.
  - rewrite IHe. split; congruence.
  - rewrite IHe. split; congruence.
  - rewrite andb_true_iff, Nat.eqb_eq, IHe. split.
    + by intros [-> ->].
    + by intros [= -> ->].
  - rewrite andb_true_iff, IHk, IHe. split.
    + by intros [-> ->].
    + by intros [= -> ->].
  - rewrite andb_true_iff, String.eqb_eq.
    enough (Hfs : (fix fields_eqb (l l' : list (StructField rtype)) {struct l}
                     : bool :=
                     match l, l' with
                     | [], [] => true
                     | f :: r, f' :: r' =>
                         String.eqb (sfName f) (sfName f')
                         && String.eqb (sfPkgPath f) (sfPkgPath f')
                         && Bool.eqb (sfAnonymous f) (sfAnonymous f')
                         && rtype_eqb (sfType f) (sfType f')
                         && String.eqb (sfTag f) (sfTag f')
                         && fields_eqb r r'
                     | _, _ => false
                     end) fields fields' = true <-> fields = fields').
    { rewrite Hfs. split; [by intros [-> ->] | by intros [= -> ->]]. }
    clear n n'. revert fields'.
    induction IH as [|f fields Hf _ IHfs]; intros [|f' fields'];
      try (split; congruence).
    rewrite !andb_true_iff, !String.eqb_eq, Bool.eqb_true_iff, Hf, IHfs.
    destruct f, f'; cbn. split.
    + by intros [[[[[-> ->] ->] ->] ->] ->].
    + by intros [= -> -> -> -> -> ->].
Qed.

Lemma rtype_eqb_refl t : rtype_eqb t t = true.
Proof. by apply rtype_eqb_eq. Qed.

Lemma cacheLoad_app_None c c' t :
  cacheLoad c t = None -> cacheLoad (c ++ c') t = cacheLoad c' t.
Proof.
  induction c as [|[t' v] c IH]; [done|]. cbn [app cacheLoad].
  by destruct (rtype_eqb t' t).
Qed.

(** What [LoadOrStore] returns is what a later [Load] finds. *)
Lemma cacheLoadOrStore_load c t ds :
  cacheLoad (cacheLoadOrStore c t ds).1.1 t = Some (cacheLoadOrStore c t ds).1.2.
Proof.
  unfold cacheLoadOrStore. destruct (cacheLoad c t) as [v|] eqn:Hload; [done|].
  cbn [fst snd]. rewrite cacheLoad_app_None by done.
  cbn [cacheLoad]. by rewrite rtype_eqb_refl.
Qed.

Lemma cacheLoad_app_Some c c' t sd :
  cacheLoad c t = Some sd -> cacheLoad (c ++ c') t = Some sd.
Proof.
  induction c as [|[t' v] c IH]; [done|]. cbn [app cacheLoad].
  by destruct (rtype_eqb t' t).
Qed.

Lemma cacheExtends_refl c : cacheExtends c c.
Proof. by intros t sd. Qed.

Lemma cacheExtends_trans c1 c2 c3 :
  cacheExtends c1 c2 -> cacheExtends c2 c3 -> cacheExtends c1 c3.
Proof. intros H12 H23 t sd Ht. by apply H23, H12. Qed.

Lemma cacheLoadOrStore_extends c t ds :
  cacheExtends c (cacheLoadOrStore c t ds).1.1.
Proof.
  unfold cacheLoadOrStore. destruct (cacheLoad c t); [apply cacheExtends_refl|].
  intros t' sd Ht'. by apply cacheLoad_app_Some.
Qed.

Lemma cacheLoadOrStore_published c t sd ds :
  cacheLoad c t = Some sd -> cacheLoadOrStore c t ds = (c, sd, true).
Proof. unfold cacheLoadOrStore. by intros ->. Qed.

Lemma runCacheOps_extends ops : forall c, cacheExtends c (runCacheOps c ops).
Proof.
  induction ops as [|op ops IH]; intros c; [apply cacheExtends_refl|].
  cbn [runCacheOps fold_left]. eapply cacheExtends_trans; [|apply IH].
  destruct op; [apply cacheExtends_refl | apply cacheLoadOrStore_extends].
Qed.

Section CacheFacts.
Variable parseStructTags parseJSONStructTags : StructField rtype -> result structTags.

Local Abbreviation describeStructSlow' :=
  (describeStructSlow parseStructTags parseJSONStructTags).
Local Abbreviation describeStruct' :=
  (describeStruct parseStructTags parseJSONStructTags).

Lemma describeStructVia_extends slow sc t :
  (forall sc', cacheExtends (cache sc') (cache (slow sc').1)) ->
  cacheExtends (cache sc) (cache (describeStructVia slow sc t).1).
Proof.
  intros Hslow. unfold describeStructVia.
  destruct (cacheLoad (cache sc) t); [apply cacheExtends_refl|].
  specialize (Hslow sc). destruct (slow sc) as [sc1 [ds|e|m]]; try done.
  pose proof (cacheLoadOrStore_extends (cache sc1) t ds) as Hstore.
  destruct (cacheLoadOrStore (cache sc1) t ds) as [[c v] b].
  by eapply cacheExtends_trans.
Qed.

Lemma collectFields_extends inl r t useJSON : forall sfs i sc sd fields,
  Forall (fun sf =>
            forall sc',
              cacheExtends (cache sc') (cache (inl sc' (sfType sf)).1)
              /\ match sfType sf with
                 | TPtr e => cacheExtends (cache sc') (cache (inl sc' e).1)
                 | _ => True
                 end) sfs ->
  cacheExtends (cache sc)
    (cache (collectFields parseStructTags parseJSONStructTags inl r t useJSON
              sfs i sc sd fields).1).
Proof.
  induction sfs as [|sf rest IH]; intros i sc sd fields Hall;
    [apply cacheExtends_refl|].
  apply Forall_cons in Hall as [Hsf Hrest].
  cbn [collectFields].
  destruct (negb (String.eqb (sfPkgPath sf) "")
            && (negb (allowUnexportedFields sc) || negb (sfAnonymous sf)));
    [by apply IH|].
  destruct (if useJSON then parseJSONStructTags sf else parseStructTags sf)
    as [stags|e|m]; try apply cacheExtends_refl.
  destruct (Skip stags); [by apply IH|].
  destruct (Inline stags); [|by apply IH].
  destruct (Hsf sc) as [Hself Helem].
  destruct (sfType sf) as [| | |elem| | | |] eqn:Hty;
    try apply cacheExtends_refl.
  - destruct elem; try apply cacheExtends_refl.
    clear Hself Hsf.
    destruct (inl sc _) as [sc' [inlinesf|e|m]]; try done.
    eapply cacheExtends_trans; [exact Helem|]. by apply IH.
  - cbn [inlineMap].
    destruct (0 <=? inlineMap sd)%Z; [apply cacheExtends_refl|].
    destruct (negb (rtype_eqb _ tString)); [apply cacheExtends_refl|].
    by apply IH.
  - clear Helem Hsf.
    destruct (inl sc _) as [sc' [inlinesf|e|m]]; try done.
    eapply cacheExtends_trans; [exact Hself|]. by apply IH.
Qed.

Lemma describeStructSlow_extends r useJSON eod : forall t sc,
  cacheExtends (cache sc) (cache (describeStructSlow' sc r t useJSON eod).1).
Proof.
  intros t.
  enough (H : (forall sc, cacheExtends (cache sc)
                            (cache (describeStructSlow' sc r t useJSON eod).1))
              /\ match t with
                 | TPtr e =>
                     forall sc, cacheExtends (cache sc)
                                  (cache (describeStructSlow' sc r e useJSON eod).1)
                 | _ => True
                 end) by apply H.
  induction t as [k n|n|n|e IHe|e IHe|len e IHe|k e IHk IHe|n fields IH]
    using rtype_nested_ind;
    try (split; [intros sc; apply cacheExtends_refl | done]).
  - split; [intros sc; apply cacheExtends_refl | apply IHe].
  - split; [|done]. intros sc. cbn [describeStructSlow].
    pose proof (collectFields_extends
                  (fun sc' ty =>
                     describeStructVia
                       (fun sc'' => describeStructSlow' sc'' r ty useJSON eod)
                       sc' ty)
                  r (TStruct n fields) useJSON fields 0 sc emptyDescription [])
      as Hcollect.
    destruct (collectFields _ _ _ _ _ _ _ _ _ _ _) as [sc1 [[sd fs]|e|m]];
      apply Hcollect;
      (eapply Forall_impl; [exact IH|]); cbn beta;
      intros sf [Hself Helem] sc'; (split;
        [by apply describeStructVia_extends
        |destruct (sfType sf); try done; by apply describeStructVia_extends]).
Qed.

Lemma describeStruct_extends sc r t useJSON eod :
  cacheExtends (cache sc) (cache (describeStruct' sc r t useJSON eod).1).
Proof.
  unfold describeStruct. apply describeStructVia_extends.
  intros sc'. apply describeStructSlow_extends.
Qed.

(** A descriptor [describeStruct] returns is the one published for its
    type. *)
Lemma describeStruct_returns_published sc r t useJSON eod sc1 sd :
  describeStruct' sc r t useJSON eod = (sc1, Ok sd) ->
  cacheLoad (cache sc1) t = Some sd.
Proof.
  unfold describeStruct, describeStructVia.
  destruct (cacheLoad (cache sc) t) as [v|] eqn:Hload.
  { by intros [= <- <-]. }
  destruct (describeStructSlow' sc r t useJSON eod) as [sc' [ds|e|m]]; try done.
  pose proof (cacheLoadOrStore_load (cache sc') t ds) as Hstored.
  destruct (cacheLoadOrStore (cache sc') t ds) as [[c v] loaded].
  by intros [= <- <-].
Qed.

Lemma describeStruct_published sc r t useJSON eod sd :
  cacheLoad (cache sc) t = Some sd ->
  describeStruct' sc r t useJSON eod = (sc, Ok sd).
Proof. unfold describeStruct, describeStructVia. by intros ->. Qed.
End CacheFacts.

Section TraversalCacheFacts.
Variable parseStructTags parseJSONStructTags : StructField rtype -> result structTags.
Variable implementsZeroer : rtype -> bool.
Variable zeroerIsZero : rvalue -> bool.
Variable timeIsZero : rvalue -> bool.
Variable lookupElementEncoder :
  EncodeContext -> option ValueEncoder -> Value
  -> option ValueEncoder * Value * option error.
Variable runEncoder :
  ValueEncoder -> structCodec -> EncodeContext -> Value
  -> structCodec * result bvalue.
Variable encodeMapElements :
  nat -> EncodeContext -> Value -> (string -> bool)
  -> result (list (string * bvalue)).
Variable runDecoder :
  ValueDecoder -> structCodec -> DecodeContext -> ValueReader -> Value
  -> structCodec * rvalue * result unit.
Variable ToLower : string -> string.

Local Abbreviation EncodeValue' :=
  (EncodeValue parseStructTags parseJSONStructTags implementsZeroer zeroerIsZero
     timeIsZero lookupElementEncoder runEncoder encodeMapElements).
Local Abbreviation encodeField' :=
  (encodeField implementsZeroer zeroerIsZero timeIsZero lookupElementEncoder
     runEncoder).
Local Abbreviation encodeFields' :=
  (encodeFields implementsZeroer zeroerIsZero timeIsZero lookupElementEncoder
     runEncoder).
Local Abbreviation DecodeValue' :=
  (DecodeValue parseStructTags parseJSONStructTags runDecoder ToLower).

(** The encoders and decoders of the fields publish descriptors and
    change none. *)
Hypothesis runEncoder_extends : forall enc sc ec v,
  cacheExtends (cache sc) (cache (runEncoder enc sc ec v).1).
Hypothesis runDecoder_extends : forall dec sc dc vr v,
  cacheExtends (cache sc) (cache (runDecoder dec sc dc vr v).1.1).

Lemma encodeField_extends sc ec val desc :
  cacheExtends (cache sc) (cache (encodeField' sc ec val desc).1).
Proof.
  unfold encodeField.
  destruct (encodeFieldValue val desc) as [rv|e|m]; try apply cacheExtends_refl.
  destruct (lookupElementEncoder ec (encoder desc) rv) as [[enc rv'] [e|]].
  - destruct (negb (isErrInvalidValue e)); [apply cacheExtends_refl|].
    destruct (if ec_omitEmpty ec then true else omitEmpty desc);
      apply cacheExtends_refl.
  - destruct enc as [encoder|].
    + destruct (fieldEmpty _ _ _ sc ec rv') as [empty|e|m];
        try apply cacheExtends_refl.
      destruct ((if ec_omitEmpty ec then true else omitEmpty desc) && empty);
        [apply cacheExtends_refl|].
      pose proof (runEncoder_extends encoder sc (fieldEncodeContext ec desc) rv')
        as Hrun.
      by destruct (runEncoder encoder sc _ rv') as [sc' [v|e|m]].
    + destruct (ValueType rv'); apply cacheExtends_refl.
Qed.

Lemma encodeFields_extends ec val : forall descs sc dw,
  cacheExtends (cache sc) (cache (encodeFields' sc ec val descs dw).1).
Proof.
  induction descs as [|desc descs IH]; intros sc dw; [apply cacheExtends_refl|].
  cbn [encodeFields].
  pose proof (encodeField_extends sc ec val desc) as Hstep.
  destruct (encodeField' sc ec val desc) as [sc' [|v|e|m]]; try done;
    (eapply cacheExtends_trans; [exact Hstep|apply IH]).
Qed.

Lemma EncodeValue_extends sc ec val :
  cacheExtends (cache sc) (cache (EncodeValue' sc ec val).1).
Proof.
  unfold EncodeValue.
  destruct (negb (IsValid val) || _); [apply cacheExtends_refl|].
  destruct (ValueType val) as [t|e|m]; try apply cacheExtends_refl.
  pose proof (describeStruct_extends parseStructTags parseJSONStructTags sc
                (ec_Registry ec) t (ec_useJSONStructTags ec)
                (ec_errorOnInlineDuplicates ec)) as Hd.
  destruct (describeStruct _ _ sc _ t _ _) as [sc1 [sd|e|m]]; try done.
  pose proof (encodeFields_extends ec val (fl sd) sc1 []) as Hf.
  destruct (encodeFields' sc1 ec val (fl sd) []) as [sc2 [dw|e|m]];
    try (by eapply cacheExtends_trans).
  destruct (0 <=? inlineMap sd)%Z; by eapply cacheExtends_trans.
Qed.

Lemma decodeUnmatched_extends dc sd st nm vr :
  cacheExtends (cache (ds_sc st))
    (cache (ds_sc (outcomeState (decodeUnmatched runDecoder dc sd st nm vr)))).
Proof.
  unfold decodeUnmatched, Skip_.
  destruct (inlineMap sd <? 0)%Z; [apply cacheExtends_refl|].
  destruct (Field (ds_val st) _) as [im|e0|]; try apply cacheExtends_refl.
  cbn [mbind result_bind].
  destruct (IsNil im) as [isnil|e0|]; try apply cacheExtends_refl.
  cbn [mbind result_bind].
  destruct (ValueType im) as [mt|e0|]; try apply cacheExtends_refl.
  cbn [mbind result_bind].
  destruct (TypeElem mt) as [et|e0|]; try apply cacheExtends_refl.
  cbn [mbind result_bind].
  destruct (isnil && negb (CanSet im)); [apply cacheExtends_refl|].
  destruct (ds_decoder st) as [decoder|]; [|apply cacheExtends_refl].
  pose proof (runDecoder_extends decoder (ds_sc st) dc vr (newIndirect et)) as Hrun.
  destruct (runDecoder decoder (ds_sc st) dc vr (newIndirect et))
    as [[sc' d] [u|e'|m]]; try done.
  by destruct (flagRO im).
Qed.

Lemma decodeMatched_extends dc st fd vr :
  cacheExtends (cache (ds_sc st))
    (cache (ds_sc (outcomeState (decodeMatched runDecoder dc st fd vr)))).
Proof.
  unfold decodeMatched.
  destruct (match inline fd with
            | [] => (ds_val st, Field (ds_val st) (idx fd))
            | _ :: _ => getInlineField (ds_val st) (inline fd)
            end) as [val [field|e|m]]; try apply cacheExtends_refl.
  assert (Hmain :
    cacheExtends (cache (ds_sc st))
      (cache (ds_sc (outcomeState
        (if negb (CanSet field) then
           ReturnErr (mkDecodeState (ds_sc st) val (ds_decoder st))
             (newDecodeError (name fd) (errorString "field is not settable"))
         else
           let field1 :=
             match data field with
             | VPtr e None => withData field (VPtr e (Some (Zero e)))
             | _ => field
             end in
           let st1 :=
             mkDecodeState (ds_sc st)
               (withData val (setByIndex (data val) (fieldPath fd) true (data field1)))
               (ds_decoder st) in
           match decoder fd with
           | None =>
               match ValueType field1 with
               | Ok ft => ReturnErr st1 (newDecodeError (name fd) (errNoDecoder ft))
               | Err e => ReturnErr st1 e
               | Panic m => ReturnPanic st1 m
               end
           | Some fdecoder =>
               let '(sc', d', r) :=
                 runDecoder fdecoder (ds_sc st) (fieldDecodeContext dc fd) vr field1 in
               let st2 :=
                 mkDecodeState sc'
                   (withData val (setByIndex (data val) (fieldPath fd) true d'))
                   (ds_decoder st) in
               match r with
               | Err e => ReturnErr st2 (newDecodeError (name fd) e)
               | Panic m => ReturnPanic st2 m
               | Ok _ => Continue st2
               end
           end))))).
  { destruct (negb (CanSet field)); [apply cacheExtends_refl|]. cbn zeta.
    destruct (decoder fd) as [fdecoder|].
    - match goal with
      | |- context [runDecoder fdecoder ?a ?b ?c ?d] =>
          pose proof (runDecoder_extends fdecoder a b c d) as Hrun;
          destruct (runDecoder fdecoder a b c d) as [[sc' d'] [u|e|m]]
      end; done.
    - destruct (ValueType _); apply cacheExtends_refl. }
  destruct (data field) as [| | |iname [[| | | |pelem ptarget| | | |]|]| | | | |];
    try exact Hmain.
  clear Hmain.
  destruct (ValueType _) as [vt|e|m]; try apply cacheExtends_refl.
  cbn [mbind result_bind].
  destruct (LookupDecoder (dc_Registry dc) vt) as [decoder|e|m];
    try apply cacheExtends_refl.
  match goal with
  | |- context [runDecoder decoder ?a ?b ?c ?d] =>
      pose proof (runDecoder_extends decoder a b c d) as Hrun;
      destruct (runDecoder decoder a b c d) as [[sc' d'] [u|e|m]]
  end; done.
Qed.

Lemma decodeElements_extends dc sd : forall elems st,
  cacheExtends (cache (ds_sc st))
    (cache (ds_sc (decodeElements runDecoder ToLower dc sd elems st).1)).
Proof.
  induction elems as [|[nm v] elems IH]; intros st; [apply cacheExtends_refl|].
  cbn [decodeElements].
  assert (Hstep :
    cacheExtends (cache (ds_sc st))
      (cache (ds_sc (outcomeState
        match lookupField ToLower sd nm with
        | Some fd => decodeMatched runDecoder dc st fd (ElementReader v)
        | None => decodeUnmatched runDecoder dc sd st nm (ElementReader v)
        end)))).
  { destruct (lookupField ToLower sd nm);
      [apply decodeMatched_extends | apply decodeUnmatched_extends]. }
  destruct (match lookupField ToLower sd nm with
            | Some fd => _
            | None => _
            end) as [st'|st' e|st' m]; try exact Hstep.
  eapply cacheExtends_trans; [exact Hstep|apply IH].
Qed.

Lemma decodePrologue_extends sc dc vr val :
  match decodePrologue parseStructTags parseJSONStructTags sc dc vr val with
  | Proceed _ st _ => cacheExtends (cache sc) (cache (ds_sc st))
  | Done sc' _ _ => cacheExtends (cache sc) (cache sc')
  end.
Proof.
  unfold decodePrologue.
  destruct (negb (CanSet val) || _); [apply cacheExtends_refl|].
  destruct (ValueType val) as [t|e|m]; try apply cacheExtends_refl.
  assert (Hdoc :
    match
      match describeStruct parseStructTags parseJSONStructTags sc
              (dc_Registry dc) t (dc_useJSONStructTags dc) false with
      | (sc1, Err e) => Done sc1 (data val) (Err e)
      | (sc1, Panic m) => Done sc1 (data val) (Panic m)
      | (sc1, Ok sd) =>
          let val1 :=
            if decodeZeroStruct sc1 || dc_zeroStructs dc
            then withData val (Zero t) else val in
          match (if decodeDeepZeroInline sc1 && inlineFlag sd then
                   dz ← deepZero t;
                   if negb (IsValid dz) then
                     Panic "reflect: call of reflect.Value.Set on zero Value"
                   else Ok (withData val1 (data dz))
                 else Ok val1) with
          | Err e => Done sc1 (data val1) (Err e)
          | Panic m => Done sc1 (data val1) (Panic m)
          | Ok val2 =>
              match (if (0 <=? inlineMap sd)%Z then
                       im ← Field val2 (Z.to_nat (inlineMap sd));
                       mt ← ValueType im;
                       et ← TypeElem mt;
                       decoder ← LookupDecoder (dc_Registry dc) et;
                       Ok (Some decoder)
                     else Ok None) with
              | Err e => Done sc1 (data val2) (Err e)
              | Panic m => Done sc1 (data val2) (Panic m)
              | Ok decoder =>
                  match ReadDocument vr with
                  | Err e => Done sc1 (data val2) (Err e)
                  | Panic m => Done sc1 (data val2) (Panic m)
                  | Ok elems => Proceed sd (mkDecodeState sc1 val2 decoder) elems
                  end
              end
          end
      end
    with
    | Proceed _ st _ => cacheExtends (cache sc) (cache (ds_sc st))
    | Done sc' _ _ => cacheExtends (cache sc) (cache sc')
    end).
  { pose proof (describeStruct_extends parseStructTags parseJSONStructTags sc
                  (dc_Registry dc) t (dc_useJSONStructTags dc) false) as Hd.
    destruct (describeStruct _ _ sc _ t _ _) as [sc1 [sd|e|m]]; try done.
    cbn zeta.
    destruct (if decodeDeepZeroInline sc1 && inlineFlag sd then _ else _)
      as [val2|e|m]; try done.
    destruct (if (0 <=? inlineMap sd)%Z then _ else _) as [decoder|e|m];
      try done.
    by destruct (ReadDocument vr). }
  destruct (vrType vr); try exact Hdoc; try apply cacheExtends_refl.
  - destruct (ReadNull vr); apply cacheExtends_refl.
  - destruct (ReadUndefined vr); apply cacheExtends_refl.
Qed.

Lemma DecodeValue_extends sc dc vr val :
  cacheExtends (cache sc) (cache (DecodeValue' sc dc vr val).1.1).
Proof.
  unfold DecodeValue.
  pose proof (decodePrologue_extends sc dc vr val) as Hpro.
  destruct (decodePrologue _ _ sc dc vr val) as [sd st elems|sc' d r]; [|done].
  pose proof (decodeElements_extends dc sd elems st) as Hloop.
  destruct (decodeElements runDecoder ToLower dc sd elems st) as [st' r].
  by eapply cacheExtends_trans.
Qed.

(** C6.  Every descriptor [describeStruct] returns is the one published
    for its type.  Let the descriptor [sd] be published for the type [t].
    After any call of [EncodeValue] or [DecodeValue], whatever the options of
    the context, [sd] is still the descriptor published for [t]: what the
    loop of [EncodeValue] does to [omitEmpty] and to the encoder touches the
    copy of the field description it iterates with.  [describeStruct]
    returns [sd] for [t] and leaves the codec as it is.  And after the cache
    operations of any number of callers, in any order, [sd] is still
    published for [t], and a caller that arrives with a descriptor of its
    own for [t] is handed [sd]. *)
Theorem published_descriptor_is_stable sc t sd :
  cacheLoad (cache sc) t = Some sd ->
  (forall sc0 r t0 useJSON eod sc1 sd1,
     describeStruct parseStructTags parseJSONStructTags sc0 r t0 useJSON eod
     = (sc1, Ok sd1) ->
     cacheLoad (cache sc1) t0 = Some sd1)
  /\ (forall ec val, cacheLoad (cache (EncodeValue' sc ec val).1) t = Some sd)
  /\ (forall dc vr val, cacheLoad (cache (DecodeValue' sc dc vr val).1.1) t = Some sd)
  /\ (forall r useJSON eod,
        describeStruct parseStructTags parseJSONStructTags sc r t useJSON eod
        = (sc, Ok sd))
  /\ (forall ops ds,
        cacheLoad (runCacheOps (cache sc) ops) t = Some sd
        /\ cacheLoadOrStore (runCacheOps (cache sc) ops) t ds
           = (runCacheOps (cache sc) ops, sd, true)).
Proof.
  intros Hpub. split; [|repeat split].
  - intros sc0 r t0 useJSON eod sc1 sd1. apply describeStruct_returns_published.
  - intros ec val. by apply EncodeValue_extends.
  - intros dc vr val. by apply DecodeValue_extends.
  - intros r useJSON eod. by apply describeStruct_published.
  - by apply runCacheOps_extends.
  - apply cacheLoadOrStore_published. by apply runCacheOps_extends.
Qed.
End TraversalCacheFacts.

Lemma exampleEncoders_extends enc sc ec v :
  cacheExtends (cache sc) (cache (exampleEncoders enc sc ec v).1).
Proof.
  unfold exampleEncoders.
  destruct (data v) as [|[]| | | | | | |]; apply cacheExtends_refl.
Qed.

Lemma exampleDecoders_extends depth : forall dec sc dc vr v,
  cacheExtends (cache sc) (cache (exampleDecoders depth dec sc dc vr v).1.1).
Proof.
  induction depth as [|depth IH]; intros dec sc dc vr v;
    destruct dec as [|[|[|dec]]]; cbn [exampleDecoders];
    try apply cacheExtends_refl;
    try (by destruct (decodeInt32 vr v); apply cacheExtends_refl);
    try (by destruct (decodeString vr v); apply cacheExtends_refl).
  by apply DecodeValue_extends.
Qed.

(** The descriptor of [Inner] survives an encode under the omit-empty
    option. *)
Lemma published_descriptor_is_stable_witness :
  exists sd,
    cacheLoad (cache publishedCodec) tInner = Some sd
    /\ cacheLoad
         (cache (EncodeValue exampleParseTags exampleParseTags
                   exampleImplementsZeroer exampleZeroerIsZero
                   exampleTimeIsZero specLookupElementEncoder exampleEncoders
                   exampleMapElements publishedCodec
                   (exampleEncodeContext true) (settable (Zero tInner))).1)
         tInner = Some sd.
Proof.
  destruct (cacheLoad (cache publishedCodec) tInner) as [sd|] eqn:Hpub;
    [|by vm_compute in Hpub].
  exists sd. split; [done|].
  apply (proj1 (proj2 (published_descriptor_is_stable exampleParseTags
           exampleParseTags exampleImplementsZeroer exampleZeroerIsZero
           exampleTimeIsZero specLookupElementEncoder exampleEncoders
           exampleMapElements (exampleDecoders 2) asciiToLower
           exampleEncoders_extends
           (exampleDecoders_extends 2) publishedCodec tInner sd Hpub))).
Defined.

(** ** The order of [byIndex] *)

Lemma inlineLess_irrefl a : inlineLess a a = false.
Proof.
  induction a as [|x a IH]; cbn; [done|]. by rewrite Nat.eqb_refl.
Qed.

Lemma inlineLess_trans : forall a b c,
  inlineLess a b = true -> inlineLess b c = true -> inlineLess a c = true.
Proof.
  induction a as [|x a IH]; intros [|y b] [|z c]; cbn; try done.
  destruct (Nat.eqb_spec x y) as [->|Hxy], (Nat.eqb_spec y z) as [->|Hyz].
  - apply IH.
  - done.
  - intros H _. destruct (Nat.eqb_spec x z); [lia|done].
  - intros H1%Nat.ltb_lt H2%Nat.ltb_lt.
    destruct (Nat.eqb_spec x z); [lia|]. apply Nat.ltb_lt. lia.
Qed.

Lemma inlineLess_trichotomy : forall a b,
  inlineLess a b = true \/ a = b \/ inlineLess b a = true.
Proof.
  induction a as [|x a IH]; intros [|y b]; cbn; auto.
  destruct (Nat.eqb_spec x y) as [->|Hxy].
  - rewrite Nat.eqb_refl. destruct (IH b) as [?|[->|?]]; auto.
  - destruct (Nat.eqb_spec y x) as [Hyx|Hyx]; [lia|].
    destruct (Nat.lt_total x y) as [H|[H|H]]; [left|lia|right; right];
      by apply Nat.ltb_lt.
Qed.

Lemma byIndexLess_irrefl x : byIndexLess x x = false.
Proof.
  unfold byIndexLess. rewrite Nat.eqb_refl. cbn. apply inlineLess_irrefl.
Qed.

Lemma byIndexLess_trans x y z :
  byIndexLess x y = true -> byIndexLess y z = true -> byIndexLess x z = true.
Proof.
  unfold byIndexLess.
  destruct (Nat.eqb_spec (topIndex x) (topIndex y)) as [Hxy|Hxy],
           (Nat.eqb_spec (topIndex y) (topIndex z)) as [Hyz|Hyz],
           (Nat.eqb_spec (topIndex x) (topIndex z)) as [Hxz|Hxz];
    cbn [negb]; try lia; rewrite ?Nat.ltb_lt; try lia.
  apply inlineLess_trans.
Qed.

Lemma byIndexLess_trichotomy x y :
  byIndexLess x y = true
  \/ (topIndex x = topIndex y /\ inline x = inline y)
  \/ byIndexLess y x = true.
Proof.
  unfold byIndexLess.
  destruct (Nat.eqb_spec (topIndex x) (topIndex y)) as [Hxy|Hxy],
           (Nat.eqb_spec (topIndex y) (topIndex x)) as [Hyx|Hyx];
    cbn [negb]; try lia.
  - destruct (inlineLess_trichotomy (inline x) (inline y)) as [?|[?|?]]; auto.
  - rewrite !Nat.ltb_lt. lia.
Qed.

Lemma byIndexLess_asym x y :
  byIndexLess x y = true -> byIndexLess y x = false.
Proof.
  intros Hxy. destruct (byIndexLess y x) eqn:Hyx; [|done].
  pose proof (byIndexLess_trans _ _ _ Hxy Hyx) as H.
  by rewrite byIndexLess_irrefl in H.
Qed.

Lemma byIndexLess_same_key x y z :
  topIndex x = topIndex y -> inline x = inline y ->
  byIndexLess z x = byIndexLess z y.
Proof. unfold byIndexLess. by intros -> ->. Qed.

Lemma byIndexLess_negtrans x y z :
  byIndexLess y x = false -> byIndexLess z y = false ->
  byIndexLess z x = false.
Proof.
  intros Hyx Hzy. destruct (byIndexLess z x) eqn:Hzx; [|done].
  destruct (byIndexLess_trichotomy y x) as [H|[[Ht Hi]|H]].
  - congruence.
  - rewrite (byIndexLess_same_key y x z) in Hzy by done. congruence.
  - pose proof (byIndexLess_trans _ _ _ Hzx H). congruence.
Qed.

Lemma byIndexLess_topIndex x y :
  byIndexLess y x = false -> topIndex x <= topIndex y.
Proof.
  unfold byIndexLess.
  destruct (Nat.eqb_spec (topIndex y) (topIndex x)) as [Heq|Hne]; cbn [negb].
  - lia.
  - intros H%Nat.ltb_ge. lia.
Qed.

(** X1.  [byIndex.Less] is a strict order on field descriptions: no field is
    before itself, the relation is transitive, and of two fields one is
    before the other unless they have the same top-level index and the same
    inline path. *)
Theorem byIndexLess_strict_order :
  (forall x, byIndexLess x x = false)
  /\ (forall x y z, byIndexLess x y = true -> byIndexLess y z = true ->
        byIndexLess x z = true)
  /\ (forall x y, byIndexLess x y = true -> byIndexLess y x = false)
  /\ (forall x y, byIndexLess x y = false -> byIndexLess y x = false ->
        topIndex x = topIndex y /\ inline x = inline y).
Proof.
  split; [apply byIndexLess_irrefl|].
  split; [apply byIndexLess_trans|].
  split; [apply byIndexLess_asym|].
  intros x y Hxy Hyx.
  destruct (byIndexLess_trichotomy x y) as [H|[H|H]]; [congruence|done|congruence].
Qed.

Lemma sortSlice_byIndexLess_sorted l :
  StronglySorted (fun x y => byIndexLess y x = false) (sortSlice byIndexLess l).
Proof.
  apply Sorted_StronglySorted.
  - intros x y z. apply byIndexLess_negtrans.
  - apply (sortSlice_Sorted byIndexLess (fun x y => byIndexLess y x = false)).
    + intros x y. apply byIndexLess_asym.
    + done.
Qed.

(** ** More on the dominance pass *)

Lemma dominanceLoop_step ov eod fuel t fi rest sd :
  dominatesF fi (fi :: rest) ->
  StronglySorted coarseLe (fi :: rest) ->
  (sameNameRun (name fi) rest <> 0 -> ov = true /\ eod = false) ->
  dominanceLoop (S fuel) ov eod t (fi :: rest) sd
  = dominanceLoop fuel ov eod t
      (drop (sameNameRun (name fi) rest) rest) (keepField sd fi).
Proof.
  intros Hdom Hs Hflags.
  pose proof (group_head_deeper fi rest Hs Hdom) as Hdeep.
  cbn [dominanceLoop].
  destruct (sameNameRun (name fi) rest) as [|k'] eqn:Hk; [done|].
  destruct (Hflags ltac:(done)) as [-> ->].
  destruct rest as [|g rest']; [done|].
  cbn. cbn in Hdeep. apply Forall_cons in Hdeep as [Hg _].
  destruct (Nat.eqb_spec (length (inline fi)) (length (inline g))) as [Heq|Hne].
  - unfold depth in Hg. lia.
  - done.
Qed.

Lemma group_collides fi rest :
  sameNameRun (name fi) rest <> 0 ->
  StronglySorted coarseLe (fi :: rest) ->
  collidesOn (name fi) (fi :: rest).
Proof.
  intros Hk Hs. unfold collidesOn. rewrite group_sameName by done.
  destruct (sameNameRun (name fi) rest) eqn:Hrun; [done|].
  destruct rest; [done|]. cbn. lia.
Qed.

Lemma group_collides_rest fi rest nm :
  StronglySorted coarseLe (fi :: rest) ->
  collidesOn nm (drop (sameNameRun (name fi) rest) rest) ->
  collidesOn nm (fi :: rest).
Proof.
  intros Hs Hc. unfold collidesOn in *.
  destruct (decide (nm = name fi)) as [->|Hne].
  - rewrite sameName_none in Hc by (by apply group_others_ne). cbn in Hc. lia.
  - by rewrite group_sameName_other.
Qed.

(** What a successful run of the loop has done: it has appended, in the
    order of their names, the fields that dominate their name. *)
Lemma dominanceLoop_char ov eod t fuel : forall s sd sd',
  StronglySorted coarseLe s ->
  dominanceLoop fuel ov eod t s sd = Ok sd' ->
  inlineMap sd' = inlineMap sd /\ inlineFlag sd' = inlineFlag sd
  /\ exists hs,
       fl sd' = fl sd ++ hs
       /\ StronglySorted nameLt hs
       /\ (forall f, f ∈ hs <-> dominatesF f s)
       /\ (forall f, dominatesF f s -> fm sd' !! name f = Some f)
       /\ (forall nm, Forall (fun g => name g <> nm) s ->
             fm sd' !! nm = fm sd !! nm).
Proof.
  induction fuel as [|fuel IH]; intros s sd sd' Hs Hrun.
  - destruct s; [|done]. injection Hrun as <-.
    split; [done|]. split; [done|]. exists []. rewrite app_nil_r.
    split; [done|]. split; [constructor|]. split; [|split; [|done]].
    + intros f. split; [by intros ?%elem_of_nil|].
      intros (o & Hp & _). by apply Permutation_nil_cons in Hp.
    + intros f (o & Hp & _). by apply Permutation_nil_cons in Hp.
  - destruct s as [|fi rest].
    { injection Hrun as <-.
      split; [done|]. split; [done|]. exists []. rewrite app_nil_r.
      split; [done|]. split; [constructor|]. split; [|split; [|done]].
      + intros f. split; [by intros ?%elem_of_nil|].
        intros (o & Hp & _). by apply Permutation_nil_cons in Hp.
      + intros f (o & Hp & _). by apply Permutation_nil_cons in Hp. }
    pose proof Hrun as Hinv.
    apply dominanceLoop_ok_inv in Hinv as [Hdom Hcol]; [|done].
    assert (Hfi : dominatesF fi (fi :: rest)).
    { apply group_dominates_head; [done|]. apply Hdom. left. }
    rewrite dominanceLoop_step in Hrun; [|done|done|].
    2:{ intros Hk. apply (Hcol (name fi)). by apply group_collides. }
    set (k := sameNameRun (name fi) rest) in *.
    pose proof (group_others_ne fi rest Hs) as Hne. fold k in Hne.
    pose proof (sameNameRun_drop_sorted fi rest Hs) as Hlt. fold k in Hlt.
    destruct (IH _ _ _ (group_sorted_rest fi rest Hs) Hrun)
      as (Him & Hif & hs & Hfl & Hsorted & Hhs & Hfm & Hfm').
    split; [done|]. split; [done|]. exists (fi :: hs).
    split; [by rewrite Hfl; cbn; rewrite <- app_assoc|].
    split; [|split; [|split]].
    + constructor; [done|]. apply Forall_forall. intros h Hh.
      apply Hhs in Hh. destruct Hh as (o & Hp & _).
      assert (Hin : h ∈ sameName (name h) (drop k rest)).
      { apply (elem_of_Permutation_proper h _ _ Hp). left. }
      apply list_elem_of_filter in Hin as [_ Hin].
      rewrite Forall_forall in Hlt. by apply Hlt.
    + intros f. rewrite elem_of_cons, Hhs.
      rewrite (group_dominatesF_split fi rest Hs f Hfi). by fold k.
    + intros f Hf.
      apply (group_dominatesF_split fi rest Hs f Hfi) in Hf as [->|Hf].
      * rewrite Hfm'; [cbn; by rewrite lookup_insert_eq|done].
      * by apply Hfm.
    + intros nm Hnm. apply Forall_cons in Hnm as [Hnfi Hnm].
      rewrite Hfm'.
      * cbn. by rewrite lookup_insert_ne.
      * apply Forall_forall. intros g Hg. rewrite Forall_forall in Hnm.
        apply Hnm. by eapply subseteq_drop.
Qed.

Lemma dominanceLoop_succeeds ov eod t fuel : forall s sd,
  length s <= fuel ->
  StronglySorted coarseLe s ->
  (forall g, g ∈ s -> exists f, name f = name g /\ dominatesF f s) ->
  (forall nm, collidesOn nm s -> ov = true /\ eod = false) ->
  exists sd', dominanceLoop fuel ov eod t s sd = Ok sd'.
Proof.
  induction fuel as [|fuel IH]; intros s sd Hlen Hs Hdom Hcol.
  - destruct s; [by exists sd|cbn in Hlen; lia].
  - destruct s as [|fi rest]; [by exists sd|].
    assert (Hfi : dominatesF fi (fi :: rest)).
    { apply group_dominates_head; [done|]. apply Hdom. left. }
    rewrite dominanceLoop_step; [|done|done|].
    2:{ intros Hk. apply (Hcol (name fi)). by apply group_collides. }
    pose proof (group_others_ne fi rest Hs) as Hne.
    apply IH.
    + rewrite length_drop. cbn in Hlen. lia.
    + by apply group_sorted_rest.
    + intros g Hg. destruct (Hdom g) as (f & Hn & Hf).
      { right. by eapply subseteq_drop. }
      exists f. split; [done|]. apply (group_dominatesF_other fi rest); [|done].
      rewrite Hn. rewrite Forall_forall in Hne. by apply Hne.
    + intros nm Hc. apply (Hcol nm). by apply group_collides_rest.
Qed.

Lemma StronglySorted_nameLt_NoDup hs :
  StronglySorted nameLt hs -> NoDup (map name hs).
Proof.
  induction 1 as [|h hs Hs IH Hall]; cbn; [constructor|].
  constructor; [|done]. intros Hin.
  apply list_elem_of_fmap in Hin as (g & Hn & Hg).
  rewrite Forall_forall in Hall. specialize (Hall g Hg).
  unfold nameLt in Hall. rewrite <- Hn in Hall.
  by apply string_lt_irrefl in Hall.
Qed.

Section ResolveFacts.
Variables (ov eod : bool) (t : rtype).

(** What a successful dominance pass returns, when it starts from a
    descriptor without fields. *)
Lemma resolveFields_char fields sd0 sd :
  fm sd0 = ∅ -> fl sd0 = [] ->
  resolveFields ov eod t fields sd0 = Ok sd ->
  inlineMap sd = inlineMap sd0 /\ inlineFlag sd = inlineFlag sd0
  /\ NoDup (map name (fl sd))
  /\ (forall f, In f (fl sd) <-> dominates f fields)
  /\ (forall nm f, fm sd !! nm = Some f <-> In f (fl sd) /\ name f = nm)
  /\ (forall g, In g fields -> exists f, In f (fl sd) /\ name f = name g).
Proof.
  intros Hfm0 Hfl0 Hrun. unfold resolveFields in Hrun.
  destruct (dominanceLoop _ ov eod t _ sd0) as [sd'| |] eqn:Hloop; try done.
  cbn in Hrun. injection Hrun as <-. cbn [fm fl inlineMap inlineFlag].
  pose proof Hloop as Hloop0.
  apply dominanceLoop_char in Hloop
    as (Him & Hif & hs & Hfl & Hsorted & Hhs & Hfm & Hfm');
    [|apply sortSlice_nameLess_sorted].
  rewrite Hfl0 in Hfl. cbn in Hfl.
  assert (Hdomperm : forall f, dominatesF f (sortSlice nameLess fields)
                               <-> dominates f fields).
  { intros f. rewrite dominates_dominatesF.
    split; apply dominatesF_perm; [|symmetry]; apply sortSlice_perm. }
  pose proof Hloop0 as Hinv.
  apply dominanceLoop_ok_inv in Hinv as [Hdom _];
    [|apply sortSlice_nameLess_sorted].
  split; [done|]. split; [done|]. split; [|split; [|split]].
  - apply (NoDup_Permutation_proper _ _
             (Permutation_map name (sortSlice_perm byIndexLess (fl sd')))).
    rewrite Hfl. by apply StronglySorted_nameLt_NoDup.
  - intros f. rewrite <- list_elem_of_In, sortSlice_perm, Hfl, Hhs.
    apply Hdomperm.
  - intros nm f. rewrite <- list_elem_of_In, sortSlice_perm, Hfl, Hhs. split.
    + intros Hlook.
      destruct (sameName nm (sortSlice nameLess fields)) as [|g gs] eqn:Hsame.
      * rewrite Hfm', Hfm0 in Hlook; [done|].
        apply Forall_forall. intros g Hg Hn.
        assert (Hin : g ∈ sameName nm (sortSlice nameLess fields)).
        { by apply list_elem_of_filter. }
        rewrite Hsame in Hin. by apply elem_of_nil in Hin.
      * assert (Hg : g ∈ sameName nm (sortSlice nameLess fields))
          by (rewrite Hsame; left).
        apply list_elem_of_filter in Hg as [Hn Hg].
        destruct (Hdom g Hg) as (f' & Hn' & Hf').
        rewrite <- Hn, <- Hn', (Hfm f' Hf') in Hlook.
        injection Hlook as <-. split; [done|congruence].
    + intros [Hf <-]. by apply Hfm.
  - intros g Hg. destruct (Hdom g) as (f & Hn & Hf).
    { rewrite sortSlice_perm. by apply list_elem_of_In. }
    exists f. split; [|done].
    rewrite <- list_elem_of_In, sortSlice_perm, Hfl. by apply Hhs.
Qed.

Lemma resolveFields_fl_sorted fields sd0 sd :
  resolveFields ov eod t fields sd0 = Ok sd ->
  StronglySorted (fun x y => byIndexLess y x = false) (fl sd).
Proof.
  unfold resolveFields.
  destruct (dominanceLoop _ ov eod t _ sd0) as [sd'| |]; try done.
  cbn. intros [= <-]. cbn [fl]. apply sortSlice_byIndexLess_sorted.
Qed.
End ResolveFacts.

(** ** The descriptor [describeStructSlow] returns *)

Section DescriptorFacts.
Variable parseStructTags parseJSONStructTags : StructField rtype -> result structTags.

Local Abbreviation describeStructSlow' :=
  (describeStructSlow parseStructTags parseJSONStructTags).
Local Abbreviation flattenedFields' :=
  (flattenedFields parseStructTags parseJSONStructTags).
Local Abbreviation describesField' :=
  (describesField parseStructTags parseJSONStructTags).

Lemma describeStructSlow_resolved sc r t useJSON eod sd :
  snd (describeStructSlow' sc r t useJSON eod) = Ok sd ->
  exists sc1 sd0 fields,
    flattenedFields' sc r t useJSON eod = (sc1, Ok (sd0, fields))
    /\ resolveFields (overwriteDuplicatedInlinedFields sc1) eod t fields sd0
       = Ok sd
    /\ fm sd0 = ∅ /\ fl sd0 = [].
Proof.
  rewrite describeStructSlow_flattened.
  destruct (flattenedFields' sc r t useJSON eod)
    as [sc1 [[sd0 fields]|e|m]] eqn:Hflat; cbn; [|done..].
  intros Hres. exists sc1, sd0, fields.
  destruct (flattenedFields_empty _ _ _ _ _ _ _ _ _ _ Hflat) as [Hfm Hfl].
  done.
Qed.

(** X2.  In every descriptor [describeStructSlow] returns, no two entries of
    [fl] carry the same document name, and [fm] maps a name to an entry
    exactly when that entry is in [fl] and carries the name. *)
Theorem describeStructSlow_wellformed sc r t useJSON eod sd :
  snd (describeStructSlow parseStructTags parseJSONStructTags sc r t
         useJSON eod) = Ok sd ->
  NoDup (map name (fl sd))
  /\ (forall nm f, fm sd !! nm = Some f <-> In f (fl sd) /\ name f = nm).
Proof.
  intros (sc1 & sd0 & fields & _ & Hres & Hfm & Hfl)%describeStructSlow_resolved.
  by destruct (resolveFields_char _ _ _ _ _ _ Hfm Hfl Hres)
    as (_ & _ & Hnd & _ & Hagree & _).
Qed.

(** X3.  Whenever [describeStructSlow] succeeds, whatever the duplicate
    policy, the entries of [fl] are exactly the fields of the flattened list
    that are strictly shallower than every other field of their name, every
    name of the flattened list has its entry, and the inline map index and
    the inline flag are those the first loop has set. *)
Theorem describeStructSlow_keeps_dominators sc r t useJSON eod sc1 sd0 fields sd :
  flattenedFields parseStructTags parseJSONStructTags sc r t useJSON eod
  = (sc1, Ok (sd0, fields)) ->
  snd (describeStructSlow parseStructTags parseJSONStructTags sc r t
         useJSON eod) = Ok sd ->
  (forall f, In f (fl sd) <-> dominates f fields)
  /\ (forall g, In g fields -> exists f, In f (fl sd) /\ name f = name g)
  /\ inlineMap sd = inlineMap sd0 /\ inlineFlag sd = inlineFlag sd0.
Proof.
  intros Hflat. rewrite describeStructSlow_flattened, Hflat. cbn. intros Hres.
  destruct (flattenedFields_empty _ _ _ _ _ _ _ _ _ _ Hflat) as [Hfm Hfl].
  by destruct (resolveFields_char _ _ _ _ _ _ Hfm Hfl Hres)
    as (Him & Hif & _ & Hkept & _ & Hcover).
Qed.

Lemma StronglySorted_impl {A} (R R' : A -> A -> Prop) l :
  (forall x y, R x y -> R' x y) -> StronglySorted R l -> StronglySorted R' l.
Proof.
  intros HR. induction 1 as [|x l Hs IH Hall]; constructor; [done|].
  eapply Forall_impl; [exact Hall|]. intros y. apply HR.
Qed.

(** X4.  The entries of [fl] are in the order of [byIndex]: no entry is
    before an entry that precedes it in [fl].  In particular they are in the
    order of the top-level fields they come from. *)
Theorem describeStructSlow_fl_sorted sc r t useJSON eod sd :
  snd (describeStructSlow parseStructTags parseJSONStructTags sc r t
         useJSON eod) = Ok sd ->
  StronglySorted (fun x y => byIndexLess y x = false) (fl sd)
  /\ StronglySorted (fun x y => topIndex x <= topIndex y) (fl sd).
Proof.
  intros (sc1 & sd0 & fields & _ & Hres & _)%describeStructSlow_resolved.
  apply resolveFields_fl_sorted in Hres. split; [done|].
  eapply StronglySorted_impl; [|exact Hres].
  intros x y. apply byIndexLess_topIndex.
Qed.

(** What the first loop adds to the pending list and does to the inline map
    index, for the fields [sfs] that sit at offset [i]. *)
Lemma collectFields_entries inl r t useJSON :
  forall sfs i sc sd fields sc1 sd1 fields1,
  collectFields parseStructTags parseJSONStructTags inl r t useJSON
    sfs i sc sd fields = (sc1, Ok (sd1, fields1)) ->
  (exists new,
     fields1 = fields ++ new
     /\ Forall (fun fd => exists j sf,
                  topIndex fd = i + j /\ sfs !! j = Some sf
                  /\ describesField' r useJSON sf fd) new)
  /\ (inlineMap sd1 = inlineMap sd
      \/ exists j sf el,
           inlineMap sd1 = Z.of_nat (i + j) /\ sfs !! j = Some sf
           /\ sfType sf = TMap tString el).
Proof.
  induction sfs as [|sf rest IH]; intros i sc sd fields sc1 sd1 fields1 H.
  { cbn in H. injection H as _ <- <-. split; [|by left].
    exists []. by rewrite app_nil_r. }
  assert (Hshift : forall (new : list fieldDescription),
            Forall (fun fd => exists j sf',
                      topIndex fd = S i + j /\ rest !! j = Some sf'
                      /\ describesField' r useJSON sf' fd) new ->
            Forall (fun fd => exists j sf',
                      topIndex fd = i + j /\ (sf :: rest) !! j = Some sf'
                      /\ describesField' r useJSON sf' fd) new).
  { intros new Hn. eapply Forall_impl; [exact Hn|].
    intros fd (j & sf' & Ht & Hj & Hd).
    exists (S j), sf'. split; [lia|]. by split. }
  assert (Hshiftmap : forall z : Z,
            (exists j sf' el, z = Z.of_nat (S i + j) /\ rest !! j = Some sf'
                              /\ sfType sf' = TMap tString el) ->
            exists j sf' el, z = Z.of_nat (i + j) /\ (sf :: rest) !! j = Some sf'
                             /\ sfType sf' = TMap tString el).
  { intros z (j & sf' & el & Hz & Hj & Hty). exists (S j), sf', el.
    split; [rewrite Hz; f_equal; lia|]. by split. }
  cbn [collectFields] in H.
  destruct (negb (String.eqb (sfPkgPath sf) "")
            && (negb (allowUnexportedFields sc) || negb (sfAnonymous sf)))
    eqn:Hvis.
  { apply IH in H as [(new & -> & Hnew) Hmap]. split.
    - exists new. split; [done|]. by apply Hshift.
    - destruct Hmap as [?|Hmap]; [by left|right; by apply Hshiftmap]. }
  assert (Hexp : sfPkgPath sf = "" \/ sfAnonymous sf = true).
  { destruct (String.eqb_spec (sfPkgPath sf) "") as [?|?]; [by left|].
    right. cbn in Hvis. destruct (sfAnonymous sf); [done|].
    by rewrite orb_true_r in Hvis. }
  destruct (if useJSON then parseJSONStructTags sf else parseStructTags sf)
    as [stags|e|m] eqn:Htags; try done.
  destruct (Skip stags) eqn:Hskip.
  { apply IH in H as [(new & -> & Hnew) Hmap]. split.
    - exists new. split; [done|]. by apply Hshift.
    - destruct Hmap as [?|Hmap]; [by left|right; by apply Hshiftmap]. }
  assert (Hinlined : forall fd0 : fieldDescription,
            Inline stags = true ->
            (exists n sfs, sfType sf = TStruct n sfs
                           \/ sfType sf = TPtr (TStruct n sfs)) ->
            exists j sf',
              topIndex (prependInline i fd0) = i + j
              /\ (sf :: rest) !! j = Some sf'
              /\ describesField' r useJSON sf' (prependInline i fd0)).
  { intros fd0 Hinl Hty. exists 0, sf. split.
    { unfold prependInline, topIndex. destruct (inline fd0); cbn; lia. }
    split; [done|]. split; [done|]. exists stags.
    split; [done|]. split; [done|].
    unfold prependInline. destruct (inline fd0); cbn; by repeat split. }
  assert (Hflat : forall sc' (inlinesf : structDescription),
            Inline stags = true ->
            (exists n sfs, sfType sf = TStruct n sfs
                           \/ sfType sf = TPtr (TStruct n sfs)) ->
            collectFields parseStructTags parseJSONStructTags inl r t useJSON
              rest (S i) sc'
              {| fm := fm sd; fl := fl sd; inlineMap := inlineMap sd;
                 inlineFlag := true |}
              (fields ++ map (prependInline i) (fl inlinesf))
            = (sc1, Ok (sd1, fields1)) ->
            (exists new,
               fields1 = fields ++ new
               /\ Forall (fun fd => exists j sf',
                            topIndex fd = i + j /\ (sf :: rest) !! j = Some sf'
                            /\ describesField' r useJSON sf' fd) new)
            /\ (inlineMap sd1 = inlineMap sd
                \/ exists j sf' el,
                     inlineMap sd1 = Z.of_nat (i + j)
                     /\ (sf :: rest) !! j = Some sf'
                     /\ sfType sf' = TMap tString el)).
  { intros sc' inlinesf Hinl Hty H'.
    apply IH in H' as [(new & -> & Hnew) Hmap]. split.
    - exists (map (prependInline i) (fl inlinesf) ++ new).
      split; [by rewrite app_assoc|].
      apply Forall_app. split; [|by apply Hshift].
      apply Forall_forall. intros fd (fd0 & -> & _)%list_elem_of_fmap.
      by apply Hinlined.
    - destruct Hmap as [?|Hmap]; [by left|right; by apply Hshiftmap]. }
  destruct (Inline stags) eqn:Hinl.
  - destruct (sfType sf) as [| | |elem| | |key el|n sfs] eqn:Hty; try done.
    + destruct elem as [| | | | | | |n sfs]; try done.
      destruct (inl sc (TStruct n sfs)) as [sc' [inlinesf|e|m]]; try done.
      apply (Hflat sc' inlinesf); [done| |done]. exists n, sfs. by right.
    + cbn [inlineMap] in H. destruct (0 <=? inlineMap sd)%Z; [done|].
      destruct (rtype_eqb key tString) eqn:Hkey; [|done]. cbn [negb] in H.
      apply rtype_eqb_eq in Hkey as ->.
      apply IH in H as [(new & -> & Hnew) Hmap]. split.
      * exists new. split; [done|]. by apply Hshift.
      * right. destruct Hmap as [Hmap|Hmap]; [|by apply Hshiftmap].
        cbn in Hmap. exists 0, sf, el. split; [|done].
        rewrite Hmap. f_equal. lia.
    + destruct (inl sc (TStruct n sfs)) as [sc' [inlinesf|e|m]]; try done.
      apply (Hflat sc' inlinesf); [done| |done]. exists n, sfs. by left.
  - apply IH in H as [(new & -> & Hnew) Hmap]. split.
    + eexists (_ :: new). split; [by rewrite <- app_assoc|].
      constructor; [|by apply Hshift].
      exists 0, sf. split; [cbn; lia|]. split; [done|].
      split; [done|]. exists stags. split; [done|]. split; [done|].
      cbn. by repeat split.
    + destruct Hmap as [?|Hmap]; [by left|right; by apply Hshiftmap].
Qed.

(** X5.  Every entry of a descriptor of the struct type [t] points at a
    field of [t] that the first loop has visited: the field at the top-level
    index of the entry exists, it is exported or embedded, and its tag
    neither skips it nor fails to parse.  An entry without inline path
    carries the name and the options of that tag and the Go name of the
    field; an entry with an inline path comes from a field tagged inline
    whose type is a struct or a pointer to a struct. *)
Theorem describeStructSlow_entries sc r n tfields useJSON eod sd fd :
  snd (describeStructSlow parseStructTags parseJSONStructTags sc r
         (TStruct n tfields) useJSON eod) = Ok sd ->
  In fd (fl sd) ->
  exists sf,
    tfields !! topIndex fd = Some sf
    /\ describesField parseStructTags parseJSONStructTags r useJSON sf fd.
Proof.
  intros (sc1 & sd0 & fields & Hflat & Hres & Hfm & Hfl)%describeStructSlow_resolved
    Hin.
  destruct (resolveFields_char _ _ _ _ _ _ Hfm Hfl Hres)
    as (_ & _ & _ & Hkept & _).
  apply Hkept, dominates_In in Hin.
  cbn [flattenedFields] in Hflat.
  apply collectFields_entries in Hflat as [(new & -> & Hnew) _].
  cbn in Hin. rewrite Forall_forall in Hnew.
  destruct (Hnew fd) as (j & sf & Htop & Hj & Hd); [by apply list_elem_of_In|].
  exists sf. by rewrite Htop.
Qed.

(** X6.  A descriptor of the struct type [t] has no inline map, or its
    inline map index is the index of a field of [t] whose type is a map with
    string keys. *)
Theorem describeStructSlow_inlineMap sc r n tfields useJSON eod sd :
  snd (describeStructSlow parseStructTags parseJSONStructTags sc r
         (TStruct n tfields) useJSON eod) = Ok sd ->
  inlineMap sd = (-1)%Z
  \/ exists i sf el,
       inlineMap sd = Z.of_nat i /\ tfields !! i = Some sf
       /\ sfType sf = TMap tString el.
Proof.
  intros (sc1 & sd0 & fields & Hflat & Hres & Hfm & Hfl)%describeStructSlow_resolved.
  destruct (resolveFields_char _ _ _ _ _ _ Hfm Hfl Hres) as (Him & _).
  rewrite Him. cbn [flattenedFields] in Hflat.
  apply collectFields_entries in Hflat as [_ Hmap]. cbn in Hmap.
  destruct Hmap as [?|Hmap]; [by left|by right].
Qed.
End DescriptorFacts.

(** ** The dominance pass and the order [sort.Slice] leaves *)

Lemma nameLt_sorted_unique : forall hs1 hs2,
  StronglySorted nameLt hs1 -> StronglySorted nameLt hs2 ->
  (forall f, f ∈ hs1 <-> f ∈ hs2) -> hs1 = hs2.
Proof.
  induction hs1 as [|h1 hs1 IH]; intros hs2 Hs1 Hs2 Hsame.
  - destruct hs2 as [|h2 hs2]; [done|].
    assert (H : h2 ∈ []) by (apply Hsame; left). by apply elem_of_nil in H.
  - destruct hs2 as [|h2 hs2].
    { assert (H : h1 ∈ []) by (apply Hsame; left). by apply elem_of_nil in H. }
    apply StronglySorted_inv in Hs1 as [Hs1 Hall1].
    apply StronglySorted_inv in Hs2 as [Hs2 Hall2].
    rewrite Forall_forall in Hall1, Hall2.
    assert (Hhead : h1 = h2).
    { assert (H12 : h1 ∈ h2 :: hs2) by (apply Hsame; left).
      assert (H21 : h2 ∈ h1 :: hs1) by (apply Hsame; left).
      apply elem_of_cons in H12 as [?|H12]; [done|].
      apply elem_of_cons in H21 as [?|H21]; [done|].
      apply Hall2 in H12. apply Hall1 in H21. unfold nameLt in *.
      exfalso. eapply string_lt_irrefl, string_lt_trans; eassumption. }
    subst h2. f_equal. apply IH; [done..|].
    intros f. split; intros Hf.
    + assert (H : f ∈ h1 :: hs2) by (apply Hsame; by right).
      apply elem_of_cons in H as [->|H]; [|done].
      apply Hall1 in Hf. by apply string_lt_irrefl in Hf.
    + assert (H : f ∈ h1 :: hs1) by (apply Hsame; by right).
      apply elem_of_cons in H as [->|H]; [|done].
      apply Hall2 in Hf. by apply string_lt_irrefl in Hf.
Qed.

(** X7.  The dominance pass depends only on the order of the pending
    fields by name and by depth.  The third key of the comparison given to
    [sort.Slice], the index sequence, and what the sort, which is not
    stable, does with fields that compare equal, do not matter: if the loop
    succeeds on one arrangement of the fields that is sorted by name and
    depth, it returns the same descriptor on every such arrangement. *)
Theorem dominanceLoop_sort_independent ov eod t s1 s2 sd0 sd1 :
  s1 ≡ₚ s2 ->
  StronglySorted coarseLe s1 -> StronglySorted coarseLe s2 ->
  dominanceLoop (length s1) ov eod t s1 sd0 = Ok sd1 ->
  dominanceLoop (length s2) ov eod t s2 sd0 = Ok sd1.
Proof.
  intros Hperm Hs1 Hs2 Hrun1.
  pose proof Hrun1 as Hinv.
  apply dominanceLoop_ok_inv in Hinv as [Hdom1 Hcol1]; [|done].
  destruct (dominanceLoop_succeeds ov eod t (length s2) s2 sd0) as [sd2 Hrun2];
    [done|done| | |].
  { intros g Hg. rewrite <- Hperm in Hg.
    destruct (Hdom1 g Hg) as (f & Hn & Hf). exists f. split; [done|].
    by apply (dominatesF_perm f s1 s2). }
  { intros nm Hc. apply (Hcol1 nm). unfold collidesOn, sameName in *.
    by rewrite Hperm. }
  rewrite Hrun2. f_equal.
  apply dominanceLoop_char in Hrun1
    as (Him1 & Hif1 & hs1 & Hfl1 & Hsorted1 & Hhs1 & Hfm1 & Hfm1'); [|done].
  apply dominanceLoop_char in Hrun2
    as (Him2 & Hif2 & hs2 & Hfl2 & Hsorted2 & Hhs2 & Hfm2 & Hfm2'); [|done].
  assert (Hdomperm : forall f, dominatesF f s1 <-> dominatesF f s2).
  { intros f. split; apply dominatesF_perm; [done|by symmetry]. }
  assert (Hhs : hs2 = hs1).
  { apply nameLt_sorted_unique; [done..|].
    intros f. by rewrite Hhs1, Hhs2, Hdomperm. }
  assert (Hfm : fm sd2 = fm sd1).
  { apply map_eq. intros nm.
    destruct (sameName nm s1) as [|g gs] eqn:Hsame.
    - assert (Hnone : forall s, s1 ≡ₚ s -> Forall (fun g => name g <> nm) s).
      { intros s Hp. apply Forall_forall. intros g Hg Hn.
        assert (Hin : g ∈ sameName nm s1).
        { apply list_elem_of_filter. split; [done|]. by rewrite Hp. }
        rewrite Hsame in Hin. by apply elem_of_nil in Hin. }
      rewrite Hfm1', Hfm2'; [done|by apply Hnone..].
    - assert (Hg : g ∈ sameName nm s1) by (rewrite Hsame; left).
      apply list_elem_of_filter in Hg as [Hn Hg].
      destruct (Hdom1 g Hg) as (f & Hnf & Hf).
      rewrite <- Hn, <- Hnf.
      rewrite (Hfm1 f Hf). apply Hfm2. by apply Hdomperm. }
  destruct sd1, sd2. cbn in *. congruence.
Qed.

(** An instance: the field [A] at depth 0 and two inlined fields of the
    same name at depth 2, in the two orders a sort may leave them. *)
Lemma dominanceLoop_sort_independent_witness :
  dominanceLoop 3 true false tOuter [outerA; outerB2; outerB] outerPending
  = Ok (keepField outerPending outerA).
Proof.
  apply (dominanceLoop_sort_independent true false tOuter
           [outerA; outerB; outerB2] [outerA; outerB2; outerB]).
  - apply perm_skip, perm_swap.
  - repeat constructor; right; split; cbn; (done || lia).
  - repeat constructor; right; split; cbn; (done || lia).
  - reflexivity.
Defined.

(** ** Instances of the descriptor theorems *)

Lemma describeStructSlow_wellformed_witness :
  exists sd,
    snd (describeStructSlow exampleParseTags exampleParseTags exampleCodec
           exampleRegistry tOuter false false) = Ok sd
    /\ NoDup (map name (fl sd))
    /\ (forall nm f, fm sd !! nm = Some f <-> In f (fl sd) /\ name f = nm).
Proof.
  destruct (snd (describeStructSlow exampleParseTags exampleParseTags
                   exampleCodec exampleRegistry tOuter false false))
    as [sd|e|m] eqn:Hrun; [|by vm_compute in Hrun..].
  exists sd. split; [done|].
  exact (describeStructSlow_wellformed exampleParseTags exampleParseTags
           exampleCodec exampleRegistry tOuter false false sd Hrun).
Defined.

Lemma describeStructSlow_keeps_dominators_witness :
  exists sd,
    snd (describeStructSlow exampleParseTags exampleParseTags exampleCodec
           exampleRegistry tOuter false false) = Ok sd
    /\ (forall f, In f (fl sd) <-> dominates f outerFields)
    /\ (forall g, In g outerFields -> exists f, In f (fl sd) /\ name f = name g)
    /\ inlineMap sd = inlineMap outerPending
    /\ inlineFlag sd = inlineFlag outerPending.
Proof.
  destruct (snd (describeStructSlow exampleParseTags exampleParseTags
                   exampleCodec exampleRegistry tOuter false false))
    as [sd|e|m] eqn:Hrun; [|by vm_compute in Hrun..].
  exists sd. split; [done|].
  exact (describeStructSlow_keeps_dominators exampleParseTags exampleParseTags
           exampleCodec exampleRegistry tOuter false false _ _ _ sd
           (outerFields_flattened false) Hrun).
Defined.

Lemma describeStructSlow_fl_sorted_witness :
  exists sd,
    snd (describeStructSlow exampleParseTags exampleParseTags exampleCodec
           exampleRegistry tOuter false false) = Ok sd
    /\ StronglySorted (fun x y => byIndexLess y x = false) (fl sd)
    /\ StronglySorted (fun x y => topIndex x <= topIndex y) (fl sd).
Proof.
  destruct (snd (describeStructSlow exampleParseTags exampleParseTags
                   exampleCodec exampleRegistry tOuter false false))
    as [sd|e|m] eqn:Hrun; [|by vm_compute in Hrun..].
  exists sd. split; [done|].
  exact (describeStructSlow_fl_sorted exampleParseTags exampleParseTags
           exampleCodec exampleRegistry tOuter false false sd Hrun).
Defined.

Lemma describeStructSlow_entries_witness :
  exists sf,
    [exported "A" tInt32 "x"; mkStructField "Inner" "" true tInner ",inline"]
      !! topIndex outerC = Some sf
    /\ describesField exampleParseTags exampleParseTags exampleRegistry false
         sf outerC.
Proof.
  destruct (snd (describeStructSlow exampleParseTags exampleParseTags
                   exampleCodec exampleRegistry tOuter false false))
    as [sd|e|m] eqn:Hrun; [|by vm_compute in Hrun..].
  apply (describeStructSlow_entries exampleParseTags exampleParseTags
           exampleCodec exampleRegistry "Outer" _ false false sd outerC Hrun).
  vm_compute in Hrun. injection Hrun as <-. right. left. reflexivity.
Defined.

Lemma describeStructSlow_inlineMap_witness :
  exists sd,
    snd (describeStructSlow exampleParseTags exampleParseTags exampleCodec
           exampleRegistry tCatch false false) = Ok sd
    /\ (inlineMap sd = (-1)%Z
        \/ exists i sf el,
             inlineMap sd = Z.of_nat i /\ catchFields !! i = Some sf
             /\ sfType sf = TMap tString el).
Proof.
  destruct (snd (describeStructSlow exampleParseTags exampleParseTags
                   exampleCodec exampleRegistry tCatch false false))
    as [sd|e|m] eqn:Hrun; [|by vm_compute in Hrun..].
  exists sd. split; [done|].
  exact (describeStructSlow_inlineMap exampleParseTags exampleParseTags
           exampleCodec exampleRegistry "Catch" catchFields false false sd Hrun).
Defined.

(** ** More on the encode traversal *)

Lemma fieldByIndexFrom_app : forall pre post v first,
  fieldByIndexFrom v (pre ++ post) first
  = match pre with
    | [] => fieldByIndexFrom v post first
    | _ :: _ =>
        v' ← fieldByIndexFrom v pre first; fieldByIndexFrom v' post false
    end.
Proof.
  induction pre as [|x pre IH]; intros post v first; [done|].
  cbn [app fieldByIndexFrom].
  destruct (match data v with
            | VPtr (TStruct _ _) target =>
                if first then Ok v
                else match target with
                     | None =>
                         Panic "reflect: indirection through nil pointer to embedded struct"
                     | Some _ => Elem v
                     end
            | _ => Ok v
            end) as [v1|e|m]; [|done..].
  cbn [mbind result_bind]. destruct (Field v1 x) as [v2|e|m]; [|done..].
  cbn [mbind result_bind]. rewrite IH.
  destruct pre; [done|]. done.
Qed.

Lemma FieldByIndex_from v index :
  FieldByIndex v index
  = match index with
    | [_] => fieldByIndexFrom v index true
    | _ =>
        if reflect.Kind_eqb (ValueKind v) reflect.Struct
        then fieldByIndexFrom v index true
        else Panic "reflect: call of reflect.Value.FieldByIndex on a value that is not a struct"
    end.
Proof.
  destruct index as [|x [|y rest]]; [done| |done].
  cbn [FieldByIndex fieldByIndexFrom].
  assert (H : match data v with
              | VPtr (TStruct _ _) _ => Ok v
              | _ => Ok v
              end = Ok v).
  { by destruct (data v) as [| | | |[]| | | |]. }
  rewrite H. cbn [mbind result_bind]. by destruct (Field v x).
Qed.

Lemma FieldByIndex_struct v index f :
  index <> [] -> FieldByIndex v index = Ok f ->
  reflect.Kind_eqb (ValueKind v) reflect.Struct = true.
Proof.
  destruct index as [|x [|y rest]]; [done| |].
  - intros _. cbn [FieldByIndex]. unfold Field, ValueKind, kindOf.
    by destruct (data v).
  - intros _. cbn [FieldByIndex].
    by destruct (reflect.Kind_eqb (ValueKind v) reflect.Struct).
Qed.

(** A path that passes through a nil pointer to a struct does not resolve:
    [fieldByIndexErr] returns an error. *)
Lemma fieldByIndexErr_nil_ancestor val pre post p a b :
  pre <> [] -> post <> [] ->
  fieldByIndexErr val pre = Ok p ->
  data p = VPtr (TStruct a b) None ->
  exists e, fieldByIndexErr val (pre ++ post) = Err e.
Proof.
  intros Hpre Hpost Hp Hnil. unfold fieldByIndexErr in *.
  destruct (FieldByIndex val pre) as [p'|e|m] eqn:Hfield; try done.
  injection Hp as ->.
  pose proof (FieldByIndex_struct _ _ _ Hpre Hfield) as Hkind.
  rewrite FieldByIndex_from in Hfield.
  assert (Hfrom : fieldByIndexFrom val pre true = Ok p).
  { destruct pre as [|x [|y pre]]; [done|done|]. by rewrite Hkind in Hfield. }
  assert (Hrun : FieldByIndex val (pre ++ post)
                 = Panic "reflect: indirection through nil pointer to embedded struct").
  { rewrite FieldByIndex_from.
    assert (Hall : fieldByIndexFrom val (pre ++ post) true
                   = Panic "reflect: indirection through nil pointer to embedded struct").
    { rewrite fieldByIndexFrom_app. destruct pre as [|x pre]; [done|].
      rewrite Hfrom. cbn [mbind result_bind].
      destruct post as [|y post]; [done|].
      cbn [fieldByIndexFrom]. by rewrite Hnil. }
    rewrite Hkind.
    by destruct (pre ++ post) as [|x [|y l]]. }
  rewrite Hrun. by eexists.
Qed.

Section EncodeLoopFacts.
Variable implementsZeroer : rtype -> bool.
Variable zeroerIsZero : rvalue -> bool.
Variable timeIsZero : rvalue -> bool.
Variable lookupElementEncoder :
  EncodeContext -> option ValueEncoder -> Value
  -> option ValueEncoder * Value * option error.
Variable runEncoder :
  ValueEncoder -> structCodec -> EncodeContext -> Value
  -> structCodec * result bvalue.

Local Abbreviation encodeField' :=
  (encodeField implementsZeroer zeroerIsZero timeIsZero lookupElementEncoder
     runEncoder).
Local Abbreviation encodeFields' :=
  (encodeFields implementsZeroer zeroerIsZero timeIsZero lookupElementEncoder
     runEncoder).

(** X8.  When the loop of [EncodeValue] over the field descriptions
    succeeds, it has appended elements to the document and touched none
    that was there; the names of the new elements are names of the
    descriptions, in the order of the descriptions and at most one element
    per description.  If no two descriptions share a name, no two of the new
    elements do. *)
Theorem encodeFields_written_names ec val : forall descs sc dw sc' dw',
  encodeFields implementsZeroer zeroerIsZero timeIsZero
    lookupElementEncoder runEncoder sc ec val descs dw = (sc', Ok dw') ->
  exists out,
    dw' = dw ++ out
    /\ sublist (map fst out) (map name descs)
    /\ (NoDup (map name descs) -> NoDup (map fst out)).
Proof.
  assert (Hmain : forall descs sc dw sc' dw',
            encodeFields' sc ec val descs dw = (sc', Ok dw') ->
            exists out, dw' = dw ++ out
                        /\ sublist (map fst out) (map name descs)).
  { induction descs as [|desc rest IH]; intros sc dw sc' dw' H.
    - cbn in H. injection H as _ <-. exists []. rewrite app_nil_r.
      split; [done|]. constructor.
    - cbn [encodeFields] in H.
      destruct (encodeField' sc ec val desc) as [sc1 [|v|e|m]]; try done.
      + apply IH in H as (out & -> & Hsub). exists out. split; [done|].
        cbn [map]. by apply sublist_cons.
      + apply IH in H as (out & -> & Hsub). exists ((name desc, v) :: out).
        split; [by rewrite <- app_assoc|]. cbn [map fst].
        by apply sublist_skip. }
  intros descs sc dw sc' dw' H.
  destruct (Hmain _ _ _ _ _ H) as (out & Hout & Hsub).
  exists out. split; [done|]. split; [done|].
  intros Hnd. by eapply sublist_NoDup.
Qed.

(** X9.  A field inlined through a pointer that is nil is left out of the
    document: when the inline path of a description passes through a nil
    pointer to a struct, the iteration of [EncodeValue] for it writes
    nothing and reports no error. *)
Theorem encodeField_nil_inline_ancestor sc ec val desc pre post p a b :
  inline desc = pre ++ post ->
  pre <> [] -> post <> [] ->
  fieldByIndexErr val pre = Ok p ->
  data p = VPtr (TStruct a b) None ->
  encodeField implementsZeroer zeroerIsZero timeIsZero
    lookupElementEncoder runEncoder sc ec val desc = (sc, Skipped).
Proof.
  intros Hinline Hpre Hpost Hp Hnil.
  destruct (fieldByIndexErr_nil_ancestor val pre post p a b Hpre Hpost Hp Hnil)
    as [e He].
  unfold encodeField, encodeFieldValue. rewrite Hinline.
  destruct (pre ++ post) eqn:Happ.
  - by destruct pre.
  - by rewrite He.
Qed.
End EncodeLoopFacts.

Lemma encodeFields_written_names_witness :
  exists out,
    [("x", BInt32 7); ("c", BInt32 6)] = [] ++ out
    /\ sublist (map fst out) (map name [outerA; outerC])
    /\ (NoDup (map name [outerA; outerC]) -> NoDup (map fst out)).
Proof.
  apply (encodeFields_written_names exampleImplementsZeroer exampleZeroerIsZero
           exampleTimeIsZero specLookupElementEncoder exampleEncoders
           (exampleEncodeContext false) outerValue
           [outerA; outerC] exampleCodec [] exampleCodec).
  reflexivity.
Defined.

Lemma encodeField_nil_inline_ancestor_witness :
  encodeField exampleImplementsZeroer exampleZeroerIsZero exampleTimeIsZero
    specLookupElementEncoder exampleEncoders exampleCodec
    (exampleEncodeContext false) nilInlinePointerValue inlinedB
  = (exampleCodec, Skipped).
Proof.
  apply (encodeField_nil_inline_ancestor exampleImplementsZeroer
           exampleZeroerIsZero exampleTimeIsZero specLookupElementEncoder
           exampleEncoders exampleCodec (exampleEncodeContext false)
           nilInlinePointerValue inlinedB [0] [0]
           (settable (VPtr tInner None)) "Inner"
           [exported "B" tInt32 "x"; exported "C" tInt32 ""]).
  - reflexivity.
  - discriminate.
  - discriminate.
  - reflexivity.
  - reflexivity.
Defined.

(** ** More on the decode traversal *)

Lemma setByIndex_struct_frame n sfs fields x rest new :
  exists fields',
    setByIndex (VStruct n sfs fields) (x :: rest) true new = VStruct n sfs fields'
    /\ length fields' = length fields
    /\ forall i, i <> x -> fields' !! i = fields !! i.
Proof.
  cbn [setByIndex]. destruct (fields !! x) as [fx|].
  - eexists. split; [reflexivity|]. split; [by rewrite length_insert|].
    intros i Hi. by rewrite list_lookup_insert_ne.
  - by exists fields.
Qed.

Lemma rev_head_last {A} (l : list A) :
  l <> [] -> exists y path, rev l = y :: path /\ last l = Some y.
Proof.
  induction l as [|x l IH] using rev_ind; [done|]. intros _.
  rewrite rev_app_distr. cbn. exists x, (rev l). by rewrite last_snoc.
Qed.

Lemma fieldByIndexErr_nil_struct v n sfs fields :
  data v = VStruct n sfs fields -> fieldByIndexErr v [] = Ok v.
Proof.
  intros Hd. unfold fieldByIndexErr, FieldByIndex, ValueKind, kindOf.
  by rewrite Hd.
Qed.

(** [getInlineField] changes the destination only below the field at the
    head of the path. *)
Lemma getInlineFieldRev_frame n sfs : forall rindex val fields,
  data val = VStruct n sfs fields ->
  exists fields',
    data (getInlineFieldRev val rindex).1 = VStruct n sfs fields'
    /\ length fields' = length fields
    /\ forall i, last rindex <> Some i -> fields' !! i = fields !! i.
Proof.
  induction rindex as [|x rparent IH]; intros val fields Hd.
  { exists fields. split; [|done]. cbn [getInlineFieldRev].
    by destruct (fieldByIndexErr val (rev [])). }
  cbn [getInlineFieldRev].
  destruct (fieldByIndexErr val (rev (x :: rparent))) as [f|e|m];
    [by exists fields| |by exists fields].
  assert (Hstep : forall val1 fields1 (parent : result Value),
            data val1 = VStruct n sfs fields1 ->
            length fields1 = length fields ->
            (forall i, last rparent <> Some i -> fields1 !! i = fields !! i) ->
            (rparent = [] -> parent = Ok val1) ->
            exists fields',
              data (match parent with
                    | Err e0 => (val1, Err e0)
                    | Panic m => (val1, Panic m)
                    | Ok fParent =>
                        match pt ← ValueType fParent; TypeElem pt with
                        | Ok et =>
                            if negb (flagAddr fParent) then
                              (val1, Panic "reflect: reflect.Value.Set using unaddressable value")
                            else if flagRO fParent then
                              (val1, Panic "reflect: reflect.Value.Set using value obtained using unexported field")
                            else
                              (withData val1
                                 (setByIndex (data val1) (rev rparent) true
                                    (data (New et))),
                               fieldByIndexErr
                                 (withData val1
                                    (setByIndex (data val1) (rev rparent) true
                                       (data (New et))))
                                 (rev (x :: rparent)))
                        | Err e0 => (val1, Err e0)
                        | Panic m => (val1, Panic m)
                        end
                    end).1 = VStruct n sfs fields'
              /\ length fields' = length fields
              /\ forall i, last (x :: rparent) <> Some i ->
                           fields' !! i = fields !! i).
  { intros val1 fields1 parent Hd1 Hlen1 Hframe1 Hroot.
    assert (Hlast : forall i, last (x :: rparent) <> Some i ->
                              rparent = [] \/ last rparent <> Some i).
    { intros i Hi. destruct rparent; [by left|by right]. }
    assert (Hkeep : exists fields',
              data val1 = VStruct n sfs fields'
              /\ length fields' = length fields
              /\ forall i, last (x :: rparent) <> Some i ->
                           fields' !! i = fields !! i).
    { exists fields1. split; [done|]. split; [done|].
      intros i Hi. apply Hframe1. destruct rparent; [done|]. exact Hi. }
    destruct parent as [fParent|e0|m0]; [|done..].
    destruct (pt ← ValueType fParent; TypeElem pt) as [et|e0|m0] eqn:Hty;
      [|done..].
    destruct (negb (flagAddr fParent)); [done|].
    destruct (flagRO fParent); [done|]. cbn [fst data withData].
    destruct rparent as [|y rparent'].
    { specialize (Hroot eq_refl). injection Hroot as ->.
      unfold ValueType in Hty. by rewrite Hd1 in Hty. }
    destruct (rev_head_last (y :: rparent')) as (z & path & Hrev & Hz); [done|].
    rewrite Hrev, Hd1.
    destruct (setByIndex_struct_frame n sfs fields1 z path (data (New et)))
      as (fields2 & -> & Hlen2 & Hframe2).
    exists fields2. split; [done|]. split; [congruence|].
    intros i Hi. change (last (x :: y :: rparent')) with (last (y :: rparent')) in Hi.
    rewrite Hframe2 by congruence. by apply Hframe1. }
  destruct (fieldByIndexErr val (rev rparent)) as [fp|e'|m'] eqn:Hparent.
  - apply (Hstep val fields (Ok fp)); [done..|].
    intros ->. cbn in Hparent.
    by rewrite (fieldByIndexErr_nil_struct _ _ _ _ Hd) in Hparent.
  - destruct (IH val fields Hd) as (fields1 & Hd1 & Hlen1 & Hframe1).
    destruct (getInlineFieldRev val rparent) as [val1 parent].
    apply (Hstep val1 fields1 parent); [done..|].
    intros ->. cbn in Hparent.
    by rewrite (fieldByIndexErr_nil_struct _ _ _ _ Hd) in Hparent.
  - by exists fields.
Qed.

Lemma getInlineField_frame n sfs val fields x rest :
  data val = VStruct n sfs fields ->
  exists fields',
    data (getInlineField val (x :: rest)).1 = VStruct n sfs fields'
    /\ length fields' = length fields
    /\ forall i, i <> x -> fields' !! i = fields !! i.
Proof.
  intros Hd. unfold getInlineField.
  destruct (getInlineFieldRev_frame n sfs (rev (x :: rest)) val fields Hd)
    as (fields' & Hd' & Hlen & Hframe).
  exists fields'. split; [done|]. split; [done|].
  intros i Hi. apply Hframe. cbn [rev]. rewrite last_snoc. congruence.
Qed.

Section DecodeMoreFacts.
Variable parseStructTags parseJSONStructTags : StructField rtype -> result structTags.
Variable runDecoder :
  ValueDecoder -> structCodec -> DecodeContext -> ValueReader -> Value
  -> structCodec * rvalue * result unit.
Variable ToLower : string -> string.

Local Abbreviation DecodeValue' :=
  (DecodeValue parseStructTags parseJSONStructTags runDecoder ToLower).
Local Abbreviation decodePrologue' :=
  (decodePrologue parseStructTags parseJSONStructTags).
Local Abbreviation decodeElements' := (decodeElements runDecoder ToLower).
Local Abbreviation decodeUnmatched' := (decodeUnmatched runDecoder).
Local Abbreviation decodeMatched' := (decodeMatched runDecoder).

Lemma decodeElements_unmatched_skipped dc sd : forall elems st,
  (inlineMap sd < 0)%Z ->
  (forall nm, In nm (map fst elems) -> lookupField ToLower sd nm = None) ->
  decodeElements' dc sd elems st = (st, Ok tt).
Proof.
  induction elems as [|[nm v] elems IH]; intros st Hno Hnone; [done|].
  cbn [decodeElements]. rewrite (Hnone nm) by (by left).
  unfold decodeUnmatched, Skip_.
  replace (inlineMap sd <? 0)%Z with true by (symmetry; by apply Z.ltb_lt).
  apply IH; [done|]. intros nm' Hin. apply Hnone. by right.
Qed.

(** X10.  Let the descriptor of the destination have no inline map, and let
    no element name of the document be a name of [fm], neither as it is nor
    in the lower case [strings.ToLower] gives.  With a reader whose [Skip]
    does not fail, as the reader of the model, [DecodeValue] returns no
    error, and the destination and the codec are as they were when the loop
    over the elements started. *)
Theorem DecodeValue_unmatched_skipped sc dc vr val sd st elems :
  decodePrologue parseStructTags parseJSONStructTags sc dc vr val
  = Proceed sd st elems ->
  (inlineMap sd < 0)%Z ->
  (forall nm, In nm (map fst elems) -> lookupField ToLower sd nm = None) ->
  DecodeValue parseStructTags parseJSONStructTags runDecoder ToLower sc dc vr val
  = (ds_sc st, data (ds_val st), Ok tt).
Proof.
  intros Hpro Hno Hnone. unfold DecodeValue. rewrite Hpro.
  by rewrite decodeElements_unmatched_skipped.
Qed.

(** The destination a matched element leaves is the destination
    [getInlineField] has returned, with or without a new value at the path
    of the field. *)
Lemma decodeMatched_state dc st fd vr :
  let val := match inline fd with
             | [] => ds_val st
             | _ :: _ => (getInlineField (ds_val st) (inline fd)).1
             end in
  ds_val (outcomeState (decodeMatched' dc st fd vr)) = val
  \/ exists d,
       ds_val (outcomeState (decodeMatched' dc st fd vr))
       = withData val (setByIndex (data val) (fieldPath fd) true d).
Proof.
  unfold decodeMatched.
  destruct (match inline fd with
            | [] => (ds_val st, Field (ds_val st) (idx fd))
            | _ :: _ => getInlineField (ds_val st) (inline fd)
            end) as [val rfield] eqn:Hval.
  assert (Hv : match inline fd with
               | [] => ds_val st
               | _ :: _ => (getInlineField (ds_val st) (inline fd)).1
               end = val).
  { destruct (inline fd); [by injection Hval as <- _|by rewrite Hval]. }
  cbn zeta. rewrite Hv.
  destruct rfield as [field|e|m]; [|by left..].
  destruct (data field) as [| | |iname [dyn|]|pe [pt|]| | | |] eqn:Hdata.
  all: try (destruct (negb (CanSet field)); [by left|];
            destruct (decoder fd) as [fdecoder|];
            [destruct (runDecoder fdecoder _ _ vr _) as [[sc' d'] [u|e|m]];
             right; by eexists
            |destruct (ValueType _); right; by eexists]).
  destruct dyn as [| | | |pelem ptarget| | | |].
  all: try (destruct (negb (CanSet field)); [by left|];
            destruct (decoder fd) as [fdecoder|];
            [destruct (runDecoder fdecoder _ _ vr _) as [[sc' d'] [u|e|m]];
             right; by eexists
            |destruct (ValueType _); right; by eexists]).
  destruct (vt ← ValueType _; Ok vt) as [vt|e|m]; [|by left..].
  destruct (LookupDecoder (dc_Registry dc) vt) as [decoder0|e|m]; [|by left..].
  destruct (runDecoder decoder0 _ dc vr _) as [[sc' d'] [u|e|m]];
    right; by eexists.
Qed.

Lemma decodeMatched_frame dc st fd vr n sfs fields :
  data (ds_val st) = VStruct n sfs fields ->
  exists fields',
    data (ds_val (outcomeState (decodeMatched' dc st fd vr)))
    = VStruct n sfs fields'
    /\ length fields' = length fields
    /\ forall i, i <> topIndex fd -> fields' !! i = fields !! i.
Proof.
  intros Hd.
  assert (Hval : exists fields1,
            data (match inline fd with
                  | [] => ds_val st
                  | _ :: _ => (getInlineField (ds_val st) (inline fd)).1
                  end) = VStruct n sfs fields1
            /\ length fields1 = length fields
            /\ forall i, i <> topIndex fd -> fields1 !! i = fields !! i).
  { unfold topIndex. destruct (inline fd) as [|x rest]; [by exists fields|].
    by apply getInlineField_frame. }
  destruct Hval as (fields1 & Hd1 & Hlen1 & Hframe1).
  destruct (decodeMatched_state dc st fd vr) as [->|[d ->]].
  - by exists fields1.
  - cbn [data withData]. rewrite Hd1.
    assert (Hpath : exists rest, fieldPath fd = topIndex fd :: rest).
    { unfold fieldPath, topIndex. destruct (inline fd); by eexists. }
    destruct Hpath as [rest ->].
    destruct (setByIndex_struct_frame n sfs fields1 (topIndex fd) rest d)
      as (fields2 & -> & Hlen2 & Hframe2).
    exists fields2. split; [done|]. split; [congruence|].
    intros i Hi. rewrite Hframe2 by done. by apply Hframe1.
Qed.

Lemma decodeUnmatched_frame dc sd st nm vr n sfs fields :
  data (ds_val st) = VStruct n sfs fields ->
  exists fields',
    data (ds_val (outcomeState (decodeUnmatched' dc sd st nm vr)))
    = VStruct n sfs fields'
    /\ length fields' = length fields
    /\ forall i, ((0 <= inlineMap sd)%Z -> Z.to_nat (inlineMap sd) <> i) ->
                 fields' !! i = fields !! i.
Proof.
  intros Hd. unfold decodeUnmatched, Skip_.
  destruct (Z.ltb_spec (inlineMap sd) 0) as [Hneg|Hpos]; [by exists fields|].
  destruct (im ← Field (ds_val st) (Z.to_nat (inlineMap sd));
            isnil ← IsNil im; mt ← ValueType im; et ← TypeElem mt;
            Ok (im, isnil, mt, et)) as [[[[im isnil] mt] et]|e|m];
    [|by exists fields..].
  destruct (isnil && negb (CanSet im)); [by exists fields|].
  assert (Hmade : forall d, exists fields',
            data (withData (ds_val st)
                    (setByIndex (data (ds_val st))
                       [Z.to_nat (inlineMap sd)] true d))
            = VStruct n sfs fields'
            /\ length fields' = length fields
            /\ forall i, ((0 <= inlineMap sd)%Z -> Z.to_nat (inlineMap sd) <> i) ->
                         fields' !! i = fields !! i).
  { intros d. cbn [data withData]. rewrite Hd.
    destruct (setByIndex_struct_frame n sfs fields
                (Z.to_nat (inlineMap sd)) [] d)
      as (fields2 & -> & Hlen2 & Hframe2).
    exists fields2. split; [done|]. split; [done|].
    intros i Hi. apply Hframe2. specialize (Hi Hpos). congruence. }
  destruct (ds_decoder st) as [decoder|]; [|apply Hmade].
  destruct (runDecoder decoder (ds_sc st) dc vr (newIndirect et))
    as [[sc' elem] [u|e|m]]; [|apply Hmade..].
  destruct (flagRO im); apply Hmade.
Qed.

Lemma decodeElements_frame dc sd n sfs : forall elems st fields,
  data (ds_val st) = VStruct n sfs fields ->
  exists fields',
    data (ds_val (decodeElements' dc sd elems st).1) = VStruct n sfs fields'
    /\ length fields' = length fields
    /\ forall i,
         (forall nm fd, In nm (map fst elems) ->
                        lookupField ToLower sd nm = Some fd ->
                        topIndex fd <> i) ->
         ((0 <= inlineMap sd)%Z ->
          (exists nm, In nm (map fst elems)
                      /\ lookupField ToLower sd nm = None) ->
          Z.to_nat (inlineMap sd) <> i) ->
         fields' !! i = fields !! i.
Proof.
  induction elems as [|[nm v] elems IH]; intros st fields Hd.
  { by exists fields. }
  cbn [decodeElements].
  assert (Hone : exists fields1,
            data (ds_val (outcomeState
                            (match lookupField ToLower sd nm with
                             | None => decodeUnmatched' dc sd st nm (ElementReader v)
                             | Some fd => decodeMatched' dc st fd (ElementReader v)
                             end))) = VStruct n sfs fields1
            /\ length fields1 = length fields
            /\ forall i,
                 (forall fd, lookupField ToLower sd nm = Some fd -> topIndex fd <> i) ->
                 ((0 <= inlineMap sd)%Z -> lookupField ToLower sd nm = None ->
                  Z.to_nat (inlineMap sd) <> i) ->
                 fields1 !! i = fields !! i).
  { destruct (lookupField ToLower sd nm) as [fd|].
    - destruct (decodeMatched_frame dc st fd (ElementReader v) n sfs fields Hd)
        as (fields1 & Hd1 & Hlen1 & Hframe1).
      exists fields1. split; [done|]. split; [done|].
      intros i Hm _. apply Hframe1. intros ->. by apply (Hm fd).
    - destruct (decodeUnmatched_frame dc sd st nm (ElementReader v) n sfs
                  fields Hd) as (fields1 & Hd1 & Hlen1 & Hframe1).
      exists fields1. split; [done|]. split; [done|].
      intros i _ Hu. apply Hframe1. intros Hpos. by apply Hu. }
  destruct Hone as (fields1 & Hd1 & Hlen1 & Hframe1).
  assert (Hweak : forall i,
            (forall nm' fd, In nm' (map fst ((nm, v) :: elems)) ->
                            lookupField ToLower sd nm' = Some fd -> topIndex fd <> i) ->
            ((0 <= inlineMap sd)%Z ->
             (exists nm', In nm' (map fst ((nm, v) :: elems))
                          /\ lookupField ToLower sd nm' = None) ->
             Z.to_nat (inlineMap sd) <> i) ->
            fields1 !! i = fields !! i).
  { intros i Hm Hu. apply Hframe1.
    - intros fd Hfd. apply (Hm nm fd); [by left|done].
    - intros Hpos Hnone. apply Hu; [done|]. exists nm. split; [by left|done]. }
  destruct (match lookupField ToLower sd nm with
            | None => decodeUnmatched' dc sd st nm (ElementReader v)
            | Some fd => decodeMatched' dc st fd (ElementReader v)
            end) as [st1|st1 e|st1 m]; cbn [outcomeState] in Hd1.
  - destruct (IH st1 fields1 Hd1) as (fields2 & Hd2 & Hlen2 & Hframe2).
    exists fields2. split; [done|]. split; [congruence|].
    intros i Hm Hu. rewrite Hframe2.
    + by apply Hweak.
    + intros nm' fd Hin. apply Hm. by right.
    + intros Hpos (nm' & Hin & Hnone). apply Hu; [done|].
      exists nm'. split; [by right|done].
  - exists fields1. split; [done|]. split; [done|]. exact Hweak.
  - exists fields1. split; [done|]. split; [done|]. exact Hweak.
Qed.

(** What the prologue of [DecodeValue] hands to the loop when no zeroing is
    asked for: the destination as it was given. *)
Lemma decodePrologue_destination sc dc vr val sd st elems :
  decodePrologue' sc dc vr val = Proceed sd st elems ->
  decodeZeroStruct (ds_sc st) || dc_zeroStructs dc = false ->
  decodeDeepZeroInline (ds_sc st) && inlineFlag sd = false ->
  ds_val st = val.
Proof.
  unfold decodePrologue.
  destruct (negb (CanSet val)
            || negb (reflect.Kind_eqb (ValueKind val) reflect.Struct)); [done|].
  destruct (ValueType val) as [t|e|m]; [|done..].
  intros Hpro Hzero Hdeep.
  assert (Hreached :
    match describeStruct parseStructTags parseJSONStructTags sc
            (dc_Registry dc) t (dc_useJSONStructTags dc) false with
    | (sc1, Err e) => Done sc1 (data val) (Err e)
    | (sc1, Panic m) => Done sc1 (data val) (Panic m)
    | (sc1, Ok sd0) =>
        let val1 :=
          if decodeZeroStruct sc1 || dc_zeroStructs dc
          then withData val (Zero t) else val in
        match (if decodeDeepZeroInline sc1 && inlineFlag sd0 then
                 dz ← deepZero t;
                 if negb (IsValid dz) then
                   Panic "reflect: call of reflect.Value.Set on zero Value"
                 else Ok (withData val1 (data dz))
               else Ok val1) with
        | Err e => Done sc1 (data val1) (Err e)
        | Panic m => Done sc1 (data val1) (Panic m)
        | Ok val2 =>
            match (if (0 <=? inlineMap sd0)%Z then
                     im ← Field val2 (Z.to_nat (inlineMap sd0));
                     mt ← ValueType im;
                     et ← TypeElem mt;
                     decoder ← LookupDecoder (dc_Registry dc) et;
                     Ok (Some decoder)
                   else Ok None) with
            | Err e => Done sc1 (data val2) (Err e)
            | Panic m => Done sc1 (data val2) (Panic m)
            | Ok decoder =>
                match ReadDocument vr with
                | Err e => Done sc1 (data val2) (Err e)
                | Panic m => Done sc1 (data val2) (Panic m)
                | Ok elems0 =>
                    Proceed sd0 (mkDecodeState sc1 val2 decoder) elems0
                end
            end
        end
    end = Proceed sd st elems).
  { destruct (vrType vr); try done.
    - by destruct (ReadNull vr).
    - by destruct (ReadUndefined vr). }
  clear Hpro.
  destruct (describeStruct _ _ sc _ t _ false) as [sc1 [sd0|e|m]]; [|done..].
  cbn zeta in Hreached.
  destruct (decodeZeroStruct sc1 || dc_zeroStructs dc) eqn:Hz.
  - destruct (if decodeDeepZeroInline sc1 && inlineFlag sd0 then _ else _)
      as [val2|e|m]; [|done..].
    destruct (if (0 <=? inlineMap sd0)%Z then _ else _) as [dec|e|m]; [|done..].
    destruct (ReadDocument vr) as [elems0|e|m]; [|done..].
    injection Hreached as <- <- <-. cbn [ds_sc] in Hzero. congruence.
  - destruct (decodeDeepZeroInline sc1 && inlineFlag sd0) eqn:Hdz.
    + destruct (dz ← deepZero t; _) as [val2|e|m]; [|done..].
      destruct (if (0 <=? inlineMap sd0)%Z then _ else _) as [dec|e|m]; [|done..].
      destruct (ReadDocument vr) as [elems0|e|m]; [|done..].
      injection Hreached as <- <- <-. cbn [ds_sc] in Hdeep. congruence.
    + destruct (if (0 <=? inlineMap sd0)%Z then _ else _) as [dec|e|m]; [|done..].
      destruct (ReadDocument vr) as [elems0|e|m]; [|done..].
      by injection Hreached as <- <- <-.
Qed.
(** X11.  [DecodeValue] changes the destination only where the document
    says so.  Whatever the outcome of the loop over the elements (success,
    an error or a panic half-way), the destination is still a struct of its
    type, and a top-level field keeps the value it had when the loop started
    unless an element of the document is matched to that field or to a field
    inlined through it, or the field is the inline map and an element of
    the document matches no field; elements are matched by their name and
    then by the lower case [strings.ToLower] gives.  When neither the codec
    nor the context asks for a zeroed destination, the loop starts from the
    destination as it was given.  Values are trees: the destination shares
    no pointer between two of its fields. *)
Theorem DecodeValue_frame sc dc vr val sd st elems n sfs fields :
  decodePrologue parseStructTags parseJSONStructTags sc dc vr val
  = Proceed sd st elems ->
  data (ds_val st) = VStruct n sfs fields ->
  (decodeZeroStruct (ds_sc st) || dc_zeroStructs dc = false ->
   decodeDeepZeroInline (ds_sc st) && inlineFlag sd = false ->
   ds_val st = val)
  /\ exists fields',
    (DecodeValue parseStructTags parseJSONStructTags runDecoder
       ToLower sc dc vr val).1.2 = VStruct n sfs fields'
    /\ length fields' = length fields
    /\ forall i,
         (forall nm fd, In nm (map fst elems) ->
                        lookupField ToLower sd nm = Some fd ->
                        topIndex fd <> i) ->
         ((0 <= inlineMap sd)%Z ->
          (exists nm, In nm (map fst elems)
                      /\ lookupField ToLower sd nm = None) ->
          Z.to_nat (inlineMap sd) <> i) ->
         fields' !! i = fields !! i.
Proof.
  intros Hpro Hd. split; [by apply (decodePrologue_destination _ _ _ _ _ _ _ Hpro)|].
  unfold DecodeValue. rewrite Hpro.
  destruct (decodeElements_frame dc sd n sfs elems st fields Hd)
    as (fields' & Hd' & Hlen & Hframe).
  destruct (decodeElements' dc sd elems st) as [st' r]. by exists fields'.
Qed.


(** X12.  Let the loop of [DecodeValue] reach an element matched to a field,
    directly or through an inline path, and let the decoder of the field
    fail on the value of the element.  Then [DecodeValue] returns a
    [DecodeError]: its key path starts with the document name of the field
    (the name of the descriptor, not the name as the document spells it) and
    goes on with the key path of the error of the decoder, if that is a
    [DecodeError] itself, and its cause is the innermost cause. *)
Theorem DecodeValue_field_error_wrapped
  sc dc vr val sd st0 elems pre nm v post st fd field fdecoder sc' d e :
  decodePrologue parseStructTags parseJSONStructTags sc dc vr val
  = Proceed sd st0 elems ->
  elems = pre ++ (nm, v) :: post ->
  decodeElements runDecoder ToLower dc sd pre st0 = (st, Ok tt) ->
  lookupField ToLower sd nm = Some fd ->
  match inline fd with
  | [] => Field (ds_val st) (idx fd)
  | _ :: _ => (getInlineField (ds_val st) (inline fd)).2
  end = Ok field ->
  match data field with
  | VIface _ (Some (VPtr _ _)) => False
  | _ => True
  end ->
  CanSet field = true ->
  decoder fd = Some fdecoder ->
  runDecoder fdecoder (ds_sc st) (fieldDecodeContext dc fd) (ElementReader v)
    match data field with
    | VPtr t None => withData field (VPtr t (Some (Zero t)))
    | _ => field
    end = (sc', d, Err e) ->
  exists err,
    (DecodeValue parseStructTags parseJSONStructTags runDecoder
       ToLower sc dc vr val).2 = Err err
    /\ Keys err
       = name fd :: match errorsAsDecodeError e with
                    | Some (keys, _) => rev keys
                    | None => []
                    end
    /\ Unwrap err
       = Some match errorsAsDecodeError e with
              | Some (_, wrapped) => wrapped
              | None => e
              end.
Proof.
  intros Hpro -> Hpre Hlook Hfield Hshape Hset Hdec Hrun.
  exists (newDecodeError (name fd) e). split.
  - unfold DecodeValue. rewrite Hpro, decodeElements_app, Hpre.
    cbn [decodeElements]. rewrite Hlook. unfold decodeMatched.
    destruct (match inline fd with
              | [] => (ds_val st, Field (ds_val st) (idx fd))
              | _ :: _ => getInlineField (ds_val st) (inline fd)
              end) as [val' rfield] eqn:Hval.
    assert (Hr : rfield = Ok field).
    { destruct (inline fd); [by injection Hval as _ <-|by rewrite Hval in Hfield]. }
    subst rfield. rewrite Hset, Hdec. cbn [negb].
    destruct (data field) as [| | |? [[| | | |? ?| | | |]|]|? [?|]| | | |];
      try done; by rewrite Hrun.
  - pose proof (Keys_newDecodeError (name fd) e) as Hkeys.
    destruct (errorsAsDecodeError e) as [[keys wrapped]|].
    + by rewrite Keys_rev in Hkeys.
    + done.
Qed.

End DecodeMoreFacts.

(** Instances, on [Inner] and [Outer] with the example codecs. *)

Lemma DecodeValue_unmatched_skipped_witness :
  exists sd st elems,
    decodePrologue exampleParseTags exampleParseTags exampleCodec
      exampleDecodeContext strangerDocument innerValue = Proceed sd st elems
    /\ DecodeValue exampleParseTags exampleParseTags (exampleDecoders 1)
         asciiToLower exampleCodec exampleDecodeContext strangerDocument innerValue
       = (ds_sc st, data (ds_val st), Ok tt).
Proof.
  destruct (decodePrologue exampleParseTags exampleParseTags exampleCodec
              exampleDecodeContext strangerDocument innerValue)
    as [sd st elems|sc' d r] eqn:Hpro; [|by vm_compute in Hpro].
  exists sd, st, elems. split; [done|].
  apply (DecodeValue_unmatched_skipped exampleParseTags exampleParseTags
           (exampleDecoders 1) asciiToLower exampleCodec exampleDecodeContext
           strangerDocument innerValue sd st elems Hpro).
  - vm_compute in Hpro. injection Hpro as <- _ _. reflexivity.
  - vm_compute in Hpro. injection Hpro as <- _ <-.
    intros nm [<-|[]]. by vm_compute.
Defined.

Lemma DecodeValue_frame_witness :
  exists fields',
    (DecodeValue exampleParseTags exampleParseTags (exampleDecoders 1)
       asciiToLower exampleCodec exampleDecodeContext (TopLevelReader [("c", BInt32 9)])
       outerValue).1.2
    = VStruct "Outer"
        [exported "A" tInt32 "x"; mkStructField "Inner" "" true tInner ",inline"]
        fields'
    /\ fields' !! 0 = Some (VBasic bInt32 "int32" 7).
Proof.
  destruct (decodePrologue exampleParseTags exampleParseTags exampleCodec
              exampleDecodeContext (TopLevelReader [("c", BInt32 9)]) outerValue)
    as [sd st elems|sc' d r] eqn:Hpro; [|by vm_compute in Hpro].
  destruct (DecodeValue_frame exampleParseTags exampleParseTags
              (exampleDecoders 1) asciiToLower exampleCodec exampleDecodeContext
              (TopLevelReader [("c", BInt32 9)]) outerValue sd st elems
              "Outer"
              [exported "A" tInt32 "x";
               mkStructField "Inner" "" true tInner ",inline"]
              [VBasic bInt32 "int32" 7;
               VStruct "Inner" [exported "B" tInt32 "x"; exported "C" tInt32 ""]
                 [VBasic bInt32 "int32" 5; VBasic bInt32 "int32" 6]]
              Hpro)
    as (_ & fields' & Hd & _ & Hframe).
  - vm_compute in Hpro. by injection Hpro as _ <- _.
  - exists fields'. split; [exact Hd|]. apply Hframe.
    + vm_compute in Hpro. injection Hpro as <- _ <-.
      intros nm fd [<-|[]]. vm_compute. by intros [= <-].
    + vm_compute in Hpro. injection Hpro as <- _ _. intros Hpos. by exfalso.
Defined.

Lemma DecodeValue_field_error_wrapped_witness :
  exists err,
    (DecodeValue exampleParseTags exampleParseTags (exampleDecoders 1)
       asciiToLower exampleCodec exampleDecodeContext
       (TopLevelReader [("X", BString "oops")]) innerValue).2 = Err err
    /\ Keys err = ["x"]
    /\ Unwrap err
       = Some (errorString "cannot decode string into an integer type").
Proof.
  destruct (decodePrologue exampleParseTags exampleParseTags exampleCodec
              exampleDecodeContext (TopLevelReader [("X", BString "oops")])
              innerValue)
    as [sd st elems|sc' d r] eqn:Hpro; [|by vm_compute in Hpro].
  apply (DecodeValue_field_error_wrapped exampleParseTags exampleParseTags
           (exampleDecoders 1) asciiToLower exampleCodec exampleDecodeContext
           (TopLevelReader [("X", BString "oops")]) innerValue sd st elems
           [] "X" (BString "oops") [] st
           (mkFieldDescription "x" "B" 0 false false false [] (Some 1) (Some 1))
           (settable (VBasic bInt32 "int32" 5)) 1 (ds_sc st)
           (VBasic bInt32 "int32" 5)
           (errorString "cannot decode string into an integer type") Hpro).
  - vm_compute in Hpro. by injection Hpro as _ _ <-.
  - reflexivity.
  - vm_compute in Hpro. injection Hpro as <- _ _. by vm_compute.
  - vm_compute in Hpro. by injection Hpro as _ <- _.
  - exact I.
  - reflexivity.
  - reflexivity.
  - reflexivity.
Defined.


(** ** Key paths *)

Lemma foldr_newDecodeError ks e :
  errorsAsDecodeError e = None -> ks <> [] ->
  foldr newDecodeError e ks = DecodeError (rev ks) e.
Proof.
  intros He. induction ks as [|k ks IH]; [done|]. intros _.
  cbn [foldr]. destruct ks as [|k' ks'].
  - cbn. unfold newDecodeError. by rewrite He.
  - rewrite IH by done. unfold newDecodeError. by cbn.
Qed.

(** X14.  Let an error that is not a [DecodeError] be wrapped by
    [newDecodeError] once per level of nesting, innermost field first.
    [Keys] of the result lists the names from the outermost to the
    innermost field, and [Unwrap] returns the original error. *)
Theorem newDecodeError_key_path ks e :
  errorsAsDecodeError e = None -> ks <> [] ->
  Keys (foldr newDecodeError e ks) = ks
  /\ Unwrap (foldr newDecodeError e ks) = Some e.
Proof.
  intros He Hks. rewrite foldr_newDecodeError by done.
  by rewrite Keys_rev, rev_involutive.
Qed.

Lemma newDecodeError_key_path_witness :
  Keys (newDecodeError "a" (newDecodeError "b"
          (newDecodeError "c" (errorString "boom")))) = ["a"; "b"; "c"]
  /\ Unwrap (newDecodeError "a" (newDecodeError "b"
               (newDecodeError "c" (errorString "boom"))))
     = Some (errorString "boom").
Proof.
  apply (newDecodeError_key_path ["a"; "b"; "c"] (errorString "boom"));
    [reflexivity|discriminate].
Defined.

(** ** Inline paths through nil pointers *)

Lemma Field_struct v n sfs fields i sf d :
  data v = VStruct n sfs fields -> sfs !! i = Some sf -> fields !! i = Some d ->
  Field v i
  = Ok {| data := d;
          flagStickyRO :=
            flagStickyRO v || (unexported sf && negb (sfAnonymous sf));
          flagEmbedRO := unexported sf && sfAnonymous sf;
          flagAddr := flagAddr v |}.
Proof. intros Hd Hsf Hf. unfold Field. by rewrite Hd, Hsf, Hf. Qed.

(** X15.  Let the field [i] of a settable struct be an exported nil pointer
    to a struct that has a field [j].  [getInlineField] on the path [i, j]
    allocates the pointer, which then points to the zero value of the
    struct, changes nothing else in the destination, and returns the field
    [j] of the new struct, addressable and with the zero value of its
    type. *)
Theorem getInlineField_allocates val n sfs fields i j sfi sn ssfs sfj :
  data val = VStruct n sfs fields ->
  CanSet val = true ->
  sfs !! i = Some sfi -> unexported sfi = false ->
  fields !! i = Some (VPtr (TStruct sn ssfs) None) ->
  ssfs !! j = Some sfj ->
  exists f,
    getInlineField val [i; j]
    = (withData val
         (VStruct n sfs
            (<[i := VPtr (TStruct sn ssfs) (Some (Zero (TStruct sn ssfs)))]>
               fields)),
       Ok f)
    /\ data f = Zero (sfType sfj)
    /\ flagAddr f = true.
Proof.
  intros Hd Hset Hi Hexp Hfi Hj.
  unfold CanSet, flagRO in Hset.
  apply andb_true_iff in Hset as [Haddr Hro].
  apply negb_true_iff, orb_false_iff in Hro as [Hsticky Hembed].
  assert (Hlt : i < length fields) by (by eapply lookup_lt_Some).
  unfold getInlineField. cbn [rev app getInlineFieldRev].
  assert (Hkind : reflect.Kind_eqb (ValueKind val) reflect.Struct = true).
  { unfold ValueKind, kindOf. by rewrite Hd. }
  assert (Hfirst : fieldByIndexErr val [i; j]
                   = Err (errorString "reflect: indirection through nil pointer to embedded struct")).
  { unfold fieldByIndexErr, FieldByIndex. rewrite Hkind.
    cbn [fieldByIndexFrom]. rewrite Hd. cbn [mbind result_bind].
    rewrite (Field_struct val n sfs fields i sfi _ Hd Hi Hfi).
    by cbn [mbind result_bind data]. }
  rewrite Hfirst.
  assert (Hparent : fieldByIndexErr val [i]
                    = Ok {| data := VPtr (TStruct sn ssfs) None;
                            flagStickyRO := false; flagEmbedRO := false;
                            flagAddr := true |}).
  { unfold fieldByIndexErr, FieldByIndex.
    rewrite (Field_struct val n sfs fields i sfi _ Hd Hi Hfi).
    by rewrite Hexp, Hsticky, Haddr. }
  rewrite Hparent. unfold ValueType. cbn [data typeOf mbind result_bind TypeElem].
  cbn [flagAddr negb flagRO flagStickyRO flagEmbedRO orb].
  rewrite Hd. cbn [setByIndex New data]. rewrite Hfi.
  cbn [setByIndex Zero].
  set (val2 := withData val _).
  assert (Hresult : fieldByIndexErr val2 [i; j]
                    = Ok {| data := Zero (sfType sfj);
                            flagStickyRO := unexported sfj && negb (sfAnonymous sfj);
                            flagEmbedRO := unexported sfj && sfAnonymous sfj;
                            flagAddr := true |}).
  { unfold fieldByIndexErr, FieldByIndex.
    replace (reflect.Kind_eqb (ValueKind val2) reflect.Struct) with true by done.
    cbn [fieldByIndexFrom]. unfold val2 at 1. cbn [data withData].
    cbn [mbind result_bind].
    rewrite (Field_struct val2 n sfs _ i sfi
               (VPtr (TStruct sn ssfs)
                  (Some (VStruct sn ssfs (map (fun sf => Zero (sfType sf)) ssfs))))
               eq_refl Hi).
    2:{ by apply list_lookup_insert_eq. }
    cbn [mbind result_bind data Elem flagStickyRO flagEmbedRO].
    erewrite Field_struct; [|reflexivity|exact Hj|].
    2:{ change (map ?f ?l) with (f <$> l).
        by rewrite list_lookup_fmap, Hj. }
    cbn [mbind result_bind flagStickyRO flagAddr val2 withData].
    by rewrite Hexp, Hsticky. }
  rewrite Hresult. eexists. split; [reflexivity|]. done.
Qed.

Lemma getInlineField_allocates_witness :
  exists f,
    getInlineField nilInlinePointerValue [0; 0]
    = (withData nilInlinePointerValue
         (VStruct "InlinePointer" inlinePointerFields
            [VPtr tInner (Some (Zero tInner))]),
       Ok f)
    /\ data f = Zero tInt32
    /\ flagAddr f = true.
Proof.
  apply (getInlineField_allocates nilInlinePointerValue "InlinePointer"
           inlinePointerFields [VPtr tInner None] 0 0
           (mkStructField "Inner" "" true (TPtr tInner) ",inline")
           "Inner" [exported "B" tInt32 "x"; exported "C" tInt32 ""]
           (exported "B" tInt32 "x")); reflexivity.
Defined.

(** ** The recursive zero builder *)

(** X16.  Whatever the type, [deepZero] never allocates a pointer: when it
    returns, it returns the zero [Value] or the plain zero value of the
    type; it returns no error; and it panics exactly on the struct types
    that have an exported field of struct kind. *)
Theorem deepZero_outcome t :
  (forall v, deepZero t = Ok v -> v = emptyValue \/ v = newIndirect t)
  /\ (forall e, deepZero t <> Err e)
  /\ ((exists m, deepZero t = Panic m)
      <-> exists n sfs, t = TStruct n sfs
                        /\ Exists (fun sf => exportedStruct sf = true) sfs).
Proof.
  destruct t as [| | | | | | |n sfs];
    try (split; [intros v [= <-]; by left|];
         split; [done|];
         split; [by intros [m Hm]|by intros (n & sfs & Ht & _)]).
  rewrite deepZero_struct.
  destruct (filter (fun sf => exportedStruct sf = true) sfs) as [|sf l] eqn:Hf.
  - split.
    { intros v. destruct sfs; intros [= <-]; [by left|by right]. }
    split; [by destruct sfs|].
    split; [intros [m Hm]; by destruct sfs|].
    intros (n' & sfs' & [= <- <-] & Hex).
    apply Exists_exists in Hex as (sf & Hin & Hsf).
    assert (H : sf ∈ filter (fun sf => exportedStruct sf = true) sfs).
    { by apply list_elem_of_filter. }
    rewrite Hf in H. by apply elem_of_nil in H.
  - split; [done|]. split; [done|]. split; [|by eexists].
    intros _. exists n, sfs. split; [done|].
    assert (H : sf ∈ filter (fun sf => exportedStruct sf = true) sfs).
    { rewrite Hf. left. }
    apply list_elem_of_filter in H as [Hsf Hin].
    apply Exists_exists. by exists sf.
Qed.

(** X17.  [recursivePointerTo] does not copy the data of its argument: for
    a struct none of whose fields is a non-nil pointer to a struct, it
    returns a pointer to the zero value of the type of the struct. *)
Theorem recursivePointerTo_discards_data n sfs fields :
  Forall (fun f => match f with
                   | VPtr _ (Some (VStruct _ _ _)) => False
                   | _ => True
                   end) fields ->
  recursivePointerTo (VStruct n sfs fields)
  = Ok (VPtr (TStruct n sfs) (Some (Zero (TStruct n sfs)))).
Proof.
  intros Hplain. cbn [recursivePointerTo].
  set (fill := fix fill (sfs0 : list (StructField rtype)) (fs : list rvalue)
                   (acc : list rvalue) (i : nat) {struct fs}
                 : result (list rvalue) := _).
  assert (Hfill : forall fs acc i,
            Forall (fun f => match f with
                             | VPtr _ (Some (VStruct _ _ _)) => False
                             | _ => True
                             end) fs ->
            fill sfs fs acc i = Ok acc).
  { induction fs as [|f fs IH]; intros acc i Hfs; [done|].
    apply Forall_cons in Hfs as [Hf Hfs]. cbn [fill].
    destruct f as [| | | |e [[]|]| | | |]; try done; by apply IH. }
  by rewrite Hfill.
Qed.

Lemma recursivePointerTo_discards_data_witness :
  recursivePointerTo (data innerValue) = Ok (VPtr tInner (Some (Zero tInner))).
Proof.
  apply (recursivePointerTo_discards_data "Inner"
           [exported "B" tInt32 "x"; exported "C" tInt32 ""]
           [VBasic bInt32 "int32" 5; VBasic bInt32 "int32" 6]).
  by repeat constructor.
Defined.

(** ** The dominance rule *)

(** X18.  On a group of fields in increasing order of depth,
    [dominantField] decides strict dominance: it returns the first field
    exactly when that field is strictly shallower than every other field of
    the group, and it reports a tie otherwise. *)
Theorem dominantField_decides_dominance f0 rest :
  StronglySorted (fun x y => depth x <= depth y) (f0 :: rest) ->
  (Forall (fun g => depth f0 < depth g) rest ->
   dominantField (f0 :: rest) = Ok (f0, true))
  /\ (~ Forall (fun g => depth f0 < depth g) rest ->
      dominantField (f0 :: rest) = Ok (zeroFieldDescription, false)).
Proof.
  intros Hs. apply StronglySorted_inv in Hs as [Hs Hall].
  destruct rest as [|f1 rest]; [split; [done|by intros []]|].
  apply Forall_cons in Hall as [H01 Hall].
  apply StronglySorted_inv in Hs as [_ Hall1].
  cbn [dominantField]. unfold depth in *.
  destruct (Nat.eqb_spec (length (inline f0)) (length (inline f1))) as [Heq|Hne].
  - split; [|done]. intros [Hlt _]%Forall_cons. lia.
  - split; [done|]. intros Hnot. exfalso. apply Hnot.
    constructor; [lia|].
    eapply Forall_impl; [exact Hall1|]. intros g Hg. cbn in Hg. lia.
Qed.

Lemma dominantField_decides_dominance_witness :
  dominantField [outerA; outerB; outerB2] = Ok (outerA, true).
Proof.
  apply (dominantField_decides_dominance outerA [outerB; outerB2]).
  - repeat constructor; cbn; lia.
  - repeat constructor; cbn; lia.
Defined.

(** X19.  In a list of fields sorted by name, the inner loop of the
    dominance pass finds the whole group of the first name: the fields it
    runs over, with the first one, are exactly the fields of the list that
    carry that name, and no field after them carries it. *)
Theorem sameNameRun_finds_group fi rest :
  StronglySorted coarseLe (fi :: rest) ->
  take (S (sameNameRun (name fi) rest)) (fi :: rest)
  = sameName (name fi) (fi :: rest)
  /\ Forall (fun g => name g <> name fi)
       (drop (S (sameNameRun (name fi) rest)) (fi :: rest)).
Proof.
  intros Hs. split.
  - by rewrite group_sameName.
  - cbn [drop]. by apply group_others_ne.
Qed.

Lemma sameNameRun_finds_group_witness :
  take (S (sameNameRun (name outerC) [outerA; outerB]))
    [outerC; outerA; outerB]
  = sameName (name outerC) [outerC; outerA; outerB]
  /\ Forall (fun g => name g <> name outerC)
       (drop (S (sameNameRun (name outerC) [outerA; outerB]))
          [outerC; outerA; outerB]).
Proof.
  apply (sameNameRun_finds_group outerC [outerA; outerB]).
  repeat first [apply SSorted_nil | apply SSorted_cons
               | apply List.Forall_nil | apply List.Forall_cons].
  all: first [left; by vm_compute | right; split; [done|cbn; lia]].
Defined.
